(** * Crossy: lane generation, windowing and vehicle simulation

    A shallow embedding of [crossy.py] (classes [Car], [Lane], [World] and
    [Player], with the helpers they call) and the properties of its lane
    generator and of the moves of the player.

    Conventions of the embedding.
    - Python [int] is [Z]; Python [float] is [Q].  Float constants carry their
      exact binary64 value; float arithmetic is taken without rounding or
      overflow.
    - A Python exception is a [Raise] in the [result] type; a loop that would
      not return is [Raise Diverges].
    - [random.Random] is the interface [PyRandom]: a seeded state with the two
      primitives [random()] and [_randbelow(n)], from which [randint],
      [choice], [shuffle] and [uniform] are derived as CPython derives them.
      The Mersenne Twister behind it is given as an instance further down.
    - [dict[int, Lane]] is [gmap Z Lane.t]. *)

From Stdlib Require Import ZArith QArith Qround Lia Lqa.
From stdpp Require Import gmap pmap strings list.

#[local] Open Scope Z_scope.

(** ** Exceptions *)

Inductive exn : Set := IndexError | ValueError | Diverges.

Inductive result (A : Type) : Type :=
| Ok (a : A)
| Raise (e : exn).
Arguments Ok {A} a.
Arguments Raise {A} e.

#[global] Instance result_ret : MRet result := @Ok.

#[global] Instance result_bind : MBind result :=
  λ A B f m, match m with Ok a => f a | Raise e => Raise e end.

(** ** Sensible defaults (module constants) *)

Definition TILE : Z := 48.
Definition COLS : Z := 9.
Definition ROWS_VISIBLE : Z := 12.
Definition WIDTH : Z := COLS * TILE.
Definition HEIGHT : Z := ROWS_VISIBLE * TILE.

Definition LANES_BEHIND : Z := 10.
Definition LANES_AHEAD : Z := 30.

(** 0.18 as binary64 *)
Definition TREE_CHANCE : Q := 3242591731706757 # 18014398509481984.

Definition SAFE_START_ROWS : Z := 6.

Definition ROAD_EVERY_APPROX : Z := 5.
Definition ROAD_JITTER : Z := 2.
Definition ROAD_SEGMENT_MIN : Z := 1.
Definition ROAD_SEGMENT_MAX : Z := 3.

Definition CAR_SPEED_MIN : Q := 60.
Definition CAR_SPEED_MAX : Q := 140.
(** 1.2 as binary64 *)
Definition CAR_GAP_MIN_TILES : Q := 5404319552844595 # 4503599627370496.
Definition CAR_GAP_MAX_TILES : Q := 3.
Definition CAR_LEN_MIN : Z := 1.
Definition CAR_LEN_MAX : Z := 2.

(** 0.6 as binary64 *)
Definition PATH_WIGGLE_CHANCE : Q := 5404319552844595 # 9007199254740992.

(** 0.85 and 1.15 as binary64: the bounds of the speed jitter *)
Definition SPEED_JITTER_LO : Q := 7656119366529843 # 9007199254740992.
Definition SPEED_JITTER_HI : Q := 2589569785738035 # 2251799813685248.

(** ** Helpers *)

(** [a < b] on floats, as a boolean *)
Definition Qltb (a b : Q) : bool := negb (Qle_bool b a).

(** [clamp(v, lo, hi)], on ints and on floats *)
Definition clamp (v lo hi : Z) : Z :=
  if v <? lo then lo else if hi <? v then hi else v.

Definition clampQ (v lo hi : Q) : Q :=
  if Qltb v lo then lo else if Qltb hi v then hi else v.

Definition lerp (a b t : Q) : Q := (a + (b - a) * t)%Q.

Definition world_row_to_screen_y (row camera_y : Q) : Q :=
  (inject_Z HEIGHT - ((row + 1) * inject_Z TILE) + camera_y)%Q.

(** [range(lo, hi)] *)
Definition range (lo hi : Z) : list Z := seqZ lo (hi - lo).

(** Python list indexing: a negative index counts from the end, anything
    outside [-len, len) raises [IndexError]. *)
Definition py_index (n : nat) (i : Z) : result nat :=
  if (0 <=? i) && (i <? Z.of_nat n) then Ok (Z.to_nat i)
  else if (- Z.of_nat n <=? i) && (i <? 0) then Ok (Z.to_nat (Z.of_nat n + i))
  else Raise IndexError.

Definition getitem {A} (l : list A) (i : Z) : result A :=
  k ← py_index (length l) i;
  match l !! k with Some a => Ok a | None => Raise IndexError end.

Definition setitem {A} (l : list A) (i : Z) (v : A) : result (list A) :=
  k ← py_index (length l) i; Ok (<[k := v]> l).

(** ** The random number generator *)

Class PyRandom : Type := {
  (** the generator's state *)
  rand_state : Type;
  (** [random.Random(seed)] *)
  Random : Z → rand_state;
  (** [rng.random()]: a float in [0.0, 1.0) *)
  random : rand_state → Q * rand_state;
  (** [rng._randbelow(n)]: an int in [0, n), for [n > 0] *)
  _randbelow : Z → rand_state → Z * rand_state;
  random_unit : ∀ g, (0 <= (random g).1 < 1)%Q;
  _randbelow_lt : ∀ n g, 0 < n → 0 ≤ (_randbelow n g).1 < n;
}.

Section Rand.
Context `{PyRandom}.

(** Computations that draw from a generator and may raise. *)
Definition Rand (A : Type) : Type := rand_state → result (A * rand_state).

#[global] Instance Rand_ret : MRet Rand := λ A a g, Ok (a, g).

#[global] Instance Rand_bind : MBind Rand :=
  λ A B f m g, match m g with Ok (a, g') => f a g' | Raise e => Raise e end.

Definition draw {A} (f : rand_state → A * rand_state) : Rand A :=
  λ g, Ok (f g).

Definition lift {A} (m : result A) : Rand A :=
  λ g, match m with Ok a => Ok (a, g) | Raise e => Raise e end.

(** [rng.randint(a, b)] is [randrange(a, b+1)]: [a + _randbelow(b+1-a)], and
    [ValueError] on an empty range. *)
Definition randint (a b : Z) : Rand Z :=
  let width := b + 1 - a in
  if 0 <? width then k ← draw (_randbelow width); mret (a + k)
  else lift (Raise ValueError).

(** [rng.choice(seq)] is [seq[_randbelow(len(seq))]], and [IndexError] on an
    empty sequence. *)
Definition choice {A} (seq : list A) : Rand A :=
  match seq with
  | [] => lift (Raise IndexError)
  | _ => i ← draw (_randbelow (Z.of_nat (length seq))); lift (getitem seq i)
  end.

(** [rng.uniform(a, b)] is [a + (b - a) * random()]. *)
Definition uniform (a b : Q) : Rand Q :=
  u ← draw random; mret (a + (b - a) * u)%Q.

(** [rng.shuffle(x)]: for [i] from [len(x)-1] down to [1], pick
    [j = _randbelow(i+1)] and swap [x[i]] with [x[j]]. *)
Definition swap {A} (l : list A) (i j : Z) : result (list A) :=
  xi ← getitem l i; xj ← getitem l j;
  l1 ← setitem l i xj; setitem l1 j xi.

Fixpoint shuffle_from {A} (i : nat) (l : list A) : Rand (list A) :=
  match i with
  | O => mret l
  | S i' =>
      j ← draw (_randbelow (Z.of_nat i + 1));
      l' ← lift (swap l (Z.of_nat i) j);
      shuffle_from i' l'
  end.

Definition shuffle {A} (l : list A) : Rand (list A) :=
  shuffle_from (length l - 1) l.

End Rand.

(** ** Cars *)

Module Car.

Record t : Type := mk {
  x : Q;       (* left edge, in pixels *)
  w : Z;       (* width, in pixels *)
  speed : Q;   (* pixels per second *)
  dir : Z;     (* 1 moves right, -1 moves left *)
}.

(** [Car.__init__] *)
Definition init (x_px : Q) (width_tiles : Z) (speed_px_s : Q) (direction : Z) : t :=
  {| x := x_px; w := width_tiles * TILE; speed := speed_px_s; dir := direction |}.

Definition set_x (c : t) (x' : Q) : t :=
  {| x := x'; w := w c; speed := speed c; dir := dir c |}.

(** The position after the move of one tick, before the wrap test.
    This is the first statement of [Car.update]. *)
Definition advance (dt : Q) (c : t) : Q :=
  (x c + inject_Z (dir c) * speed c * dt)%Q.

(** [Car.update] *)
Definition update (dt : Q) (c : t) : t :=
  let x1 := advance dt c in
  let buffer_px := 2 * TILE in
  if (dir c =? 1) && Qltb (inject_Z (WIDTH + buffer_px)) x1 then
    set_x c (inject_Z (- w c - buffer_px))
  else if (dir c =? -1) && Qltb x1 (inject_Z (- w c - buffer_px)) then
    set_x c (inject_Z (WIDTH + buffer_px))
  else
    set_x c x1.

End Car.

(** ** Lanes *)

Module Lane.

Record t : Type := mk {
  row : Z;
  kind : string;
  cols : Z;
  blocked : list bool;
  cars : list Car.t;
}.

(** [Lane.is_blocked] *)
Definition is_blocked (l : t) (col : Z) : result bool :=
  if negb (String.eqb (kind l) "grass") then Ok false
  else if (0 <=? col) && (col <? Z.of_nat (length (blocked l))) then
    getitem (blocked l) col
  else Ok true.

(** [Lane.update] *)
Definition update (dt : Q) (l : t) : t :=
  if String.eqb (kind l) "road" then
    {| row := row l; kind := kind l; cols := cols l; blocked := blocked l;
       cars := Car.update dt <$> cars l |}
  else l.

(** An upper bound on the number of times the placement loop of a road lane
    tests its condition: the cursor starts at -2*TILE or later and every
    car moves it by at least (1 + 1.2) tiles, so the eighth test fails. *)
Definition PLACEMENT_BOUND : nat := 8.

Section Init.
Context `{PyRandom}.

(** The loop [for c in range(cols)] that fills the bitmap of a grass lane. *)
Fixpoint fill_blocked (cs : list Z) (guaranteed_open : Z) (blocked : list bool)
  : Rand (list bool) :=
  match cs with
  | [] => mret blocked
  | c :: cs' =>
      if c =? guaranteed_open then
        blocked' ← lift (setitem blocked c false);
        fill_blocked cs' guaranteed_open blocked'
      else
        u ← draw random;
        blocked' ← lift (setitem blocked c (Qltb u TREE_CHANCE));
        fill_blocked cs' guaranteed_open blocked'
  end.

(** The loop [while x < WIDTH + 3 * TILE] that places the cars of a road
    lane; [fuel] bounds the number of tests of the condition. *)
Fixpoint place_cars (fuel : nat) (x speed : Q) (direction : Z) (cars : list Car.t)
  : Rand (list Car.t) :=
  match fuel with
  | O => lift (Raise Diverges)
  | S fuel' =>
      if Qltb x (inject_Z (WIDTH + 3 * TILE)) then
        car_len ← randint CAR_LEN_MIN CAR_LEN_MAX;
        let cars' := cars ++ [Car.init x car_len speed direction] in
        gap_tiles ← uniform CAR_GAP_MIN_TILES CAR_GAP_MAX_TILES;
        place_cars fuel'
          (x + (inject_Z (car_len * TILE) + gap_tiles * inject_Z TILE))%Q
          speed direction cars'
      else mret cars
  end.

(** The body of [Lane.__init__] after [rng = random.Random(seed)]. *)
Definition generate (row_index cols : Z) (kind : string) (forced_open_col : option Z)
  : Rand t :=
  let blocked0 := replicate (Z.to_nat cols) false in
  if String.eqb kind "grass" then
    passable_cols ← shuffle (range 0 cols);
    guaranteed_open ← lift (getitem passable_cols 0);
    blocked1 ← fill_blocked (range 0 cols) guaranteed_open blocked0;
    blocked2 ← match forced_open_col with
               | Some c =>
                   if (0 <=? c) && (c <? cols) then lift (setitem blocked1 c false)
                   else mret blocked1
               | None => mret blocked1
               end;
    mret {| row := row_index; kind := kind; cols := cols;
            blocked := blocked2; cars := [] |}
  else if String.eqb kind "road" then
    direction ← choice [-1; 1];
    let difficulty := clampQ (inject_Z row_index / 60) 0 1 in
    let base_speed := lerp CAR_SPEED_MIN CAR_SPEED_MAX difficulty in
    jitter ← uniform SPEED_JITTER_LO SPEED_JITTER_HI;
    let speed := (base_speed * jitter)%Q in
    x ← uniform (inject_Z (-2 * TILE)) (inject_Z (2 * TILE));
    cars ← place_cars PLACEMENT_BOUND x speed direction [];
    mret {| row := row_index; kind := kind; cols := cols;
            blocked := blocked0; cars := cars |}
  else
    mret {| row := row_index; kind := kind; cols := cols;
            blocked := blocked0; cars := [] |}.

(** [Lane.__init__] *)
Definition init (row_index cols : Z) (kind : string) (seed : Z)
  (forced_open_col : option Z) : result t :=
  '(l, _) ← generate row_index cols kind forced_open_col (Random seed); Ok l.

(** The colour [(r, g, b)] of the bush at column [c], as [Lane.draw]
    computes it for a blocked cell. *)
Definition bush_color (row_index c : Z) : result (Z * Z * Z) :=
  '(color, _) ← (g ← randint (-6) 6;
                 let g := clamp (170 + g) 135 155 in
                 r ← randint (-6) 6;
                 let r := clamp (60 + r) 60 155 in
                 b ← randint (-6) 6;
                 let b := clamp (60 + b) 60 155 in
                 mret (r, g, b)) (Random ((row_index + 1) * 1000 + c));
  Ok color.

End Init.

End Lane.

(** ** World generator (with guaranteed grass path) *)

Module World.

(** The attributes of a [World]; [R] is the type of its generator [rng]. *)
Record t (R : Type) : Type := mk {
  cols : Z;
  lanes : gmap Z Lane.t;
  generated_max : Z;
  next_road_start : Z;
  road_remaining : Z;
  rng : R;
  path_col : Z;
}.
Arguments mk {R} _ _ _ _ _ _ _.
Arguments cols {R} _.
Arguments lanes {R} _.
Arguments generated_max {R} _.
Arguments next_road_start {R} _.
Arguments road_remaining {R} _.
Arguments rng {R} _.
Arguments path_col {R} _.

(** A [World] over the generator in scope. *)
Abbreviation state := (t rand_state).

Section World.
Context `{PyRandom}.

Definition set_lanes (f : gmap Z Lane.t → gmap Z Lane.t) (s : state) : state :=
  {| cols := cols s; lanes := f (lanes s); generated_max := generated_max s;
     next_road_start := next_road_start s; road_remaining := road_remaining s;
     rng := rng s; path_col := path_col s |}.

Definition set_generated_max (v : Z) (s : state) : state :=
  {| cols := cols s; lanes := lanes s; generated_max := v;
     next_road_start := next_road_start s; road_remaining := road_remaining s;
     rng := rng s; path_col := path_col s |}.

Definition set_next_road_start (v : Z) (s : state) : state :=
  {| cols := cols s; lanes := lanes s; generated_max := generated_max s;
     next_road_start := v; road_remaining := road_remaining s;
     rng := rng s; path_col := path_col s |}.

Definition set_road_remaining (v : Z) (s : state) : state :=
  {| cols := cols s; lanes := lanes s; generated_max := generated_max s;
     next_road_start := next_road_start s; road_remaining := v;
     rng := rng s; path_col := path_col s |}.

Definition set_rng (v : rand_state) (s : state) : state :=
  {| cols := cols s; lanes := lanes s; generated_max := generated_max s;
     next_road_start := next_road_start s; road_remaining := road_remaining s;
     rng := v; path_col := path_col s |}.

Definition set_path_col (v : Z) (s : state) : state :=
  {| cols := cols s; lanes := lanes s; generated_max := generated_max s;
     next_road_start := next_road_start s; road_remaining := road_remaining s;
     rng := rng s; path_col := v |}.

(** Run a drawing computation on [self.rng]. *)
Definition with_rng {A} (m : Rand A) (s : state) : result (A * state) :=
  '(a, g) ← m (rng s); Ok (a, set_rng g s).

(** [World._schedule_next_road_start] *)
Definition _schedule_next_road_start (current_row : Z) (s : state) : result state :=
  '(j, s) ← with_rng (randint (- ROAD_JITTER) ROAD_JITTER) s;
  let delta := ROAD_EVERY_APPROX + j in
  let delta := Z.max 2 delta in
  let s := set_next_road_start (current_row + delta) s in
  if next_road_start s <? SAFE_START_ROWS then
    Ok (set_next_road_start SAFE_START_ROWS s)
  else Ok s.

(** [World.__init__] *)
Definition init (cols : Z) : result state :=
  _schedule_next_road_start (SAFE_START_ROWS - 1)
    {| cols := cols; lanes := ∅; generated_max := -999999;
       next_road_start := 999999; road_remaining := 0;
       rng := Random 1337; path_col := cols `div` 2 |}.

(** [World._maybe_wiggle_path] *)
Definition _maybe_wiggle_path (s : state) : result state :=
  '(u, s) ← with_rng (draw random) s;
  if Qltb u PATH_WIGGLE_CHANCE then
    '(step, s) ← with_rng (choice [-1; 0; 1]) s;
    Ok (set_path_col (clamp (path_col s + step) 0 (cols s - 1)) s)
  else Ok s.

Definition grass_seed (row : Z) : Z := Z.lxor (row * 1000003) 0x123456.
Definition road_seed (row : Z) : Z := Z.lxor (row * 1000003) 0xABCDEF.

(** The scheduler of [_make_lane]: the kind of a row at or above the safe
    start, with the scheduler state updated. *)
Definition schedule_kind (row : Z) (s : state) : result (string * state) :=
  if 0 <? road_remaining s then
    Ok ("road", set_road_remaining (road_remaining s - 1) s)
  else if next_road_start s <=? row then
    '(n, s) ← with_rng (randint ROAD_SEGMENT_MIN ROAD_SEGMENT_MAX) s;
    let s := set_road_remaining n s in
    let s := set_road_remaining (road_remaining s - 1) s in
    s ← _schedule_next_road_start row s;
    Ok ("road", s)
  else Ok ("grass", s).

(** [World._make_lane] *)
Definition _make_lane (row : Z) (s : state) : result (Lane.t * state) :=
  if row <? SAFE_START_ROWS then
    l ← Lane.init row (cols s) "grass" (grass_seed row) (Some (path_col s));
    Ok (l, s)
  else
    '(kind, s) ← schedule_kind row s;
    if String.eqb kind "grass" then
      s ← _maybe_wiggle_path s;
      l ← Lane.init row (cols s) "grass" (grass_seed row) (Some (path_col s));
      Ok (l, s)
    else
      l ← Lane.init row (cols s) "road" (road_seed row) None;
      Ok (l, s).

(** The reset at the head of [ensure_range]. *)
Definition reset (row_min : Z) (s : state) : result state :=
  let s := set_generated_max (row_min - 1) s in
  let s := set_next_road_start 999999 s in
  let s := set_road_remaining 0 s in
  let s := set_rng (Random 1337) s in
  let s := set_path_col (cols s `div` 2) s in
  _schedule_next_road_start (SAFE_START_ROWS - 1) s.

Definition maybe_reset (row_min : Z) (s : state) : result state :=
  if generated_max s <? row_min - 50 then reset row_min s else Ok s.

(** One pass of the first loop of [ensure_range]. *)
Definition generate_row (r : Z) (s : state) : result state :=
  s ← match lanes s !! r with
      | None => '(l, s) ← _make_lane r s; Ok (set_lanes <[r := l]> s)
      | Some _ => Ok s
      end;
  Ok (set_generated_max (Z.max (generated_max s) r) s).

(** One pass of the second loop of [ensure_range]. *)
Definition backfill_row (r : Z) (s : state) : result state :=
  match lanes s !! r with
  | None =>
      l ← Lane.init r (cols s) "grass" (grass_seed r) (Some (path_col s));
      Ok (set_lanes <[r := l]> s)
  | Some _ => Ok s
  end.

(** [for r in rs: body] *)
Fixpoint for_each (body : Z → state → result state) (rs : list Z) (s : state) : result state :=
  match rs with
  | [] => Ok s
  | r :: rs' => s' ← body r s; for_each body rs' s'
  end.

(** The eviction at the tail of [ensure_range]. *)
Definition evict (keep_min keep_max : Z) (s : state) : state :=
  let to_delete :=
    filter (λ r, r < keep_min ∨ keep_max < r) (map_to_list (lanes s)).*1 in
  set_lanes (λ m, foldl (λ m r, delete r m) m to_delete) s.

(** [World.ensure_range] *)
Definition ensure_range (row_min row_max : Z) (s : state) : result state :=
  s ← maybe_reset row_min s;
  let start := Z.max (generated_max s + 1) row_min in
  s ← for_each generate_row (range start (row_max + 1)) s;
  s ← for_each backfill_row
        (range row_min (Z.min row_max (generated_max s) + 1)) s;
  let keep_min := row_min - 2 in
  let keep_max := row_max + 2 in
  Ok (evict keep_min keep_max s).

(** [World.get_lane] *)
Definition get_lane (row : Z) (s : state) : option Lane.t := lanes s !! row.

(** The test of [World.update] that skips a lane off the screen. *)
Definition off_screen (camera_y : Q) (l : Lane.t) : bool :=
  let y := world_row_to_screen_y (inject_Z (Lane.row l)) camera_y in
  Qltb (inject_Z (HEIGHT + TILE)) y || Qltb y (inject_Z (- TILE)).

(** [World.update] *)
Definition update (dt camera_y : Q) (s : state) : state :=
  set_lanes
    (fmap (λ l, if off_screen camera_y l then l else Lane.update dt l)) s.

End World.

End World.

(** ** Player *)

Module Player.

Record t : Type := mk {
  col : Z;
  row : Z;
  is_hopping : bool;
  hop_t : Q;
  start_pos : Q * Q;
  end_pos : Q * Q;
  render_col : Q;
  render_row : Q;
  alive : bool;
  max_row : Z;
  time_in_same_row : Q;
  _last_row_for_timer : Z;
}.

(** [Player.__init__] *)
Definition init (start_col start_row : Z) : t :=
  {| col := start_col; row := start_row;
     is_hopping := false; hop_t := 0;
     start_pos := (inject_Z start_col, inject_Z start_row);
     end_pos := (inject_Z start_col, inject_Z start_row);
     render_col := inject_Z start_col; render_row := inject_Z start_row;
     alive := true; max_row := start_row;
     time_in_same_row := 0; _last_row_for_timer := start_row |}.

Definition set_alive (v : bool) (p : t) : t :=
  {| col := col p; row := row p; is_hopping := is_hopping p; hop_t := hop_t p;
     start_pos := start_pos p; end_pos := end_pos p;
     render_col := render_col p; render_row := render_row p;
     alive := v; max_row := max_row p;
     time_in_same_row := time_in_same_row p;
     _last_row_for_timer := _last_row_for_timer p |}.

(** The assignments of [try_move] that start a hop to the target cell. *)
Definition start_hop (target_col target_row : Z) (p : t) : t :=
  {| col := target_col; row := target_row; is_hopping := true; hop_t := 0;
     start_pos := (inject_Z (col p), inject_Z (row p));
     end_pos := (inject_Z target_col, inject_Z target_row);
     render_col := render_col p; render_row := render_row p;
     alive := alive p; max_row := Z.max (max_row p) target_row;
     time_in_same_row := time_in_same_row p;
     _last_row_for_timer := _last_row_for_timer p |}.

(** The timer reset at the tail of [try_move]. *)
Definition restart_timer (p : t) : t :=
  {| col := col p; row := row p; is_hopping := is_hopping p; hop_t := hop_t p;
     start_pos := start_pos p; end_pos := end_pos p;
     render_col := render_col p; render_row := render_row p;
     alive := alive p; max_row := max_row p;
     time_in_same_row := 0; _last_row_for_timer := row p |}.

Section TryMove.
Context `{PyRandom}.

(** [Player.try_move] *)
Definition try_move (dcol drow : Z) (world : World.state) (p : t) : result t :=
  if negb (alive p) || is_hopping p then Ok p
  else
    let target_col := col p + dcol in
    let target_row := row p + drow in
    if (target_col <? 0) || (COLS <=? target_col) then Ok (set_alive false p)
    else
      match World.get_lane target_row world with
      | None => Ok p
      | Some lane =>
          blocked ← Lane.is_blocked lane target_col;
          if blocked : bool then Ok p
          else
            let p := start_hop target_col target_row p in
            if negb (row p =? _last_row_for_timer p) then Ok (restart_timer p)
            else Ok p
      end.

End TryMove.

End Player.

(** ** The Mersenne Twister of CPython's [random.Random]

    [MT19937] as [_randommodule.c] has it (32-bit words written out with
    their wrap-around, the array [mt] as a finite map from its indices), with
    the seeding of [random.seed] for an [int] and the methods [random],
    [getrandbits] and [_randbelow] of [random.py]. *)

Module MT.

Definition N : Z := 624.
Definition M : Z := 397.
Definition MATRIX_A : Z := 0x9908b0df.
Definition UPPER_MASK : Z := 0x80000000.
Definition LOWER_MASK : Z := 0x7fffffff.

Definition u32 (v : Z) : Z := Z.land v 0xffffffff.

(** The array [mt]: index [i] is kept at the key [i + 1]. *)
Definition array : Type := Pmap Z.

Definition key (i : Z) : positive := Z.to_pos (i + 1).

Record t : Type := mk { mt : array; index : Z }.

Definition word (a : array) (i : Z) : Z := default 0 (a !! key i).

Definition store (a : array) (i : Z) (v : Z) : array := <[key i := v]> a.

(** [init_genrand]: [mt[i] = 1812433253 * (mt[i-1] ^ (mt[i-1] >> 30)) + i]
    for [i] from 1 to [N - 1] *)
Fixpoint init_words (n : nat) (i : Z) (a : array) : array :=
  match n with
  | O => a
  | S n' =>
      let p := word a (i - 1) in
      let v := u32 (1812433253 * Z.lxor p (Z.shiftr p 30) + i) in
      init_words n' (i + 1) (store a i v)
  end.

Definition init_genrand (s : Z) : t :=
  {| mt := init_words (Z.to_nat (N - 1)) 1 (store ∅ 0 (u32 s)); index := N |}.

(** The two loops of [init_by_array]; [i] and [j] wrap as in the C code. *)
Fixpoint mix_key (k : nat) (key : list Z) (i j : Z) (a : array) : array * Z :=
  match k with
  | O => (a, i)
  | S k' =>
      let p := word a (i - 1) in
      let v := u32 (Z.lxor (word a i) (u32 (Z.lxor p (Z.shiftr p 30) * 1664525))
                    + default 0 (key !! Z.to_nat j) + j) in
      let a := store a i v in
      let i := i + 1 in
      let j := j + 1 in
      let '(a, i) := if N <=? i then (store a 0 (word a (N - 1)), 1) else (a, i) in
      let j := if Z.of_nat (length key) <=? j then 0 else j in
      mix_key k' key i j a
  end.

Fixpoint mix_index (k : nat) (i : Z) (a : array) : array :=
  match k with
  | O => a
  | S k' =>
      let p := word a (i - 1) in
      let v := u32 (Z.lxor (word a i) (u32 (Z.lxor p (Z.shiftr p 30) * 1566083941))
                    - i) in
      let a := store a i v in
      let i := i + 1 in
      let '(a, i) := if N <=? i then (store a 0 (word a (N - 1)), 1) else (a, i) in
      mix_index k' i a
  end.

Definition init_by_array (key : list Z) : t :=
  let s := init_genrand 19650218 in
  let '(a, i) := mix_key (Z.to_nat (Z.max N (Z.of_nat (length key)))) key 1 0 (mt s) in
  let a := mix_index (Z.to_nat (N - 1)) i a in
  {| mt := store a 0 0x80000000; index := N |}.

(** The 32-bit words of a non-negative integer, least significant first;
    at least one word. *)
Fixpoint key_words (fuel : nat) (n : Z) : list Z :=
  match fuel with
  | O => []
  | S fuel' =>
      u32 n :: (if Z.shiftr n 32 =? 0 then [] else key_words fuel' (Z.shiftr n 32))
  end.

(** [random.seed(a)] for an [int]: the key is [abs(a)]. *)
Definition seed (a : Z) : t :=
  let n := Z.abs a in
  init_by_array (key_words (S (Z.to_nat (Z.log2 n))) n).

(** The regeneration of all [N] words, in place. *)
Fixpoint twist (n : nat) (kk : Z) (a : array) : array :=
  match n with
  | O => a
  | S n' =>
      let y := Z.lor (Z.land (word a kk) UPPER_MASK)
                     (Z.land (word a ((kk + 1) `mod` N)) LOWER_MASK) in
      let mag := if Z.testbit y 0 then MATRIX_A else 0 in
      let v := Z.lxor (Z.lxor (word a ((kk + M) `mod` N)) (Z.shiftr y 1)) mag in
      twist n' (kk + 1) (store a kk v)
  end.

Definition temper (y : Z) : Z :=
  let y := Z.lxor y (Z.shiftr y 11) in
  let y := Z.lxor y (Z.land (Z.shiftl y 7) 0x9d2c5680) in
  let y := Z.lxor y (Z.land (Z.shiftl y 15) 0xefc60000) in
  let y := Z.lxor y (Z.shiftr y 18) in
  u32 y.

(** [genrand_uint32] *)
Definition genrand_uint32 (s : t) : Z * t :=
  let s := if N <=? index s
           then {| mt := twist (Z.to_nat N) 0 (mt s); index := 0 |} else s in
  (temper (word (mt s) (index s)), {| mt := mt s; index := index s + 1 |}).

(** [random()]: 53 bits, [(a * 2^26 + b) / 2^53] *)
Definition random (s : t) : Q * t :=
  let '(a, s) := genrand_uint32 s in
  let '(b, s) := genrand_uint32 s in
  ((Z.shiftr a 5 * 67108864 + Z.shiftr b 6) # 9007199254740992, s).

(** [getrandbits(k)], the words filled least significant first and the
    last one cut to the bits that remain *)
Fixpoint getrandbits_words (words : nat) (k : Z) (shift : Z) (acc : Z) (s : t) : Z * t :=
  match words with
  | O => (acc, s)
  | S words' =>
      let '(r, s) := genrand_uint32 s in
      let r := if k <? 32 then Z.shiftr r (32 - k) else r in
      getrandbits_words words' (k - 32) (shift + 32) (Z.lor acc (Z.shiftl r shift)) s
  end.

Definition getrandbits (k : Z) (s : t) : Z * t :=
  if k <=? 0 then (0, s)
  else getrandbits_words (Z.to_nat ((k - 1) / 32 + 1)) k 0 0 s.

(** The number of draws after which the rejection loop of [_randbelow] is
    cut.  CPython draws until a value is accepted; a draw is rejected with
    probability below one half. *)
Definition REJECTION_BOUND : nat := 128.

(** [while r >= n: r = getrandbits(k)] *)
Fixpoint reject (fuel : nat) (n k : Z) (r : Z) (s : t) : Z * t :=
  if r <? n then (r, s)
  else match fuel with
       | O => (0, s)
       | S fuel' => let '(r, s) := getrandbits k s in reject fuel' n k r s
       end.

(** [_randbelow_with_getrandbits] *)
Definition _randbelow (n : Z) (s : t) : Z * t :=
  let k := Z.log2 (Z.abs n) + (if n =? 0 then 0 else 1) in
  let '(r, s) := getrandbits k s in
  reject REJECTION_BOUND n k r s.

End MT.

(** *** The twister is a [PyRandom] *)

Lemma u32_range v : 0 ≤ MT.u32 v < 2 ^ 32.
Proof.
  unfold MT.u32. change 0xffffffff with (Z.ones 32).
  rewrite Z.land_ones by lia. apply Z.mod_pos_bound. lia.
Qed.

Lemma genrand_uint32_range s : 0 ≤ (MT.genrand_uint32 s).1 < 2 ^ 32.
Proof. unfold MT.genrand_uint32, MT.temper. cbn [fst]. apply u32_range. Qed.

Lemma MT_random_unit s : (0 <= (MT.random s).1 < 1)%Q.
Proof.
  unfold MT.random.
  pose proof (genrand_uint32_range s) as Ha.
  destruct (MT.genrand_uint32 s) as [a s1]. cbn [fst] in Ha.
  pose proof (genrand_uint32_range s1) as Hb.
  destruct (MT.genrand_uint32 s1) as [b s2]. cbn [fst] in Hb |- *.
  assert (0 ≤ Z.shiftr a 5 < 2 ^ 27) as Ha'.
  { rewrite Z.shiftr_div_pow2 by lia. split.
    - apply Z.div_pos; lia.
    - apply Z.div_lt_upper_bound; lia. }
  assert (0 ≤ Z.shiftr b 6 < 2 ^ 26) as Hb'.
  { rewrite Z.shiftr_div_pow2 by lia. split.
    - apply Z.div_pos; lia.
    - apply Z.div_lt_upper_bound; lia. }
  unfold Qle, Qlt. cbn [Qnum Qden]. lia.
Qed.

Lemma getrandbits_words_nonneg words k shift acc s :
  0 ≤ acc → 0 ≤ (MT.getrandbits_words words k shift acc s).1.
Proof.
  revert k shift acc s. induction words as [|words IH]; intros k shift acc s Hacc.
  - done.
  - cbn [MT.getrandbits_words]. pose proof (genrand_uint32_range s) as Hr.
    destruct (MT.genrand_uint32 s) as [r s1]. cbn [fst] in Hr.
    apply IH. apply Z.lor_nonneg. split; [done|].
    apply Z.shiftl_nonneg. destruct (k <? 32); [|lia].
    apply Z.shiftr_nonneg. lia.
Qed.

Lemma getrandbits_nonneg k s : 0 ≤ (MT.getrandbits k s).1.
Proof.
  unfold MT.getrandbits. destruct (k <=? 0); [done|].
  by apply getrandbits_words_nonneg.
Qed.

Lemma reject_range fuel n k r s :
  0 < n → 0 ≤ r → 0 ≤ (MT.reject fuel n k r s).1 < n.
Proof.
  intros Hn. revert r s.
  induction fuel as [|fuel IH]; intros r s Hr; cbn [MT.reject].
  - destruct (Z.ltb_spec r n); cbn [fst]; lia.
  - destruct (Z.ltb_spec r n); cbn [fst]; [lia|].
    pose proof (getrandbits_nonneg k s) as Hr'.
    destruct (MT.getrandbits k s) as [r' s']. by apply IH.
Qed.

Lemma MT_randbelow_lt n s : 0 < n → 0 ≤ (MT._randbelow n s).1 < n.
Proof.
  intros Hn. unfold MT._randbelow.
  pose proof (getrandbits_nonneg (Z.log2 (Z.abs n) + (if n =? 0 then 0 else 1)) s) as Hr.
  destruct (MT.getrandbits _ s) as [r s']. by apply reject_range.
Qed.

#[global] Instance MT_PyRandom : PyRandom := {|
  rand_state := MT.t;
  Random := MT.seed;
  random := MT.random;
  _randbelow := MT._randbelow;
  random_unit := MT_random_unit;
  _randbelow_lt := MT_randbelow_lt;
|}.

(** *** The twister at work

    The values below are the ones CPython 3.11 prints for the same calls. *)

(** [random.Random(1337).getrandbits(32)] *)
Example MT_word_1337 : (MT.genrand_uint32 (MT.seed 1337)).1 = 2653228291.
Proof. vm_compute. reflexivity. Qed.

(** [random.Random(1337).random().as_integer_ratio()], before reduction *)
Example MT_random_1337 :
  (MT.random (MT.seed 1337)).1 = 5564223072747405 # 9007199254740992.
Proof. vm_compute. reflexivity. Qed.

(** A negative seed of three words: [random.Random(-12345678901234567890123)] *)
Example MT_random_negative_seed :
  (MT.random (MT.seed (-12345678901234567890123))).1
  = 1423472352359525 # 9007199254740992.
Proof. vm_compute. reflexivity. Qed.

(** [random.Random(0).getrandbits(70)] *)
Example MT_getrandbits_70 : (MT.getrandbits 70 (MT.seed 0)).1 = 892550237140533643213.
Proof. vm_compute. reflexivity. Qed.

(** [random.Random(1337).randint(-2, 2)], the first draw of a new World *)
Example MT_randint_1337 :
  (λ r, match r with Ok (k, _) => Some k | Raise _ => None end)
    (randint (-2) 2 (Random 1337)) = Some 2.
Proof. vm_compute. reflexivity. Qed.

(** [r = random.Random(12345); l = list(range(9)); r.shuffle(l)] *)
Example MT_shuffle_12345 :
  (λ r, match r with Ok (l, _) => Some l | Raise _ => None end)
    (shuffle (range 0 9) (Random 12345)) = Some [7; 4; 3; 1; 5; 2; 8; 0; 6].
Proof. vm_compute. reflexivity. Qed.

(** [random.Random((7 * 1000003) ^ 0xABCDEF).choice([-1, 1])] *)
Example MT_choice_row_7 :
  (λ r, match r with Ok (d, _) => Some d | Raise _ => None end)
    (choice [-1; 1] (Random (World.road_seed 7))) = Some (-1).
Proof. vm_compute. reflexivity. Qed.

(** * Properties *)

(** The methods are unfolded by name in the proofs, never by [simpl]. *)
Arguments randint : simpl never.
Arguments choice : simpl never.
Arguments uniform : simpl never.
Arguments shuffle : simpl never.
Arguments Lane.generate : simpl never.
Arguments Lane.init : simpl never.
Arguments World.with_rng : simpl never.
Arguments World._schedule_next_road_start : simpl never.
Arguments World._maybe_wiggle_path : simpl never.
Arguments World.schedule_kind : simpl never.
Arguments World._make_lane : simpl never.
Arguments World.reset : simpl never.
Arguments World.maybe_reset : simpl never.
Arguments World.generate_row : simpl never.
Arguments World.backfill_row : simpl never.
Arguments World.evict : simpl never.
Arguments World.ensure_range : simpl never.
Arguments World.init : simpl never.

(** ** Helpers *)

Lemma Qltb_lt a b : Qltb a b = true ↔ (a < b)%Q.
Proof.
  unfold Qltb. rewrite negb_true_iff, <- not_true_iff_false, Qle_bool_iff.
  split; [apply Qnot_le_lt | apply Qlt_not_le].
Qed.

Lemma Qltb_ge a b : Qltb a b = false ↔ (b <= a)%Q.
Proof.
  unfold Qltb. rewrite negb_false_iff, Qle_bool_iff. done.
Qed.

Lemma clamp_range v lo hi : lo ≤ hi → lo ≤ clamp v lo hi ≤ hi.
Proof.
  intros Hle. unfold clamp.
  destruct (Z.ltb_spec v lo); [lia|]. destruct (Z.ltb_spec hi v); lia.
Qed.

Lemma elem_of_range r lo hi : r ∈ range lo hi ↔ lo ≤ r < hi.
Proof. unfold range. rewrite elem_of_seqZ. lia. Qed.

Lemma py_index_in_range n i :
  0 ≤ i < Z.of_nat n → py_index n i = Ok (Z.to_nat i).
Proof.
  intros Hi. unfold py_index.
  destruct (Z.leb_spec 0 i); [|lia]. destruct (Z.ltb_spec i (Z.of_nat n)); [done|lia].
Qed.

Lemma getitem_in_range {A} (l : list A) i :
  0 ≤ i < Z.of_nat (length l) → ∃ a, getitem l i = Ok a ∧ l !! Z.to_nat i = Some a.
Proof.
  intros Hi. unfold getitem. rewrite py_index_in_range by done.
  destruct (lookup_lt_is_Some_2 l (Z.to_nat i)) as [a Ha]; [lia|].
  exists a. cbn. by rewrite Ha.
Qed.

Lemma setitem_in_range {A} (l : list A) i v :
  0 ≤ i < Z.of_nat (length l) → setitem l i v = Ok (<[Z.to_nat i := v]> l).
Proof. intros Hi. unfold setitem. by rewrite py_index_in_range. Qed.

Lemma result_bind_Ok {A B} (m : result A) (f : A → result B) b :
  m ≫= f = Ok b → ∃ a, m = Ok a ∧ f a = Ok b.
Proof. destruct m as [a|e]; [|done]. intros Hf. by exists a. Qed.

(** ** The derived methods of the generator *)

Section RandLaws.
Context `{PyRandom}.

Lemma Rand_bind_Ok {A B} (m : Rand A) (f : A → Rand B) g b g' :
  (m ≫= f) g = Ok (b, g') → ∃ a g1, m g = Ok (a, g1) ∧ f a g1 = Ok (b, g').
Proof.
  unfold mbind, Rand_bind. destruct (m g) as [[a g1]|e]; [|done].
  intros Hf. by exists a, g1.
Qed.

Lemma Rand_ret_Ok {A} (a b : A) (g g' : rand_state) :
  (mret a : Rand A) g = Ok (b, g') → a = b ∧ g = g'.
Proof. unfold mret, Rand_ret. by intros [= -> ->]. Qed.

Lemma randint_spec a b g :
  a ≤ b → ∃ k g', randint a b g = Ok (k, g') ∧ a ≤ k ≤ b.
Proof.
  intros Hab. unfold randint.
  destruct (Z.ltb_spec 0 (b + 1 - a)); [|lia].
  pose proof (_randbelow_lt (b + 1 - a) g ltac:(lia)) as Hk.
  exists (a + (_randbelow (b + 1 - a) g).1), (_randbelow (b + 1 - a) g).2.
  split; [|lia].
  unfold mbind, Rand_bind, draw, mret, Rand_ret.
  by destruct (_randbelow (b + 1 - a) g).
Qed.

Lemma uniform_spec a b g :
  (a <= b)%Q → ∃ u g', uniform a b g = Ok (u, g') ∧ (a <= u <= b)%Q.
Proof.
  intros Hab. unfold uniform.
  pose proof (random_unit g) as Hu.
  exists (a + (b - a) * (random g).1)%Q, (random g).2. split.
  - unfold mbind, Rand_bind, draw, mret, Rand_ret. by destruct (random g).
  - split; nra.
Qed.

Lemma choice_spec {A} (seq : list A) g :
  seq ≠ [] → ∃ v g', choice seq g = Ok (v, g') ∧ v ∈ seq.
Proof.
  intros Hne. unfold choice. destruct seq as [|a seq]; [done|].
  set (l := a :: seq).
  pose proof (_randbelow_lt (Z.of_nat (length l)) g) as Hi.
  destruct (getitem_in_range l (_randbelow (Z.of_nat (length l)) g).1) as (v & Hv & Hl).
  { apply Hi. simpl. lia. }
  exists v, (_randbelow (Z.of_nat (length l)) g).2. split.
  - unfold mbind, Rand_bind, draw, lift.
    destruct (_randbelow (Z.of_nat (length l)) g) as [i g']. simpl in *. by rewrite Hv.
  - by eapply list_elem_of_lookup_2.
Qed.

Lemma swap_spec {A} (l : list A) i j :
  0 ≤ i < Z.of_nat (length l) → 0 ≤ j < Z.of_nat (length l) →
  ∃ l', swap l i j = Ok l' ∧ length l' = length l.
Proof.
  intros Hi Hj. unfold swap.
  destruct (getitem_in_range l i Hi) as (xi & -> & _).
  destruct (getitem_in_range l j Hj) as (xj & -> & _). cbn.
  rewrite setitem_in_range by done. cbn.
  rewrite setitem_in_range by (rewrite length_insert; done).
  eexists. split; [done|]. by rewrite !length_insert.
Qed.

Lemma shuffle_from_spec {A} i (l : list A) g :
  (i < length l ∨ i = 0)%nat →
  ∃ l' g', shuffle_from i l g = Ok (l', g') ∧ length l' = length l.
Proof.
  revert l g. induction i as [|i IH]; intros l g Hi.
  - by exists l, g.
  - cbn [shuffle_from]. unfold mbind at 1, Rand_bind at 1, draw at 1.
    pose proof (_randbelow_lt (Z.of_nat (S i) + 1) g ltac:(lia)) as Hj.
    destruct (_randbelow (Z.of_nat (S i) + 1) g) as [j g1]. cbn [fst] in Hj.
    destruct (swap_spec l (Z.of_nat (S i)) j) as (l1 & Hswap & Hlen); [lia..|].
    unfold mbind, Rand_bind, lift. rewrite Hswap.
    destruct (IH l1 g1) as (l' & g' & Hrec & Hlen'); [lia|].
    exists l', g'. split; [done|]. congruence.
Qed.

Lemma shuffle_spec {A} (l : list A) g :
  ∃ l' g', shuffle l g = Ok (l', g') ∧ length l' = length l.
Proof. unfold shuffle. apply shuffle_from_spec. lia. Qed.

End RandLaws.

(** ** Lane construction *)

Section LaneInit.
Context `{PyRandom}.

Lemma fill_blocked_spec cs guaranteed_open (blocked : list bool) g :
  (∀ c, c ∈ cs → 0 ≤ c < Z.of_nat (length blocked)) →
  ∃ blocked' g', Lane.fill_blocked cs guaranteed_open blocked g = Ok (blocked', g')
                 ∧ length blocked' = length blocked.
Proof.
  revert blocked g. induction cs as [|c cs IH]; intros blocked g Hcs.
  - by exists blocked, g.
  - cbn [Lane.fill_blocked].
    assert (0 ≤ c < Z.of_nat (length blocked)) as Hc by (apply Hcs; left).
    destruct (c =? guaranteed_open).
    + unfold mbind, Rand_bind, lift. rewrite setitem_in_range by done.
      destruct (IH (<[Z.to_nat c := false]> blocked) g) as (b' & g' & Hrec & Hlen).
      { intros c' Hc'. rewrite length_insert. apply Hcs. by right. }
      exists b', g'. split; [done|]. by rewrite Hlen, length_insert.
    + unfold mbind, Rand_bind, lift, draw. destruct (random g) as [u g1].
      rewrite setitem_in_range by done.
      destruct (IH (<[Z.to_nat c := Qltb u TREE_CHANCE]> blocked) g1)
        as (b' & g' & Hrec & Hlen).
      { intros c' Hc'. rewrite length_insert. apply Hcs. by right. }
      exists b', g'. split; [done|]. by rewrite Hlen, length_insert.
Qed.

(** The least distance the placement cursor moves per car, in pixels:
    one tile of car and [CAR_GAP_MIN_TILES] of gap. *)
Definition PLACEMENT_STEP : Q := (48 + CAR_GAP_MIN_TILES * 48)%Q.

Definition car_ok (speed : Q) (direction : Z) (c : Car.t) : Prop :=
  Car.speed c = speed ∧ Car.dir c = direction
  ∧ (Car.w c = TILE ∨ Car.w c = 2 * TILE).

Lemma place_cars_spec fuel x speed direction cars g :
  (1 ≤ fuel)%nat →
  (inject_Z (WIDTH + 3 * TILE) - x <= inject_Z (Z.of_nat fuel - 1) * PLACEMENT_STEP)%Q →
  Forall (car_ok speed direction) cars →
  ∃ cars' g', Lane.place_cars fuel x speed direction cars g = Ok (cars', g')
              ∧ Forall (car_ok speed direction) cars'.
Proof.
  revert x cars g. induction fuel as [|fuel IH]; intros x cars g Hfuel Hx Hcars; [lia|].
  cbn [Lane.place_cars].
  destruct (Qltb x (inject_Z (WIDTH + 3 * TILE))) eqn:Hlt.
  2:{ by exists cars, g. }
  apply Qltb_lt in Hlt.
  destruct (randint_spec CAR_LEN_MIN CAR_LEN_MAX g) as (n & g1 & Hn & Hnr); [done|].
  destruct (uniform_spec CAR_GAP_MIN_TILES CAR_GAP_MAX_TILES g1)
    as (gap & g2 & Hgap & Hgapr); [done|].
  unfold mbind at 1, Rand_bind at 1. rewrite Hn.
  unfold mbind at 1, Rand_bind at 1. rewrite Hgap.
  unfold CAR_LEN_MIN, CAR_LEN_MAX in Hnr.
  assert (1 <= inject_Z n)%Q as Hn1.
  { change 1%Q with (inject_Z 1). rewrite <- Zle_Qle. lia. }
  replace (Z.of_nat (S fuel) - 1) with (Z.of_nat fuel) in Hx by lia.
  unfold PLACEMENT_STEP, CAR_GAP_MIN_TILES in *.
  change (inject_Z TILE) with 48%Q.
  assert (inject_Z (n * TILE) == inject_Z n * 48)%Q as Hmul
    by (rewrite inject_Z_mult; reflexivity).
  destruct fuel as [|fuel'].
  { exfalso. change (inject_Z (Z.of_nat 0)) with 0%Q in Hx. lra. }
  apply IH.
  - lia.
  - replace (Z.of_nat (S fuel') - 1) with (Z.of_nat fuel') by lia.
    assert (inject_Z (Z.of_nat (S fuel')) == inject_Z (Z.of_nat fuel') + 1)%Q as Hs.
    { rewrite Nat2Z.inj_succ. unfold Z.succ. rewrite inject_Z_plus. reflexivity. }
    rewrite Hs in Hx. rewrite Hmul.
    assert (0 <= inject_Z (Z.of_nat fuel'))%Q.
    { change 0%Q with (inject_Z 0). rewrite <- Zle_Qle. lia. }
    lra.
  - apply Forall_app. split; [done|]. constructor; [|constructor].
    unfold car_ok, Car.init; cbn. split_and!; [done..|unfold TILE; lia].
Qed.

Lemma init_grass_spec row cols seed forced :
  0 < cols →
  ∃ l, Lane.init row cols "grass" seed forced = Ok l
       ∧ Lane.row l = row ∧ Lane.kind l = "grass" ∧ Lane.cols l = cols
       ∧ length (Lane.blocked l) = Z.to_nat cols ∧ Lane.cars l = []
       ∧ ∀ c, forced = Some c → 0 ≤ c < cols →
              Lane.blocked l !! Z.to_nat c = Some false.
Proof.
  intros Hcols. unfold Lane.init, Lane.generate.
  change (String.eqb "grass" "grass") with true. cbv iota.
  destruct (shuffle_spec (range 0 cols) (Random seed)) as (p & g1 & Hp & Hplen).
  assert (length (range 0 cols) = Z.to_nat cols) as Hrlen.
  { unfold range. rewrite length_seqZ. lia. }
  destruct (getitem_in_range p 0) as (go & Hgo & _); [lia|].
  destruct (fill_blocked_spec (range 0 cols) go (replicate (Z.to_nat cols) false) g1)
    as (b1 & g2 & Hb1 & Hb1len).
  { intros c Hc. apply elem_of_range in Hc. rewrite length_replicate. lia. }
  rewrite length_replicate in Hb1len.
  unfold mbind at 2, Rand_bind at 1. rewrite Hp.
  unfold mbind at 2, Rand_bind at 1, lift at 1. rewrite Hgo.
  unfold mbind at 2, Rand_bind at 1. rewrite Hb1.
  destruct forced as [c|].
  - destruct ((0 <=? c) && (c <? cols)) eqn:Hc.
    + apply andb_true_iff in Hc as [Hc1%Z.leb_le Hc2%Z.ltb_lt].
      unfold mbind at 2, Rand_bind at 1, lift at 1.
      rewrite setitem_in_range by lia. cbn.
      eexists. split; [done|]. cbn. rewrite length_insert.
      split_and!; try done. intros c' [= <-] _.
      apply list_lookup_insert_eq. lia.
    + cbn. eexists. split; [done|]. cbn. split_and!; try done.
      intros c' [= <-] Hc'. apply andb_false_iff in Hc as [?%Z.leb_gt|?%Z.ltb_ge]; lia.
  - cbn. eexists. split; [done|]. cbn. split_and!; done.
Qed.

Lemma init_road_spec row cols seed forced :
  ∃ l, Lane.init row cols "road" seed forced = Ok l
       ∧ Lane.row l = row ∧ Lane.kind l = "road" ∧ Lane.cols l = cols
       ∧ Lane.blocked l = replicate (Z.to_nat cols) false
       ∧ ∃ speed direction,
           (0 < speed)%Q ∧ (direction = 1 ∨ direction = -1)
           ∧ Forall (car_ok speed direction) (Lane.cars l).
Proof.
  unfold Lane.init, Lane.generate.
  change (String.eqb "road" "grass") with false.
  change (String.eqb "road" "road") with true. cbv iota.
  destruct (choice_spec [-1; 1] (Random seed)) as (d & g1 & Hd & Hdin); [done|].
  destruct (uniform_spec SPEED_JITTER_LO SPEED_JITTER_HI g1)
    as (j & g2 & Hj & Hjr); [done|].
  destruct (uniform_spec (inject_Z (-2 * TILE)) (inject_Z (2 * TILE)) g2)
    as (x & g3 & Hx & Hxr); [done|].
  set (difficulty := clampQ (inject_Z row / 60) 0 1).
  set (speed := (lerp CAR_SPEED_MIN CAR_SPEED_MAX difficulty * j)%Q).
  destruct (place_cars_spec Lane.PLACEMENT_BOUND x speed d [] g3)
    as (cars & g4 & Hcars & Hok).
  { unfold Lane.PLACEMENT_BOUND. lia. }
  { change (inject_Z (-2 * TILE)) with (-96)%Q in Hxr.
    change (inject_Z (WIDTH + 3 * TILE)) with 576%Q.
    change (inject_Z (Z.of_nat Lane.PLACEMENT_BOUND - 1)) with 7%Q.
    unfold PLACEMENT_STEP, CAR_GAP_MIN_TILES. lra. }
  { constructor. }
  unfold mbind at 2, Rand_bind at 1. rewrite Hd.
  unfold mbind at 2, Rand_bind at 1. rewrite Hj.
  unfold mbind at 2, Rand_bind at 1. rewrite Hx.
  unfold mbind at 2, Rand_bind at 1. fold difficulty. fold speed. rewrite Hcars.
  cbn. eexists. split; [done|]. cbn. split_and!; try done.
  exists speed, d. split_and!; [| |done].
  2:{ rewrite !elem_of_cons, elem_of_nil in Hdin. destruct Hdin as [->|[->|[]]]; auto. }
  assert (0 <= difficulty <= 1)%Q as Hdiff.
  { unfold difficulty, clampQ.
    destruct (Qltb _ 0) eqn:H0; [lra|]. apply Qltb_ge in H0.
    destruct (Qltb 1 _) eqn:H1; [lra|]. apply Qltb_ge in H1. lra. }
  unfold speed, lerp, CAR_SPEED_MIN, CAR_SPEED_MAX.
  unfold SPEED_JITTER_LO in Hjr. nra.
Qed.

Lemma init_kind row cols kind seed forced l :
  Lane.init row cols kind seed forced = Ok l →
  Lane.row l = row ∧ Lane.kind l = kind ∧ Lane.cols l = cols.
Proof.
  unfold Lane.init. intros Hl.
  apply result_bind_Ok in Hl as ([l0 g'] & Hgen & [= ->]).
  unfold Lane.generate in Hgen.
  destruct (String.eqb kind "grass"); [|destruct (String.eqb kind "road")];
    repeat (apply Rand_bind_Ok in Hgen as (? & ? & _ & Hgen));
    by apply Rand_ret_Ok in Hgen as [<- _].
Qed.

(** A car as the game has them: it moves, to the right or to the left. *)
Definition car_moves (c : Car.t) : Prop :=
  (Car.dir c = 1 ∨ Car.dir c = -1) ∧ (0 < Car.speed c)%Q.

Lemma init_cars row cols kind seed forced l :
  Lane.init row cols kind seed forced = Ok l → Forall car_moves (Lane.cars l).
Proof.
  intros Hl. destruct (String.eqb kind "road") eqn:Hroad.
  - apply String.eqb_eq in Hroad as ->.
    destruct (init_road_spec row cols seed forced)
      as (l0 & Hl0 & _ & _ & _ & _ & speed & d & Hspeed & Hd & Hcars).
    assert (l0 = l) as -> by congruence.
    eapply Forall_impl; [done|]. intros c (Hs & Hdir & _).
    unfold car_moves. by rewrite Hs, Hdir.
  - unfold Lane.init in Hl.
    apply result_bind_Ok in Hl as ([l0 g'] & Hgen & [= ->]).
    unfold Lane.generate in Hgen. rewrite Hroad in Hgen.
    destruct (String.eqb kind "grass");
      repeat (apply Rand_bind_Ok in Hgen as (? & ? & _ & Hgen));
      apply Rand_ret_Ok in Hgen as [<- _]; constructor.
Qed.

End LaneInit.

(** ** The generator's steps *)

Section WorldSteps.
Context `{PyRandom}.

(** The path column is a column of the field. *)
Definition path_ok (s : World.state) : Prop := 0 ≤ World.path_col s < World.cols s.

(** What a step that only touches the scheduler, the generator or the path
    leaves alone. *)
Definition same_window (s s' : World.state) : Prop :=
  World.cols s' = World.cols s ∧ World.lanes s' = World.lanes s
  ∧ World.generated_max s' = World.generated_max s.

Lemma with_rng_Ok {A} (m : Rand A) s a g :
  m (World.rng s) = Ok (a, g) → World.with_rng m s = Ok (a, World.set_rng g s).
Proof. unfold World.with_rng. by intros ->. Qed.

Lemma schedule_next_spec current_row s :
  ∃ j g, randint (- ROAD_JITTER) ROAD_JITTER (World.rng s) = Ok (j, g)
         ∧ - ROAD_JITTER ≤ j ≤ ROAD_JITTER
         ∧ World._schedule_next_road_start current_row s
           = Ok (World.set_next_road_start
                   (Z.max SAFE_START_ROWS
                      (current_row + Z.max 2 (ROAD_EVERY_APPROX + j)))
                   (World.set_rng g s)).
Proof.
  destruct (randint_spec (- ROAD_JITTER) ROAD_JITTER (World.rng s))
    as (j & g & Hj & Hjr); [done|].
  exists j, g. split_and!; [done|lia..|].
  unfold World._schedule_next_road_start.
  rewrite (with_rng_Ok _ _ _ _ Hj). cbn.
  destruct (Z.ltb_spec (current_row + Z.max 2 (ROAD_EVERY_APPROX + j)) SAFE_START_ROWS).
  - rewrite (Z.max_l SAFE_START_ROWS) by lia. done.
  - rewrite (Z.max_r SAFE_START_ROWS) by lia. done.
Qed.

Lemma maybe_wiggle_spec s :
  ∃ s', World._maybe_wiggle_path s = Ok s' ∧ same_window s s'
        ∧ World.next_road_start s' = World.next_road_start s
        ∧ World.road_remaining s' = World.road_remaining s
        ∧ (path_ok s → path_ok s').
Proof.
  unfold World._maybe_wiggle_path.
  rewrite (with_rng_Ok (draw random) s (random (World.rng s)).1 (random (World.rng s)).2)
    by (unfold draw; by destruct (random (World.rng s))).
  cbn. destruct (Qltb _ PATH_WIGGLE_CHANCE).
  - destruct (choice_spec [-1; 0; 1] (random (World.rng s)).2) as (step & g & Hstep & _);
      [done|].
    rewrite (with_rng_Ok _ _ step g) by done. cbn.
    eexists. split; [done|]. unfold same_window, path_ok. cbn. split_and!; try done.
    intros Hp.
    pose proof (clamp_range (World.path_col s + step) 0 (World.cols s - 1)). lia.
  - eexists. split; [done|]. unfold same_window, path_ok. cbn. done.
Qed.

(** The scheduler, case by case. *)
Lemma schedule_kind_spec row s :
  ∃ kind s', World.schedule_kind row s = Ok (kind, s') ∧ same_window s s'
    ∧ World.path_col s' = World.path_col s
    ∧ (kind = "grass" ∨ kind = "road").
Proof.
  unfold World.schedule_kind.
  destruct (0 <? World.road_remaining s).
  { eexists _, _. split; [done|]. unfold same_window. cbn. split_and!; auto. }
  destruct (World.next_road_start s <=? row).
  2:{ eexists _, _. split; [done|]. unfold same_window. split_and!; auto. }
  destruct (randint_spec ROAD_SEGMENT_MIN ROAD_SEGMENT_MAX (World.rng s))
    as (n & g & Hn & _); [done|].
  rewrite (with_rng_Ok _ _ _ _ Hn). cbn.
  match goal with
  | |- context [World._schedule_next_road_start row ?s1] =>
      destruct (schedule_next_spec row s1) as (j & g' & _ & _ & ->)
  end.
  cbn. eexists _, _. split; [done|]. unfold same_window. cbn. split_and!; auto.
Qed.

(** Every lane [_make_lane] returns is [Lane.init] at the row's seed: a
    grass lane with the path column as its hint, or a road lane. *)
Lemma make_lane_inv row s l s' :
  World._make_lane row s = Ok (l, s') →
  same_window s s'
  ∧ Lane.row l = row
  ∧ (row < SAFE_START_ROWS → Lane.kind l = "grass")
  ∧ (path_ok s → path_ok s')
  ∧ ((Lane.kind l = "grass"
      ∧ Lane.init row (World.cols s) "grass" (World.grass_seed row)
          (Some (World.path_col s')) = Ok l)
     ∨ (Lane.kind l = "road" ∧ SAFE_START_ROWS ≤ row
        ∧ Lane.init row (World.cols s) "road" (World.road_seed row) None = Ok l)).
Proof.
  unfold World._make_lane.
  destruct (Z.ltb_spec row SAFE_START_ROWS) as [Hrow|Hrow].
  { intros Hl. apply result_bind_Ok in Hl as (l0 & Hl & [= -> ->]).
    destruct (init_kind _ _ _ _ _ _ Hl) as (Hr & Hk & _).
    unfold same_window. split_and!; auto. }
  destruct (schedule_kind_spec row s) as (kind & s1 & -> & (Hc & Hl & Hg) & Hp & Hkind).
  cbn. destruct Hkind as [-> | ->].
  - change (String.eqb "grass" "grass") with true. cbv iota.
    destruct (maybe_wiggle_spec s1) as (s2 & -> & (Hc2 & Hl2 & Hg2) & _ & _ & Hp2). cbn.
    intros Hinit. apply result_bind_Ok in Hinit as (l0 & Hinit & [= -> ->]).
    destruct (init_kind _ _ _ _ _ _ Hinit) as (Hr & Hk & _).
    unfold same_window. split_and!; try congruence; try lia.
    + intros Hs. apply Hp2. unfold path_ok in *. by rewrite Hp, Hc.
    + left. split; [done|]. by rewrite <- Hc, <- Hc2.
  - change (String.eqb "road" "grass") with false. cbv iota.
    intros Hinit. apply result_bind_Ok in Hinit as (l0 & Hinit & [= -> ->]).
    destruct (init_kind _ _ _ _ _ _ Hinit) as (Hr & Hk & _).
    unfold same_window. split_and!; try congruence; try lia.
    + unfold path_ok. by rewrite Hp, Hc.
    + right. split_and!; [done..|]. by rewrite <- Hc.
Qed.

(** With at least one column, [_make_lane] returns. *)
Lemma make_lane_total row s :
  0 < World.cols s → ∃ l s', World._make_lane row s = Ok (l, s').
Proof.
  intros Hcols. unfold World._make_lane.
  destruct (Z.ltb_spec row SAFE_START_ROWS) as [Hrow|Hrow].
  { destruct (init_grass_spec row (World.cols s) (World.grass_seed row)
                (Some (World.path_col s))) as (l & -> & _); [done|].
    by exists l, s. }
  destruct (schedule_kind_spec row s) as (kind & s1 & -> & (Hc & _) & _ & Hkind).
  cbn. destruct Hkind as [-> | ->].
  - change (String.eqb "grass" "grass") with true. cbv iota.
    destruct (maybe_wiggle_spec s1) as (s2 & -> & (Hc2 & _) & _). cbn.
    destruct (init_grass_spec row (World.cols s2) (World.grass_seed row)
                (Some (World.path_col s2))) as (l & -> & _); [lia|].
    by exists l, s2.
  - change (String.eqb "road" "grass") with false. cbv iota.
    destruct (init_road_spec row (World.cols s1) (World.road_seed row) None)
      as (l & -> & _).
    by exists l, s1.
Qed.

Lemma is_blocked_grass l c b :
  Lane.kind l = "grass" → 0 ≤ c < Z.of_nat (length (Lane.blocked l)) →
  Lane.blocked l !! Z.to_nat c = Some b → Lane.is_blocked l c = Ok b.
Proof.
  intros Hk Hc Hb. unfold Lane.is_blocked. rewrite Hk. cbn.
  destruct (Z.leb_spec 0 c); [|lia].
  destruct (Z.ltb_spec c (Z.of_nat (length (Lane.blocked l)))); [|lia]. cbn.
  destruct (getitem_in_range (Lane.blocked l) c Hc) as (b' & -> & Hb').
  congruence.
Qed.

End WorldSteps.

(** ** The window: materialising and evicting *)

Section Window.
Context `{PyRandom}.

(** A lane as the generator builds it for row [r]. *)
Definition built_for (r : Z) (l : Lane.t) : Prop :=
  Lane.row l = r ∧ (r < SAFE_START_ROWS → Lane.kind l = "grass")
  ∧ Forall car_moves (Lane.cars l).

(** [s'] has the lanes of [s], untouched, and possibly new ones. *)
Definition grows (s s' : World.state) : Prop :=
  World.cols s' = World.cols s
  ∧ World.generated_max s ≤ World.generated_max s'
  ∧ (∀ r l, World.lanes s !! r = Some l → World.lanes s' !! r = Some l)
  ∧ (∀ r l, World.lanes s' !! r = Some l →
            World.lanes s !! r = Some l ∨ built_for r l)
  ∧ (path_ok s → path_ok s').

(** No lane lies beyond the last generated row. *)
Definition keys_below (s : World.state) : Prop :=
  ∀ r, is_Some (World.lanes s !! r) → r ≤ World.generated_max s.

#[local] Instance grows_preorder : PreOrder grows.
Proof.
  split.
  - intros s. unfold grows. split_and!; auto; lia.
  - intros s1 s2 s3 (Hc & Hg & Hf & Hn & Hp) (Hc' & Hg' & Hf' & Hn' & Hp').
    unfold grows. split_and!; [congruence|lia|auto| |auto].
    intros r l Hl. destruct (Hn' r l Hl) as [Hl2|?]; auto.
Qed.

Lemma generate_row_inv r s s' :
  World.generate_row r s = Ok s' →
  grows s s' ∧ is_Some (World.lanes s' !! r)
  ∧ World.generated_max s' = Z.max (World.generated_max s) r
  ∧ (keys_below s → keys_below s').
Proof.
  unfold World.generate_row. intros Hs.
  apply result_bind_Ok in Hs as (s1 & Hs1 & [= <-]). cbn.
  destruct (World.lanes s !! r) as [l|] eqn:Hr.
  - injection Hs1 as <-. unfold grows, keys_below. cbn.
    split_and!; auto; try lia.
    intros Hk r' Hr'. specialize (Hk r' Hr'). lia.
  - apply result_bind_Ok in Hs1 as ([l s2] & Hmk & [= <-]).
    apply make_lane_inv in Hmk as ((Hc & Hl & Hg) & Hrow & Hsafe & Hp & Hinit).
    assert (Forall car_moves (Lane.cars l)) as Hcars.
    { destruct Hinit as [[_ Hinit]|(_ & _ & Hinit)]; by eapply init_cars. }
    unfold grows, keys_below. cbn. rewrite Hl, Hg.
    split_and!; auto; try lia.
    + intros r' l' Hl'. rewrite lookup_insert_ne; [done|]. congruence.
    + intros r' l'. rewrite lookup_insert. case_decide; [|auto].
      intros [= <-]. right. subst r'. by split.
    + by rewrite lookup_insert_eq.
    + intros Hk r'. rewrite lookup_insert. case_decide; [lia|].
      intros Hr'. specialize (Hk r' Hr'). lia.
Qed.

Lemma generate_row_total r s :
  0 < World.cols s → ∃ s', World.generate_row r s = Ok s'.
Proof.
  intros Hcols. unfold World.generate_row.
  destruct (World.lanes s !! r); [by eexists|].
  destruct (make_lane_total r s Hcols) as (l & s1 & ->). by eexists.
Qed.

Lemma backfill_row_inv r s s' :
  World.backfill_row r s = Ok s' →
  grows s s' ∧ is_Some (World.lanes s' !! r)
  ∧ World.generated_max s' = World.generated_max s
  ∧ (r ≤ World.generated_max s → keys_below s → keys_below s').
Proof.
  unfold World.backfill_row. intros Hs.
  destruct (World.lanes s !! r) as [l|] eqn:Hr.
  - injection Hs as <-. split_and!; auto. reflexivity.
  - apply result_bind_Ok in Hs as (l & Hl & [= <-]).
    pose proof (init_cars _ _ _ _ _ _ Hl) as Hcars.
    apply init_kind in Hl as (Hrow & Hk & _).
    unfold grows, keys_below. cbn. split_and!; auto; try lia.
    + intros r' l' Hl'. rewrite lookup_insert_ne; [done|]. congruence.
    + intros r' l'. rewrite lookup_insert. case_decide; [|auto].
      intros [= <-]. right. subst r'. by split.
    + by rewrite lookup_insert_eq.
    + intros Hle Hkb r'. rewrite lookup_insert. case_decide; [lia|]. apply Hkb.
Qed.

Lemma backfill_row_total r s :
  0 < World.cols s → ∃ s', World.backfill_row r s = Ok s'.
Proof.
  intros Hcols. unfold World.backfill_row.
  destruct (World.lanes s !! r); [by eexists|].
  destruct (init_grass_spec r (World.cols s) (World.grass_seed r)
              (Some (World.path_col s))) as (l & -> & _); [done|].
  by eexists.
Qed.

(** Loops: what every pass guarantees, the loop guarantees. *)
Lemma for_each_inv (P : World.state → Prop) (R : relation World.state) `{!PreOrder R}
    body rs s s' :
  (∀ r s s', r ∈ rs → P s → body r s = Ok s' → P s' ∧ R s s') →
  P s → World.for_each body rs s = Ok s' → P s' ∧ R s s'.
Proof.
  revert s. induction rs as [|r rs IH]; intros s Hbody HP Hs.
  - injection Hs as <-. split; [done|reflexivity].
  - cbn [World.for_each] in Hs. apply result_bind_Ok in Hs as (s1 & Hs1 & Hs).
    destruct (Hbody r s s1) as [HP1 HR1]; [left|done..|].
    destruct (IH s1) as [HP' HR']; [|done..|].
    { intros r' t t' Hr'. apply Hbody. by right. }
    split; [done|]. by etrans.
Qed.

Lemma for_each_total (P : World.state → Prop) body rs s :
  (∀ r s, r ∈ rs → P s → ∃ s', body r s = Ok s' ∧ P s') →
  P s → ∃ s', World.for_each body rs s = Ok s'.
Proof.
  revert s. induction rs as [|r rs IH]; intros s Hbody HP.
  - by exists s.
  - cbn [World.for_each]. destruct (Hbody r s) as (s1 & -> & HP1); [left|done|].
    cbn. apply IH; [|done]. intros r' t Hr'. apply Hbody. by right.
Qed.

Lemma for_each_each (Q : Z → World.state → Prop) (R : relation World.state)
    `{!PreOrder R} body rs s s' :
  (∀ r s s', r ∈ rs → body r s = Ok s' → R s s' ∧ Q r s') →
  (∀ r s s', R s s' → Q r s → Q r s') →
  World.for_each body rs s = Ok s' →
  ∀ r, r ∈ rs → Q r s'.
Proof.
  intros Hbody Hstable. revert s Hbody.
  induction rs as [|r0 rs IH]; intros s Hbody Hs r Hr.
  - by apply elem_of_nil in Hr.
  - cbn [World.for_each] in Hs. apply result_bind_Ok in Hs as (s1 & Hs1 & Hs).
    assert (∀ r s s', r ∈ rs → body r s = Ok s' → R s s' ∧ Q r s') as Hbody'.
    { intros r' t t' Hr'. apply Hbody. by right. }
    apply elem_of_cons in Hr as [->|Hr]; [|by eapply IH].
    destruct (Hbody r0 s s1) as [_ HQ]; [left|done|].
    destruct (for_each_inv (λ _, True) R body rs s1 s') as [_ HR]; [|done..|].
    { intros r' t t' Hr' _ Ht. split; [done|]. by destruct (Hbody' r' t t'). }
    by eapply Hstable.
Qed.

(** Eviction keeps exactly the lanes of [keep_min .. keep_max]. *)
Lemma lookup_foldl_delete {A} (rs : list Z) (m : gmap Z A) r :
  foldl (λ m r, delete r m) m rs !! r = if decide (r ∈ rs) then None else m !! r.
Proof.
  revert m. induction rs as [|r0 rs IH]; intros m; cbn [foldl].
  - case_decide as Hr; [by apply elem_of_nil in Hr|done].
  - rewrite IH. destruct (decide (r ∈ rs)) as [Hr|Hr].
    + rewrite decide_True; [done|]. by right.
    + destruct (decide (r = r0)) as [->|Hne].
      * rewrite decide_True by left. apply lookup_delete_eq.
      * rewrite decide_False.
        -- by apply lookup_delete_ne.
        -- intros [?|?]%elem_of_cons; done.
Qed.

Lemma lookup_evict keep_min keep_max s r :
  World.lanes (World.evict keep_min keep_max s) !! r
  = if decide (keep_min ≤ r ≤ keep_max) then World.lanes s !! r else None.
Proof.
  unfold World.evict. cbn. rewrite lookup_foldl_delete.
  destruct (World.lanes s !! r) as [l|] eqn:Hl.
  - case_decide as Hin; case_decide as Hw; try done.
    + apply list_elem_of_filter in Hin as [? _]. lia.
    + exfalso. apply Hin. apply list_elem_of_filter. split; [lia|].
      apply list_elem_of_fmap. exists (r, l). split; [done|].
      by apply elem_of_map_to_list.
  - repeat case_decide; done.
Qed.

Lemma evict_fields keep_min keep_max s :
  World.cols (World.evict keep_min keep_max s) = World.cols s
  ∧ World.generated_max (World.evict keep_min keep_max s) = World.generated_max s
  ∧ World.path_col (World.evict keep_min keep_max s) = World.path_col s
  ∧ World.next_road_start (World.evict keep_min keep_max s) = World.next_road_start s
  ∧ World.road_remaining (World.evict keep_min keep_max s) = World.road_remaining s
  ∧ World.rng (World.evict keep_min keep_max s) = World.rng s.
Proof. done. Qed.

Lemma maybe_reset_spec row_min s :
  ∃ s0, World.maybe_reset row_min s = Ok s0 ∧ grows s s0
        ∧ World.lanes s0 = World.lanes s
        ∧ (keys_below s → keys_below s0).
Proof.
  unfold World.maybe_reset.
  destruct (Z.ltb_spec (World.generated_max s) (row_min - 50)) as [Hlt|Hge].
  2:{ exists s. split_and!; auto. reflexivity. }
  unfold World.reset.
  match goal with
  | |- context [World._schedule_next_road_start ?r ?s1] =>
      destruct (schedule_next_spec r s1) as (j & g & _ & _ & ->)
  end.
  eexists. split; [done|]. unfold grows, keys_below, path_ok. cbn.
  split_and!; auto; try lia.
  - intros [Hp1 Hp2]. split.
    + apply Z.div_pos; lia.
    + apply Z.div_lt_upper_bound; lia.
  - intros Hk r Hr. specialize (Hk r Hr). lia.
Qed.

(** [ensure_range], when it returns: the state before the eviction has
    grown from the one at entry, and holds every row of the window. *)
Lemma ensure_range_inv row_min row_max s s' :
  World.ensure_range row_min row_max s = Ok s' →
  ∃ s2, s' = World.evict (row_min - 2) (row_max + 2) s2 ∧ grows s s2
        ∧ (keys_below s → keys_below s2)
        ∧ (row_min ≤ row_max →
           ∀ r, row_min ≤ r ≤ row_max → is_Some (World.lanes s2 !! r)).
Proof.
  unfold World.ensure_range. intros Hs.
  destruct (maybe_reset_spec row_min s) as (s0 & Hreset & Hg0 & _ & Hk0).
  rewrite Hreset in Hs. cbn in Hs.
  apply result_bind_Ok in Hs as (s1 & Hgen & Hs).
  apply result_bind_Ok in Hs as (s2 & Hfill & [= <-]).
  set (start := Z.max (World.generated_max s0 + 1) row_min) in *.
  destruct (for_each_inv (λ t, keys_below s0 → keys_below t) grows
              World.generate_row (range start (row_max + 1)) s0 s1)
    as [Hk1 Hg1]; [|done..|].
  { intros r t t' _ Ht Hstep.
    apply generate_row_inv in Hstep as (? & _ & _ & ?). auto. }
  destruct (for_each_inv
              (λ t, World.generated_max t = World.generated_max s1
                    ∧ (keys_below s1 → keys_below t)) grows
              World.backfill_row
              (range row_min (Z.min row_max (World.generated_max s1) + 1)) s1 s2)
    as [[Hgm2 Hk2] Hg2]; [|done..|].
  { intros r t t' Hr [Hgm Ht] Hstep.
    apply backfill_row_inv in Hstep as (? & _ & Hgm' & Hkb).
    split; [|done]. split; [congruence|].
    intros Hk. apply Hkb; [|auto]. apply elem_of_range in Hr. lia. }
  exists s2. split_and!; [done| |auto|].
  { etrans; [done|]. by etrans. }
  intros Hle r Hr.
  assert (row_max ≤ World.generated_max s1) as Hmax.
  { destruct (decide (start ≤ row_max)) as [Hstart|Hstart].
    - pose proof (for_each_each (λ r t, r ≤ World.generated_max t) grows
                    World.generate_row (range start (row_max + 1)) s0 s1) as Hall.
      apply Hall; [| |done|apply elem_of_range; lia].
      + intros r' t t' _ Hstep.
        apply generate_row_inv in Hstep as (? & _ & Hgm & _). split; [done|lia].
      + intros r' t t' (_ & ? & _) ?. lia.
    - destruct Hg1 as (_ & ? & _). lia. }
  rewrite Z.min_l in Hfill by done.
  pose proof (for_each_each (λ r t, is_Some (World.lanes t !! r)) grows
                World.backfill_row (range row_min (row_max + 1)) s1 s2) as Hall.
  apply Hall; [| |done|apply elem_of_range; lia].
  - intros r' t t' _ Hstep. by apply backfill_row_inv in Hstep as (? & ? & _).
  - intros r' t t' (_ & _ & Hf & _) [l Hl]. exists l. auto.
Qed.

(** With at least one column, [ensure_range] returns. *)
Lemma ensure_range_total row_min row_max s :
  0 < World.cols s → ∃ s', World.ensure_range row_min row_max s = Ok s'.
Proof.
  intros Hcols. unfold World.ensure_range.
  destruct (maybe_reset_spec row_min s) as (s0 & -> & (Hc0 & _) & _). cbn.
  assert (∀ body,
            (∀ r t, 0 < World.cols t → ∃ t', body r t = Ok t') →
            (∀ r t t', body r t = Ok t' → grows t t') →
            ∀ rs t, 0 < World.cols t →
                    ∃ t', World.for_each body rs t = Ok t' ∧ 0 < World.cols t')
    as Hloop.
  { intros body Htotal Hgrows rs t Ht.
    destruct (for_each_total (λ t, 0 < World.cols t) body rs t) as (t' & Ht'); [|done|].
    { intros r u _ Hu. destruct (Htotal r u Hu) as (u' & Hu'). exists u'.
      split; [done|]. destruct (Hgrows _ _ _ Hu') as (-> & _). done. }
    exists t'. split; [done|].
    destruct (for_each_inv (λ t, 0 < World.cols t) grows body rs t t')
      as [? _]; [|done..].
    intros r u u' _ Hu Hstep. pose proof (Hgrows _ _ _ Hstep) as Hg.
    split; [|done]. destruct Hg as (-> & _). done. }
  destruct (Hloop World.generate_row generate_row_total
              (λ r t t' Ht, proj1 (generate_row_inv r t t' Ht))
              (range (Z.max (World.generated_max s0 + 1) row_min) (row_max + 1)) s0)
    as (s1 & -> & Hc1); [lia|]. cbn.
  destruct (Hloop World.backfill_row backfill_row_total
              (λ r t t' Ht, proj1 (backfill_row_inv r t t' Ht))
              (range row_min (Z.min row_max (World.generated_max s1) + 1)) s1)
    as (s2 & -> & Hc2); [done|]. cbn.
  by eexists.
Qed.

(** *** The states a World goes through

    A World is constructed with at least one column, and is then only
    changed through [ensure_range] and [update]. *)
Inductive reachable : World.state → Prop :=
| reachable_init cols s :
    0 < cols → World.init cols = Ok s → reachable s
| reachable_ensure_range s row_min row_max s' :
    reachable s → World.ensure_range row_min row_max s = Ok s' → reachable s'
| reachable_update s dt camera_y :
    reachable s → reachable (World.update dt camera_y s).

Lemma lane_update_kind dt l :
  Lane.row (Lane.update dt l) = Lane.row l
  ∧ Lane.kind (Lane.update dt l) = Lane.kind l
  ∧ Lane.blocked (Lane.update dt l) = Lane.blocked l.
Proof. unfold Lane.update. by destruct (String.eqb _ _). Qed.

Lemma car_update_moves dt c : car_moves c → car_moves (Car.update dt c).
Proof.
  unfold car_moves, Car.update.
  by destruct (_ && _); [|destruct (_ && _)].
Qed.

Lemma lane_update_cars dt l :
  Forall car_moves (Lane.cars l) → Forall car_moves (Lane.cars (Lane.update dt l)).
Proof.
  intros Hcars. unfold Lane.update. destruct (String.eqb _ _); [|done]. cbn.
  apply Forall_fmap. eapply Forall_impl; [done|]. intros c. apply car_update_moves.
Qed.

Lemma reachable_invariant s :
  reachable s →
  0 < World.cols s ∧ path_ok s ∧ keys_below s
  ∧ -999999 ≤ World.generated_max s
  ∧ ∀ r l, World.lanes s !! r = Some l → built_for r l.
Proof.
  induction 1 as [cols s Hcols Hinit
                 |s row_min row_max s' _ IH Hs
                 |s dt camera_y _ IH].
  - unfold World.init in Hinit.
    match type of Hinit with
    | World._schedule_next_road_start ?r ?s1 = _ =>
        destruct (schedule_next_spec r s1) as (j & g & _ & _ & Heq)
    end.
    rewrite Heq in Hinit. injection Hinit as <-.
    unfold path_ok, keys_below. cbn. split_and!; [done| | | |done|].
    + apply Z.div_pos; lia.
    + apply Z.div_lt_upper_bound; lia.
    + intros r [l Hl]. by rewrite lookup_empty in Hl.
    + intros r l Hl. by rewrite lookup_empty in Hl.
  - destruct IH as (Hcols & Hpath & Hkeys & Hgm & Hbuilt).
    apply ensure_range_inv in Hs as (s2 & -> & (Hc & Hg & Hf & Hn & Hp) & Hk & _).
    unfold path_ok, keys_below in *.
    destruct (evict_fields (row_min - 2) (row_max + 2) s2) as (-> & -> & -> & _).
    refine (conj _ (conj _ (conj _ (conj _ _)))); [lia|by apply Hp| |lia|].
    + intros r [l Hl]. rewrite lookup_evict in Hl. case_decide; [|done].
      apply (Hk Hkeys). by exists l.
    + intros r l Hl. rewrite lookup_evict in Hl. case_decide; [|done].
      destruct (Hn r l Hl); auto.
  - destruct IH as (Hcols & Hpath & Hkeys & Hgm & Hbuilt).
    unfold path_ok, keys_below in *. cbn.
    refine (conj _ (conj _ (conj _ (conj _ _)))); [done..| |done|].
    + intros r [l Hl]. rewrite lookup_fmap in Hl.
      destruct (World.lanes s !! r) as [l0|] eqn:Hl0; [|done].
      apply Hkeys. by exists l0.
    + intros r l Hl. rewrite lookup_fmap in Hl.
      destruct (World.lanes s !! r) as [l0|] eqn:Hl0; [|done].
      injection Hl as <-. destruct (Hbuilt r l0 Hl0) as (Hrow & Hkind & Hcars).
      unfold built_for.
      destruct (World.off_screen camera_y l0); [done|].
      destruct (lane_update_kind dt l0) as (-> & -> & _).
      split_and!; [done..|]. by apply lane_update_cars.
Qed.

(** The states in which [ensure_range], called on a reachable World, calls
    [_make_lane]: after the reset step, and after each pass of the first
    loop. *)
Inductive generating : World.state → Prop :=
| generating_start s row_min s0 :
    reachable s → World.maybe_reset row_min s = Ok s0 → generating s0
| generating_next s r s' :
    generating s → World.generate_row r s = Ok s' → generating s'.

Lemma generating_path_ok s : generating s → path_ok s.
Proof.
  induction 1 as [s row_min s0 Hreach Hreset|s r s' _ IH Hstep].
  - destruct (reachable_invariant s Hreach) as (_ & Hpath & _).
    destruct (maybe_reset_spec row_min s) as (s1 & Hs1 & (_ & _ & _ & _ & Hp) & _).
    assert (s1 = s0) as -> by congruence. auto.
  - apply generate_row_inv in Hstep as ((_ & _ & _ & _ & Hp) & _). auto.
Qed.

(** The first loop of [ensure_range] runs through these states. *)
Lemma for_each_generating rs s s' :
  generating s → World.for_each World.generate_row rs s = Ok s' → generating s'.
Proof.
  revert s. induction rs as [|r rs IH]; intros s Hs Hloop.
  - by injection Hloop as <-.
  - cbn [World.for_each] in Hloop.
    apply result_bind_Ok in Hloop as (s1 & Hs1 & Hloop).
    eapply IH; [|done]. by eapply generating_next.
Qed.

(** In every state a World goes through, every car moves right or left at a
    positive speed. *)
Lemma reachable_cars_move s r l c :
  reachable s → World.get_lane r s = Some l → c ∈ Lane.cars l → car_moves c.
Proof.
  intros Hreach Hl Hc.
  destruct (reachable_invariant s Hreach) as (_ & _ & _ & _ & Hbuilt).
  destruct (Hbuilt r l Hl) as (_ & _ & Hcars).
  by eapply Forall_forall in Hcars.
Qed.

End Window.

(** * The claims *)

Section Claims.
Context `{PyRandom}.

(** In a state whose path column is a column of the field, a grass lane
    from [_make_lane] is open at the path column. *)
Lemma make_lane_path_open_at row s l s' :
  path_ok s →
  World._make_lane row s = Ok (l, s') →
  Lane.kind l = "grass" →
  Lane.init row (World.cols s) "grass" (World.grass_seed row)
    (Some (World.path_col s')) = Ok l
  ∧ Lane.is_blocked l (World.path_col s') = Ok false.
Proof.
  intros Hpath Hmk Hgrass.
  apply make_lane_inv in Hmk as ((Hc & _) & _ & _ & Hp & [[_ Hinit]|[Hroad _]]).
  2:{ rewrite Hgrass in Hroad. discriminate. }
  split; [done|].
  specialize (Hp Hpath). unfold path_ok in *. rewrite Hc in Hp.
  destruct (init_grass_spec row (World.cols s) (World.grass_seed row)
              (Some (World.path_col s'))) as (l0 & Hl0 & _ & _ & _ & Hlen & _ & Hopen);
    [lia|].
  assert (l0 = l) as -> by congruence.
  apply is_blocked_grass; [done|lia|]. by apply Hopen.
Qed.

(** C1. Traversability.  Whenever [ensure_range], called on a reachable
    World, gets a grass lane from the scheduler path [World._make_lane],
    that lane is the one [Lane.__init__] builds with the path column of that
    moment as its forced-open hint, and [is_blocked] at that column returns
    false. *)
Theorem make_lane_path_open row s l s' :
  generating s →
  World._make_lane row s = Ok (l, s') →
  Lane.kind l = "grass" →
  Lane.init row (World.cols s) "grass" (World.grass_seed row)
    (Some (World.path_col s')) = Ok l
  ∧ Lane.is_blocked l (World.path_col s') = Ok false.
Proof.
  intros Hgen. apply make_lane_path_open_at. by apply generating_path_ok.
Qed.

(** C2. Windowing.  On a World in any reachable state and for [low <= high],
    [ensure_range(low, high)] returns, and afterwards [get_lane(r)] is
    present for every [r] of [low .. high] and absent for every [r < low - 2]
    and every [r > high + 2]. *)
Theorem ensure_range_window row_min row_max s :
  reachable s → row_min ≤ row_max →
  ∃ s', World.ensure_range row_min row_max s = Ok s'
        ∧ (∀ r, row_min ≤ r ≤ row_max → is_Some (World.get_lane r s'))
        ∧ (∀ r, r < row_min - 2 ∨ row_max + 2 < r → World.get_lane r s' = None).
Proof.
  intros Hreach Hle.
  destruct (reachable_invariant s Hreach) as (Hcols & _).
  destruct (ensure_range_total row_min row_max s Hcols) as (s' & Hs').
  exists s'. split; [done|].
  apply ensure_range_inv in Hs' as (s2 & -> & _ & _ & Hall).
  unfold World.get_lane. split; intros r Hr; rewrite lookup_evict.
  - rewrite decide_True by lia. by apply Hall.
  - rewrite decide_False by lia. done.
Qed.

(** C5. Safe start.  In every state a World goes through, a lane
    materialised for a row below [SAFE_START_ROWS] (negative rows included,
    whichever loop built it) is a grass lane. *)
Theorem safe_start_rows_grass s r l :
  reachable s → World.get_lane r s = Some l → r < SAFE_START_ROWS →
  Lane.kind l = "grass".
Proof.
  intros Hreach Hl Hr.
  destruct (reachable_invariant s Hreach) as (_ & _ & _ & _ & Hbuilt).
  destruct (Hbuilt r l Hl) as (_ & Hkind & _). auto.
Qed.

(** C10. Frame.  [ensure_range(low, high)] leaves every lane that was
    materialised before the call and whose row lies in [low - 2 .. high + 2]
    as it was: [get_lane] returns the same lane, with its kind, bitmap and
    cars. *)
Theorem ensure_range_frame row_min row_max s s' r l :
  World.ensure_range row_min row_max s = Ok s' →
  World.get_lane r s = Some l →
  row_min - 2 ≤ r ≤ row_max + 2 →
  World.get_lane r s' = Some l.
Proof.
  intros Hs Hl Hr.
  apply ensure_range_inv in Hs as (s2 & -> & (_ & _ & Hframe & _) & _).
  unfold World.get_lane in *. rewrite lookup_evict, decide_True by done. auto.
Qed.

(** The hazard-run scheduler as the specification words it: the kind of the
    row, the new [hazard_remaining] and the new [next_hazard_start], drawing
    from the generator's stream. *)
Definition scheduler_spec (current_row hazard_remaining next_hazard_start : Z)
  : Rand (string * Z * Z) :=
  if 0 <? hazard_remaining then
    mret ("road", hazard_remaining - 1, next_hazard_start)
  else if next_hazard_start <=? current_row then
    run_length ← randint ROAD_SEGMENT_MIN ROAD_SEGMENT_MAX;
    jitter ← randint (- ROAD_JITTER) ROAD_JITTER;
    mret ("road", run_length - 1,
          Z.max SAFE_START_ROWS
            (current_row + Z.max 2 (ROAD_EVERY_APPROX + jitter)))
  else mret ("grass", hazard_remaining, next_hazard_start).

(** C6. The scheduler.  For a row at or above the safe-start threshold,
    [_make_lane] returns a lane whose kind, with the [road_remaining] and
    [next_road_start] it leaves, is what [scheduler_spec] computes from the
    row, the state at entry and the generator's stream: a running hazard run
    gives a road and is decremented; otherwise a row at or past
    [next_road_start] starts a run of [randint(MIN, MAX)] rows, is a road,
    consumes one row of the run, and moves [next_road_start] to
    [row + max(2, PERIOD + randint(-JITTER, JITTER))], not below the safe
    start; otherwise the row is grass and the scheduler is unchanged. *)
Theorem make_lane_scheduler row s :
  0 < World.cols s → SAFE_START_ROWS ≤ row →
  ∃ l s' g,
    World._make_lane row s = Ok (l, s')
    ∧ scheduler_spec row (World.road_remaining s) (World.next_road_start s)
        (World.rng s)
      = Ok ((Lane.kind l, World.road_remaining s', World.next_road_start s'), g).
Proof.
  intros Hcols Hrow. unfold World._make_lane, World.schedule_kind, scheduler_spec.
  destruct (Z.ltb_spec row SAFE_START_ROWS) as [?|_]; [lia|].
  destruct (0 <? World.road_remaining s).
  { cbn. destruct (init_road_spec row (World.cols s) (World.road_seed row) None)
      as (l & -> & _ & Hk & _).
    cbn. eexists _, _, _. split; [done|]. by rewrite Hk. }
  destruct (World.next_road_start s <=? row).
  - destruct (randint_spec ROAD_SEGMENT_MIN ROAD_SEGMENT_MAX (World.rng s))
      as (n & g1 & Hn & _); [done|].
    rewrite (with_rng_Ok _ _ _ _ Hn). cbn.
    match goal with
    | |- context [World._schedule_next_road_start row ?s1] =>
        destruct (schedule_next_spec row s1) as (j & g2 & Hj & _ & ->)
    end.
    cbn in Hj |- *.
    destruct (init_road_spec row (World.cols s) (World.road_seed row) None)
      as (l & -> & _ & Hk & _).
    cbn. eexists _, _, _. split; [done|].
    unfold mbind at 1, Rand_bind at 1. rewrite Hn.
    unfold mbind at 1, Rand_bind at 1. rewrite Hj.
    by rewrite Hk.
  - cbn. destruct (maybe_wiggle_spec s) as (s2 & -> & (Hc2 & _) & Hnrs & Hrr & _).
    cbn. destruct (init_grass_spec row (World.cols s2) (World.grass_seed row)
                     (Some (World.path_col s2))) as (l & -> & _ & Hk & _); [lia|].
    cbn. eexists _, _, _. split; [done|]. by rewrite Hk, Hnrs, Hrr.
Qed.

(** A new run has 1 to 3 rows, of which the first is consumed, and the next
    one starts 3 to 7 rows further on, beyond the safe start. *)
Lemma scheduler_spec_new_run row remaining next g kind remaining' next' g' :
  remaining ≤ 0 → next ≤ row →
  scheduler_spec row remaining next g = Ok ((kind, remaining', next'), g') →
  kind = "road"
  ∧ ROAD_SEGMENT_MIN - 1 ≤ remaining' ≤ ROAD_SEGMENT_MAX - 1
  ∧ SAFE_START_ROWS ≤ next'
  ∧ (SAFE_START_ROWS ≤ row →
     row + ROAD_EVERY_APPROX - ROAD_JITTER ≤ next'
     ≤ row + ROAD_EVERY_APPROX + ROAD_JITTER).
Proof.
  intros Hrem Hnext. unfold scheduler_spec.
  destruct (Z.ltb_spec 0 remaining); [lia|].
  destruct (Z.leb_spec next row); [|lia].
  destruct (randint_spec ROAD_SEGMENT_MIN ROAD_SEGMENT_MAX g)
    as (n & g1 & Hn & Hnr); [done|].
  destruct (randint_spec (- ROAD_JITTER) ROAD_JITTER g1)
    as (j & g2 & Hj & Hjr); [done|].
  unfold mbind at 1, Rand_bind at 1. rewrite Hn.
  unfold mbind at 1, Rand_bind at 1. rewrite Hj.
  intros [= <- <- <- <-]. split; [done|].
  unfold ROAD_SEGMENT_MIN, ROAD_SEGMENT_MAX, ROAD_EVERY_APPROX, ROAD_JITTER,
    SAFE_START_ROWS in *.
  lia.
Qed.

End Claims.

(** ** Vehicles *)

(** The band a car moves in: from its own width and the margin left of the
    field to the margin right of it. *)
Definition in_band (c : Car.t) (x : Q) : Prop :=
  (inject_Z (- Car.w c - 2 * TILE) <= x <= inject_Z (WIDTH + 2 * TILE))%Q.

(** C7. Vehicle wrap.  [Car.update] moves the position by
    [dir * speed * dt]; whatever the car, its position and [dt], a
    right-moving car that is then beyond [WIDTH + margin] is put at
    [-w - margin], a left-moving car that is then before [-w - margin] is put
    at [WIDTH + margin], and any other car is where the move took it.  So a
    car of direction 1 or -1 and non-negative speed that is in the band
    stays in the band, for every non-negative [dt]. *)
Theorem car_update_wrap dt c :
  (Car.dir c = 1 → (inject_Z (WIDTH + 2 * TILE) < Car.advance dt c)%Q →
   Car.x (Car.update dt c) = inject_Z (- Car.w c - 2 * TILE))
  ∧ (Car.dir c = -1 → (Car.advance dt c < inject_Z (- Car.w c - 2 * TILE))%Q →
     Car.x (Car.update dt c) = inject_Z (WIDTH + 2 * TILE))
  ∧ (¬ (Car.dir c = 1 ∧ (inject_Z (WIDTH + 2 * TILE) < Car.advance dt c)%Q) →
     ¬ (Car.dir c = -1 ∧ (Car.advance dt c < inject_Z (- Car.w c - 2 * TILE))%Q) →
     Car.x (Car.update dt c) = Car.advance dt c)
  ∧ Car.w (Car.update dt c) = Car.w c
  ∧ (Car.dir c = 1 ∨ Car.dir c = -1 →
     (0 <= Car.speed c)%Q → (0 <= dt)%Q →
     in_band c (Car.x c) → in_band c (Car.x (Car.update dt c))).
Proof.
  assert (Car.w (Car.update dt c) = Car.w c) as Hw.
  { unfold Car.update. cbv zeta.
    by destruct ((Car.dir c =? 1) && _); [|destruct ((Car.dir c =? -1) && _)]. }
  assert (Car.dir c = 1 → (inject_Z (WIDTH + 2 * TILE) < Car.advance dt c)%Q →
          Car.x (Car.update dt c) = inject_Z (- Car.w c - 2 * TILE)) as Hright.
  { intros Hd Hlt%Qltb_lt. unfold Car.update. cbv zeta. by rewrite Hd, Hlt. }
  assert (Car.dir c = -1 → (Car.advance dt c < inject_Z (- Car.w c - 2 * TILE))%Q →
          Car.x (Car.update dt c) = inject_Z (WIDTH + 2 * TILE)) as Hleft.
  { intros Hd Hlt%Qltb_lt. unfold Car.update. cbv zeta. by rewrite Hd, Hlt. }
  assert (¬ (Car.dir c = 1 ∧ (inject_Z (WIDTH + 2 * TILE) < Car.advance dt c)%Q) →
          ¬ (Car.dir c = -1 ∧ (Car.advance dt c < inject_Z (- Car.w c - 2 * TILE))%Q) →
          Car.x (Car.update dt c) = Car.advance dt c) as Hstay.
  { intros Hnr Hnl. unfold Car.update. cbv zeta.
    destruct ((Car.dir c =? 1) && _) eqn:Hr.
    { exfalso. apply Hnr. by apply andb_true_iff in Hr as [?%Z.eqb_eq ?%Qltb_lt]. }
    destruct ((Car.dir c =? -1) && _) eqn:Hl; [|done].
    exfalso. apply Hnl. by apply andb_true_iff in Hl as [?%Z.eqb_eq ?%Qltb_lt]. }
  refine (conj Hright (conj Hleft (conj Hstay (conj Hw _)))).
  intros Hdir Hspeed Hdt [Hlo Hhi].
  assert (0 <= Car.speed c * dt)%Q as Hmove by nra.
  unfold in_band in *.
  destruct (Qlt_le_dec (inject_Z (WIDTH + 2 * TILE)) (Car.advance dt c)) as [Hfar|Hnear],
    (Qlt_le_dec (Car.advance dt c) (inject_Z (- Car.w c - 2 * TILE))) as [Hlow|Hhigh],
    Hdir as [Hd|Hd].
  all: try (rewrite (Hright Hd Hfar); lra).
  all: try (rewrite (Hleft Hd Hlow); lra).
  all: try (exfalso; unfold Car.advance in *; rewrite Hd in *;
            change (inject_Z 1) with 1%Q in *;
            change (inject_Z (-1)) with (-1)%Q in *; lra).
  all: rewrite Hstay; [lra|intros [? ?]; try congruence; lra
                      |intros [? ?]; try congruence; lra].
Qed.

(** ** Lanes: blocked cells and content *)

Section LaneClaims.
Context `{PyRandom}.

Lemma setitem_length {A} (l : list A) i v l' :
  setitem l i v = Ok l' → length l' = length l.
Proof.
  unfold setitem. intros Hl. apply result_bind_Ok in Hl as (k & _ & [= <-]).
  apply length_insert.
Qed.

Lemma lift_Ok {A} (m : result A) g a g' :
  lift m g = Ok (a, g') → m = Ok a ∧ g' = g.
Proof. unfold lift. destruct m; [|done]. by intros [= -> ->]. Qed.

Lemma fill_blocked_length cs guaranteed_open blocked g blocked' g' :
  Lane.fill_blocked cs guaranteed_open blocked g = Ok (blocked', g') →
  length blocked' = length blocked.
Proof.
  revert blocked g. induction cs as [|c cs IH]; intros blocked g Hfill.
  - by apply Rand_ret_Ok in Hfill as [<- _].
  - cbn [Lane.fill_blocked] in Hfill. destruct (c =? guaranteed_open).
    + apply Rand_bind_Ok in Hfill as (b1 & g1 & Hset & Hfill).
      apply lift_Ok in Hset as [Hset _]. apply setitem_length in Hset.
      apply IH in Hfill. congruence.
    + apply Rand_bind_Ok in Hfill as (u & g1 & _ & Hfill).
      apply Rand_bind_Ok in Hfill as (b1 & g2 & Hset & Hfill).
      apply lift_Ok in Hset as [Hset _]. apply setitem_length in Hset.
      apply IH in Hfill. congruence.
Qed.

(** The bitmap of a lane has one cell per column. *)
Lemma init_blocked_length row cols kind seed forced l :
  Lane.init row cols kind seed forced = Ok l →
  length (Lane.blocked l) = Z.to_nat cols.
Proof.
  unfold Lane.init. intros Hl.
  apply result_bind_Ok in Hl as ([l0 g'] & Hgen & [= ->]).
  unfold Lane.generate in Hgen.
  destruct (String.eqb kind "grass"); [|destruct (String.eqb kind "road")].
  - apply Rand_bind_Ok in Hgen as (p & g1 & _ & Hgen).
    apply Rand_bind_Ok in Hgen as (go & g2 & _ & Hgen).
    apply Rand_bind_Ok in Hgen as (b1 & g3 & Hfill & Hgen).
    apply Rand_bind_Ok in Hgen as (b2 & g4 & Hforce & Hgen).
    apply Rand_ret_Ok in Hgen as [<- _]. cbn.
    apply fill_blocked_length in Hfill. rewrite length_replicate in Hfill.
    assert (length b2 = length b1) as ->; [|done].
    destruct forced as [c|]; [destruct ((0 <=? c) && (c <? cols))|].
    + apply lift_Ok in Hforce as [Hset _]. by apply setitem_length in Hset.
    + by apply Rand_ret_Ok in Hforce as [<- _].
    + by apply Rand_ret_Ok in Hforce as [<- _].
  - repeat (apply Rand_bind_Ok in Hgen as (? & ? & _ & Hgen)).
    apply Rand_ret_Ok in Hgen as [<- _]. cbn. apply length_replicate.
  - apply Rand_ret_Ok in Hgen as [<- _]. cbn. apply length_replicate.
Qed.

(** C8, amended.  For a grass lane of [cols] columns and a column outside
    [0 .. cols), [is_blocked] returns true and raises nothing; for a lane of
    another kind it returns false for every column, in range or not. *)
Theorem is_blocked_out_of_range row cols kind seed forced l :
  Lane.init row cols kind seed forced = Ok l →
  (String.eqb kind "grass" = true →
   ∀ col, col < 0 ∨ cols ≤ col → Lane.is_blocked l col = Ok true)
  ∧ (String.eqb kind "grass" = false →
     ∀ col, Lane.is_blocked l col = Ok false).
Proof.
  intros Hl.
  pose proof (init_blocked_length _ _ _ _ _ _ Hl) as Hlen.
  apply init_kind in Hl as (_ & Hkind & _).
  unfold Lane.is_blocked. rewrite Hkind, Hlen.
  split; intros -> col; [|done]. intros Hcol. cbn.
  destruct (Z.leb_spec 0 col); [|done].
  destruct (Z.ltb_spec col (Z.of_nat (Z.to_nat cols))); [lia|done].
Qed.

(** The hint of a lane that is not a grass lane is not read. *)
Lemma init_hint_unused row cols kind seed forced forced' :
  String.eqb kind "grass" = false →
  Lane.init row cols kind seed forced = Lane.init row cols kind seed forced'.
Proof. intros Hk. unfold Lane.init, Lane.generate. by rewrite Hk. Qed.

(** [built s r l hint]: in state [s] the lane [l] is built for row [r], by
    [_make_lane] (the first loop of [ensure_range]) or by the backfill loop,
    and [hint] is the path column it is built with. *)
Inductive built (s : World.state) (r : Z) (l : Lane.t) : Z → Prop :=
| built_make_lane s' :
    World._make_lane r s = Ok (l, s') → built s r l (World.path_col s')
| built_backfill s' :
    World.lanes s !! r = None →
    World.backfill_row r s = Ok s' →
    World.lanes s' !! r = Some l →
    built s r l (World.path_col s).

Lemma built_init s r l hint :
  built s r l hint →
  (Lane.kind l = "grass"
   ∧ Lane.init r (World.cols s) "grass" (World.grass_seed r) (Some hint) = Ok l)
  ∨ (Lane.kind l = "road"
     ∧ Lane.init r (World.cols s) "road" (World.road_seed r) None = Ok l).
Proof.
  intros [s' Hmk|s' Hnone Hfill Hl].
  - apply make_lane_inv in Hmk as (_ & _ & _ & _ & [?|(? & _ & ?)]); auto.
  - unfold World.backfill_row in Hfill. rewrite Hnone in Hfill.
    apply result_bind_Ok in Hfill as (l0 & Hinit & [= <-]).
    cbn in Hl. rewrite lookup_insert_eq in Hl. injection Hl as ->.
    left. split; [|done]. by apply init_kind in Hinit as (_ & ? & _).
Qed.

(** C4, amended.  The lane the World builds for a row is determined by the
    row, the kind, the column count and, for a grass lane, the path column
    it is built with: two lanes built for one row, by either loop and in
    whatever states of Worlds of one width, are equal when both are road
    lanes, or when both are grass lanes built with the same path column. *)
Theorem lane_content_deterministic r s1 s2 l1 l2 hint1 hint2 :
  built s1 r l1 hint1 →
  built s2 r l2 hint2 →
  World.cols s1 = World.cols s2 →
  Lane.kind l1 = Lane.kind l2 →
  Lane.kind l1 = "road" ∨ hint1 = hint2 →
  l1 = l2.
Proof.
  intros H1 H2 Hcols Hkind Hhint.
  apply built_init in H1 as [[Hk1 Hl1]|[Hk1 Hl1]];
    apply built_init in H2 as [[Hk2 Hl2]|[Hk2 Hl2]];
    try congruence.
  destruct Hhint as [?|Hpath]; congruence.
Qed.

(** C9, amended.  [World.update] advances the cars of every materialised
    road lane that is not off the screen (a lane is off the screen when its
    top is more than a tile below the window or more than a tile above it):
    each car of such a lane gets [Car.update], which moves it by
    [dir * speed * dt] before the wrap test.  A lane off the screen is left
    as it is. *)
Theorem world_update_on_screen dt camera_y s r l :
  World.get_lane r s = Some l →
  Lane.kind l = "road" →
  ∃ l', World.get_lane r (World.update dt camera_y s) = Some l'
        ∧ if World.off_screen camera_y l then l' = l
          else Lane.cars l' = Car.update dt <$> Lane.cars l
               ∧ Lane.kind l' = "road" ∧ Lane.row l' = Lane.row l.
Proof.
  intros Hl Hroad. unfold World.get_lane, World.update in *. cbn.
  rewrite lookup_fmap, Hl. cbn. eexists. split; [done|].
  destruct (World.off_screen camera_y l); [done|].
  unfold Lane.update. rewrite Hroad. cbn. done.
Qed.

End LaneClaims.

(** ** The reset *)

Section Reset.
Context `{PyRandom}.

(** The generator never reads the lane table: replacing the table commutes
    with every step of the scheduler. *)
Definition on_state {A} (f : World.state → World.state) (m : result (A * World.state))
  : result (A * World.state) :=
  match m with Ok (a, s) => Ok (a, f s) | Raise e => Raise e end.

Definition on_result (f : World.state → World.state) (m : result World.state)
  : result World.state :=
  match m with Ok s => Ok (f s) | Raise e => Raise e end.

Lemma with_rng_set_lanes {A} (m : Rand A) f s :
  World.with_rng m (World.set_lanes f s)
  = on_state (World.set_lanes f) (World.with_rng m s).
Proof.
  unfold World.with_rng. cbn. by destruct (m (World.rng s)) as [[a g]|e].
Qed.

Lemma schedule_next_set_lanes current_row f s :
  World._schedule_next_road_start current_row (World.set_lanes f s)
  = on_result (World.set_lanes f) (World._schedule_next_road_start current_row s).
Proof.
  unfold World._schedule_next_road_start. rewrite with_rng_set_lanes.
  destruct (World.with_rng _ s) as [[j s1]|e]; [|done]. cbn.
  by destruct (_ <? SAFE_START_ROWS).
Qed.

Lemma maybe_wiggle_set_lanes f s :
  World._maybe_wiggle_path (World.set_lanes f s)
  = on_result (World.set_lanes f) (World._maybe_wiggle_path s).
Proof.
  unfold World._maybe_wiggle_path. rewrite with_rng_set_lanes.
  destruct (World.with_rng _ s) as [[u s1]|e]; [|done]. cbn.
  destruct (Qltb u PATH_WIGGLE_CHANCE); [|done].
  rewrite with_rng_set_lanes.
  by destruct (World.with_rng _ s1) as [[step s2]|e].
Qed.

Lemma schedule_kind_set_lanes row f s :
  World.schedule_kind row (World.set_lanes f s)
  = on_state (World.set_lanes f) (World.schedule_kind row s).
Proof.
  unfold World.schedule_kind. cbn.
  destruct (0 <? World.road_remaining s); [done|].
  destruct (World.next_road_start s <=? row); [|done].
  rewrite with_rng_set_lanes.
  destruct (World.with_rng _ s) as [[n s1]|e]; [|done]. cbn.
  change (World.set_road_remaining (n - 1)
            (World.set_road_remaining n (World.set_lanes f s1)))
    with (World.set_lanes f
            (World.set_road_remaining (n - 1) (World.set_road_remaining n s1))).
  rewrite schedule_next_set_lanes.
  by destruct (World._schedule_next_road_start row _).
Qed.

Lemma make_lane_set_lanes row f s :
  World._make_lane row (World.set_lanes f s)
  = on_state (World.set_lanes f) (World._make_lane row s).
Proof.
  unfold World._make_lane. destruct (row <? SAFE_START_ROWS).
  { cbn. by destruct (Lane.init _ _ _ _ _). }
  rewrite schedule_kind_set_lanes.
  destruct (World.schedule_kind row s) as [[kind s1]|e]; [|done]. cbn.
  destruct (String.eqb kind "grass").
  - rewrite maybe_wiggle_set_lanes.
    destruct (World._maybe_wiggle_path s1) as [s2|e]; [|done]. cbn.
    by destruct (Lane.init _ _ _ _ _).
  - by destruct (Lane.init _ _ _ _ _).
Qed.

(** [t] is [s] with another lane table, equal to that of [s] from row [lo]
    on. *)
Definition agree_from (lo : Z) (s t : World.state) : Prop :=
  t = World.set_lanes (λ _, World.lanes t) s
  ∧ ∀ r, lo ≤ r → World.lanes s !! r = World.lanes t !! r.

Lemma agree_from_intro lo s t :
  World.cols t = World.cols s →
  World.generated_max t = World.generated_max s →
  World.next_road_start t = World.next_road_start s →
  World.road_remaining t = World.road_remaining s →
  World.rng t = World.rng s →
  World.path_col t = World.path_col s →
  (∀ r, lo ≤ r → World.lanes s !! r = World.lanes t !! r) →
  agree_from lo s t.
Proof.
  destruct s, t. cbn. intros -> -> -> -> -> -> Hlanes. by split.
Qed.

Lemma agree_from_fields lo s t :
  agree_from lo s t →
  World.cols t = World.cols s
  ∧ World.generated_max t = World.generated_max s
  ∧ World.next_road_start t = World.next_road_start s
  ∧ World.road_remaining t = World.road_remaining s
  ∧ World.rng t = World.rng s
  ∧ World.path_col t = World.path_col s.
Proof. intros [-> _]. done. Qed.

Lemma generate_row_agree lo r s t s' :
  lo ≤ r → agree_from lo s t → World.generate_row r s = Ok s' →
  ∃ t', World.generate_row r t = Ok t' ∧ agree_from lo s' t'.
Proof.
  intros Hr Hst Hs.
  pose proof (agree_from_fields _ _ _ Hst) as (Hc & Hg & Hn & Hrr & Hrng & Hp).
  destruct Hst as [Ht Hlanes]. unfold World.generate_row in *.
  rewrite <- (Hlanes r Hr).
  destruct (World.lanes s !! r) as [l|] eqn:Hl.
  - cbn in Hs |- *. injection Hs as <-. eexists. split; [done|].
    apply agree_from_intro; cbn; first [done|congruence].
  - apply result_bind_Ok in Hs as (s1 & Hs1 & [= <-]).
    apply result_bind_Ok in Hs1 as ([l s2] & Hmk & [= <-]).
    rewrite Ht, make_lane_set_lanes, Hmk. cbn.
    eexists. split; [done|]. apply agree_from_intro; cbn; try done.
    intros r' Hr'. rewrite !lookup_insert. case_decide; [done|].
    apply make_lane_inv in Hmk as ((_ & -> & _) & _). auto.
Qed.

Lemma backfill_row_agree lo r s t s' :
  lo ≤ r → agree_from lo s t → World.backfill_row r s = Ok s' →
  ∃ t', World.backfill_row r t = Ok t' ∧ agree_from lo s' t'.
Proof.
  intros Hr Hst Hs.
  pose proof (agree_from_fields _ _ _ Hst) as (Hc & Hg & Hn & Hrr & Hrng & Hp).
  destruct Hst as [Ht Hlanes]. unfold World.backfill_row in *.
  rewrite <- (Hlanes r Hr).
  destruct (World.lanes s !! r) as [l|] eqn:Hl.
  - injection Hs as <-. eexists. split; [done|]. by split.
  - apply result_bind_Ok in Hs as (l & Hinit & [= <-]).
    rewrite Hc, Hp, Hinit. cbn.
    eexists. split; [done|]. apply agree_from_intro; cbn; try done.
    intros r' Hr'. rewrite !lookup_insert. case_decide; auto.
Qed.

Lemma for_each_agree lo body rs s t s' :
  (∀ r s t s', lo ≤ r → agree_from lo s t → body r s = Ok s' →
               ∃ t', body r t = Ok t' ∧ agree_from lo s' t') →
  (∀ r, r ∈ rs → lo ≤ r) →
  agree_from lo s t → World.for_each body rs s = Ok s' →
  ∃ t', World.for_each body rs t = Ok t' ∧ agree_from lo s' t'.
Proof.
  intros Hbody. revert s t. induction rs as [|r rs IH]; intros s t Hrs Hst Hs.
  - injection Hs as <-. by exists t.
  - cbn [World.for_each] in Hs |- *.
    apply result_bind_Ok in Hs as (s1 & Hs1 & Hs).
    destruct (Hbody r s t s1) as (t1 & -> & Hst1); [apply Hrs; left|done..|].
    cbn. apply (IH s1 t1); [|done..]. intros r' Hr'. apply Hrs. by right.
Qed.

Lemma world_eq (s t : World.state) :
  World.cols s = World.cols t →
  World.lanes s = World.lanes t →
  World.generated_max s = World.generated_max t →
  World.next_road_start s = World.next_road_start t →
  World.road_remaining s = World.road_remaining t →
  World.rng s = World.rng t →
  World.path_col s = World.path_col t →
  s = t.
Proof. destruct s, t. cbn. by intros -> -> -> -> -> -> ->. Qed.

Lemma evict_agree keep_min keep_max s t :
  agree_from keep_min s t →
  World.evict keep_min keep_max s = World.evict keep_min keep_max t.
Proof.
  intros Hst.
  pose proof (agree_from_fields _ _ _ Hst) as (Hc & Hg & Hn & Hrr & Hrng & Hp).
  destruct Hst as [_ Hlanes].
  destruct (evict_fields keep_min keep_max s) as (Hc1 & Hg1 & Hp1 & Hn1 & Hr1 & Hrng1).
  destruct (evict_fields keep_min keep_max t) as (Hc2 & Hg2 & Hp2 & Hn2 & Hr2 & Hrng2).
  apply world_eq; try congruence.
  apply map_eq. intros r. rewrite !lookup_evict. case_decide; [|done].
  apply Hlanes. lia.
Qed.

(** C3, amended.  [ensure_range(low, high)] resets when [generated_max] is
    more than 50 rows behind [low] (the window starts far ahead of the last
    generated row, as on the first call), and not when [low] falls behind
    [generated_max].  On a reset the scheduler state, the generator and the
    path column become those of a fresh World and [generated_max] becomes
    [low - 1]; the lane table is not cleared by the reset, but the call as
    a whole returns what it returns on a fresh World of the same width, so
    no lane materialised before it is left. *)
Theorem ensure_range_reset row_min row_max s w0 :
  reachable s →
  World.init (World.cols s) = Ok w0 →
  (World.generated_max s < row_min - 50 →
   World.maybe_reset row_min s
   = Ok (World.set_lanes (λ _, World.lanes s)
           (World.set_generated_max (row_min - 1) w0))
   ∧ World.ensure_range row_min row_max s = World.ensure_range row_min row_max w0)
  ∧ (row_min - 50 ≤ World.generated_max s → World.maybe_reset row_min s = Ok s).
Proof.
  intros Hreach Hw0.
  destruct (reachable_invariant s Hreach) as (Hcols & _ & Hkeys & Hgm & _).
  split.
  2:{ intros Hge. unfold World.maybe_reset.
      destruct (Z.ltb_spec (World.generated_max s) (row_min - 50)); [lia|done]. }
  intros Hlt.
  (* the fresh World, and the two resets *)
  unfold World.init in Hw0.
  match type of Hw0 with
  | World._schedule_next_road_start ?r ?s1 = _ =>
      destruct (schedule_next_spec r s1) as (j & g & Hj & _ & Heq)
  end.
  rewrite Heq in Hw0. injection Hw0 as <-. cbn in Hj.
  assert (World.maybe_reset row_min s
          = Ok (World.set_lanes (λ _, World.lanes s)
                  (World.set_generated_max (row_min - 1)
                     (World.set_next_road_start
                        (Z.max SAFE_START_ROWS
                           (SAFE_START_ROWS - 1 + Z.max 2 (ROAD_EVERY_APPROX + j)))
                        (World.set_rng g
                           {| World.cols := World.cols s; World.lanes := ∅;
                              World.generated_max := -999999;
                              World.next_road_start := 999999;
                              World.road_remaining := 0;
                              World.rng := Random 1337;
                              World.path_col := World.cols s `div` 2 |})))))
    as Hreset.
  { unfold World.maybe_reset, World.reset.
    destruct (Z.ltb_spec (World.generated_max s) (row_min - 50)); [|lia].
    match goal with
    | |- World._schedule_next_road_start ?r ?s1 = _ =>
        destruct (schedule_next_spec r s1) as (j' & g' & Hj' & _ & ->)
    end.
    cbn in Hj'. rewrite Hj in Hj'. by injection Hj' as <- <-. }
  split; [done|].
  destruct (ensure_range_total row_min row_max s Hcols) as (s' & Hs').
  rewrite Hs'. symmetry.
  unfold World.ensure_range in Hs' |- *. rewrite Hreset in Hs'. cbn in Hs'.
  match goal with
  | |- context [World.maybe_reset row_min ?w] =>
      destruct (maybe_reset_spec row_min w) as (t0 & Ht0 & _);
      assert (World.maybe_reset row_min w
              = Ok (World.set_lanes (λ _, ∅)
                      (World.set_generated_max (row_min - 1) w))) as Hreset0
  end.
  { unfold World.maybe_reset, World.reset. cbn.
    destruct (Z.ltb_spec (-999999) (row_min - 50)); [|lia].
    match goal with
    | |- World._schedule_next_road_start ?r ?s1 = _ =>
        destruct (schedule_next_spec r s1) as (j' & g' & Hj' & _ & ->)
    end.
    cbn in Hj'. rewrite Hj in Hj'. by injection Hj' as <- <-. }
  rewrite Hreset0. cbn.
  apply result_bind_Ok in Hs' as (s1 & Hgen & Hs').
  apply result_bind_Ok in Hs' as (s2 & Hfill & [= <-]).
  match type of Hgen with
  | World.for_each _ _ ?a = _ =>
      match goal with
      | |- context [World.for_each World.generate_row _ ?b] =>
          assert (agree_from (row_min - 2) a b) as Hagree
      end
  end.
  { apply agree_from_intro; cbn; try done.
    intros r Hr. rewrite lookup_empty.
    destruct (World.lanes s !! r) as [l|] eqn:Hl; [|done].
    specialize (Hkeys r ltac:(by exists l)). lia. }
  cbn in Hgen.
  eapply for_each_agree in Hgen as (t1 & Hgen' & Hagree1); [| |
    |exact Hagree].
  2:{ intros r u v u' Hr. by apply generate_row_agree. }
  2:{ intros r Hr. apply elem_of_range in Hr. lia. }
  cbn. rewrite Hgen'. cbn.
  pose proof (agree_from_fields _ _ _ Hagree1) as (_ & Hgm1 & _).
  rewrite Hgm1.
  eapply for_each_agree in Hfill as (t2 & Hfill' & Hagree2); [| |
    |exact Hagree1].
  2:{ intros r u v u' Hr. by apply backfill_row_agree. }
  2:{ intros r Hr. apply elem_of_range in Hr. lia. }
  rewrite Hfill'. cbn. f_equal. symmetry. by apply evict_agree.
Qed.

End Reset.

(** * Further properties *)

(** ** Grass lanes: the bitmap *)

Section GrassLanes.
Context `{PyRandom}.

Lemma py_index_Ok n i k :
  py_index n i = Ok k → (k < n)%nat ∧ (0 ≤ i → k = Z.to_nat i).
Proof.
  unfold py_index. intros Hk.
  destruct ((0 <=? i) && (i <? Z.of_nat n)) eqn:H1.
  - injection Hk as <-. apply andb_true_iff in H1 as [?%Z.leb_le ?%Z.ltb_lt].
    split; [lia|done].
  - destruct ((- Z.of_nat n <=? i) && (i <? 0)) eqn:H2; [|done].
    injection Hk as <-. apply andb_true_iff in H2 as [?%Z.leb_le ?%Z.ltb_lt].
    split; lia.
Qed.

Lemma getitem_Ok {A} (l : list A) i a : getitem l i = Ok a → a ∈ l.
Proof.
  unfold getitem. intros Hl. apply result_bind_Ok in Hl as (k & _ & Hl).
  destruct (l !! k) as [a'|] eqn:Hk; [|done]. injection Hl as <-.
  by eapply list_elem_of_lookup_2.
Qed.

Lemma setitem_Ok {A} (l : list A) i v l' :
  setitem l i v = Ok l' →
  ∃ k, (k < length l)%nat ∧ l' = <[k := v]> l ∧ (0 ≤ i → k = Z.to_nat i).
Proof.
  unfold setitem. intros Hl. apply result_bind_Ok in Hl as (k & Hk & [= <-]).
  apply py_index_Ok in Hk as [? ?]. by exists k.
Qed.

(** A swap, and so a shuffle, only moves the elements of the list around. *)
Lemma swap_Forall {A} (P : A → Prop) (l : list A) i j l' :
  Forall P l → swap l i j = Ok l' → Forall P l'.
Proof.
  intros HP. unfold swap. intros Hl.
  apply result_bind_Ok in Hl as (xi & Hxi & Hl).
  apply result_bind_Ok in Hl as (xj & Hxj & Hl).
  apply result_bind_Ok in Hl as (l1 & Hl1 & Hl).
  apply getitem_Ok in Hxi, Hxj.
  apply setitem_Ok in Hl1 as (k1 & _ & -> & _).
  apply setitem_Ok in Hl as (k2 & _ & -> & _).
  rewrite Forall_forall in HP.
  apply Forall_insert; [apply Forall_insert|]; auto. by apply Forall_forall.
Qed.

Lemma shuffle_from_Forall {A} (P : A → Prop) i (l : list A) g l' g' :
  Forall P l → shuffle_from i l g = Ok (l', g') → Forall P l'.
Proof.
  revert l g. induction i as [|i IH]; intros l g HP Hl.
  - by apply Rand_ret_Ok in Hl as [<- _].
  - cbn [shuffle_from] in Hl.
    apply Rand_bind_Ok in Hl as (j & g1 & _ & Hl).
    apply Rand_bind_Ok in Hl as (l1 & g2 & Hswap & Hl).
    apply lift_Ok in Hswap as [Hswap _].
    eapply IH; [|done]. by eapply swap_Forall.
Qed.

Lemma shuffle_Forall {A} (P : A → Prop) (l : list A) g l' g' :
  Forall P l → shuffle l g = Ok (l', g') → Forall P l'.
Proof. unfold shuffle. apply shuffle_from_Forall. Qed.

(** The loop that fills the bitmap leaves the guaranteed cell open: the
    pass for that column clears it, and no other pass writes it. *)
Lemma fill_blocked_open cs guaranteed_open blocked g blocked' g' :
  (∀ c, c ∈ cs → 0 ≤ c) → 0 ≤ guaranteed_open →
  guaranteed_open ∈ cs ∨ blocked !! Z.to_nat guaranteed_open = Some false →
  Lane.fill_blocked cs guaranteed_open blocked g = Ok (blocked', g') →
  blocked' !! Z.to_nat guaranteed_open = Some false.
Proof.
  intros Hcs Hgo. revert blocked g.
  induction cs as [|c cs IH]; intros blocked g Hopen Hfill.
  - apply Rand_ret_Ok in Hfill as [<- _].
    destruct Hopen as [Hin|?]; [by apply elem_of_nil in Hin|done].
  - assert (0 ≤ c) as Hc by (apply Hcs; left).
    assert (∀ c, c ∈ cs → 0 ≤ c) as Hcs' by (intros c' ?; apply Hcs; by right).
    cbn [Lane.fill_blocked] in Hfill.
    destruct (Z.eqb_spec c guaranteed_open) as [->|Hne].
    + apply Rand_bind_Ok in Hfill as (b1 & g1 & Hset & Hfill).
      apply lift_Ok in Hset as [Hset _].
      apply setitem_Ok in Hset as (k & Hk & -> & Hkc). rewrite (Hkc Hc) in *.
      eapply IH; [done| |done]. right. by apply list_lookup_insert_eq.
    + apply Rand_bind_Ok in Hfill as (u & g1 & _ & Hfill).
      apply Rand_bind_Ok in Hfill as (b1 & g2 & Hset & Hfill).
      apply lift_Ok in Hset as [Hset _].
      apply setitem_Ok in Hset as (k & Hk & -> & Hkc). rewrite (Hkc Hc) in *.
      eapply IH; [done| |done].
      destruct Hopen as [[?|?]%elem_of_cons|Hopen]; [congruence|by left|].
      right. rewrite list_lookup_insert_ne; [done|lia].
Qed.

(** A grass lane, when [Lane.__init__] returns it, has an open cell. *)
Lemma init_grass_open row cols seed forced l :
  Lane.init row cols "grass" seed forced = Ok l →
  ∃ c, 0 ≤ c < cols ∧ Lane.blocked l !! Z.to_nat c = Some false.
Proof.
  intros Hinit.
  pose proof (init_blocked_length _ _ _ _ _ _ Hinit) as Hlen.
  unfold Lane.init in Hinit.
  apply result_bind_Ok in Hinit as ([l0 g'] & Hgen & [= ->]).
  unfold Lane.generate in Hgen.
  change (String.eqb "grass" "grass") with true in Hgen. cbv iota in Hgen.
  apply Rand_bind_Ok in Hgen as (p & g1 & Hp & Hgen).
  apply Rand_bind_Ok in Hgen as (go & g2 & Hgo & Hgen).
  apply Rand_bind_Ok in Hgen as (b1 & g3 & Hfill & Hgen).
  apply Rand_bind_Ok in Hgen as (b2 & g4 & Hforce & Hgen).
  apply Rand_ret_Ok in Hgen as [<- _]. cbn in *.
  apply lift_Ok in Hgo as [Hgo _]. apply getitem_Ok in Hgo.
  assert (0 ≤ go < cols) as Hrange.
  { eapply (shuffle_Forall (λ c, 0 ≤ c < cols)) in Hp.
    - rewrite Forall_forall in Hp. by apply Hp.
    - apply Forall_forall. intros c Hc%elem_of_range. lia. }
  exists go. split; [done|].
  apply fill_blocked_open in Hfill.
  2:{ intros c Hc%elem_of_range. lia. }
  2:{ lia. }
  2:{ left. apply elem_of_range. lia. }
  destruct forced as [c|]; [destruct ((0 <=? c) && (c <? cols)) eqn:Hc|].
  - apply andb_true_iff in Hc as [Hc1%Z.leb_le _].
    apply lift_Ok in Hforce as [Hset _].
    apply setitem_Ok in Hset as (k & Hk & -> & Hkc). rewrite (Hkc Hc1) in *.
    destruct (decide (Z.to_nat c = Z.to_nat go)) as [Heq|Hne].
    + rewrite <- Heq. by apply list_lookup_insert_eq.
    + by rewrite list_lookup_insert_ne.
  - by apply Rand_ret_Ok in Hforce as [<- _].
  - by apply Rand_ret_Ok in Hforce as [<- _].
Qed.

(** X1. Every grass lane can be stood on.  For a positive number of
    columns, [Lane.__init__] returns a grass lane, whatever the row, the
    seed and the hint, and [is_blocked] is false for at least one column
    of it. *)
Theorem grass_lane_open_cell row cols seed forced :
  0 < cols →
  ∃ l, Lane.init row cols "grass" seed forced = Ok l
       ∧ ∃ c, 0 ≤ c < cols ∧ Lane.is_blocked l c = Ok false.
Proof.
  intros Hcols.
  destruct (init_grass_spec row cols seed forced Hcols)
    as (l & Hl & _ & Hkind & _ & Hlen & _).
  exists l. split; [done|].
  destruct (init_grass_open _ _ _ _ _ Hl) as (c & Hc & Hopen).
  exists c. split; [done|]. apply is_blocked_grass; [done|lia|done].
Qed.

(** A grass lane of no columns cannot be built. *)
Lemma init_grass_no_columns row cols seed forced :
  cols ≤ 0 → Lane.init row cols "grass" seed forced = Raise IndexError.
Proof.
  intros Hcols. unfold Lane.init, Lane.generate.
  change (String.eqb "grass" "grass") with true. cbv iota.
  unfold range. rewrite seqZ_nil by lia. done.
Qed.

(** X2. No columns.  With [cols <= 0], [Lane.__init__] raises [IndexError]
    for a grass lane (the shuffled list of columns is empty, and its first
    element is read), and returns a road lane with an empty bitmap. *)
Theorem lane_init_no_columns row cols seed forced :
  cols ≤ 0 →
  Lane.init row cols "grass" seed forced = Raise IndexError
  ∧ ∃ l, Lane.init row cols "road" seed forced = Ok l ∧ Lane.blocked l = [].
Proof.
  intros Hcols. split; [by apply init_grass_no_columns|].
  destruct (init_road_spec row cols seed forced) as (l & Hl & _ & _ & _ & Hb & _).
  exists l. split; [done|]. rewrite Hb. by replace (Z.to_nat cols) with 0%nat by lia.
Qed.

End GrassLanes.

(** ** Road lanes: the cars *)

Section RoadLanes.
Context `{PyRandom}.

Lemma randint_Ok a b g k g' : randint a b g = Ok (k, g') → a ≤ k ≤ b.
Proof.
  intros Hk. destruct (decide (a ≤ b)) as [Hab|Hab].
  - destruct (randint_spec a b g Hab) as (k' & g1 & Hk' & ?). congruence.
  - unfold randint in Hk. destruct (Z.ltb_spec 0 (b + 1 - a)); [lia|done].
Qed.

Lemma uniform_Ok a b g u g' :
  (a <= b)%Q → uniform a b g = Ok (u, g') → (a <= u <= b)%Q.
Proof.
  intros Hab Hu. destruct (uniform_spec a b g Hab) as (u' & g1 & Hu' & ?). congruence.
Qed.

Lemma choice_Ok {A} (seq : list A) g (v : A) g' :
  choice seq g = Ok (v, g') → v ∈ seq.
Proof.
  intros Hv. destruct seq as [|a seq]; [done|].
  destruct (choice_spec (a :: seq) g) as (v' & g1 & Hv' & ?); [done|]. congruence.
Qed.

(** The cars the placement loop lays down from the cursor [x]: each car at
    the cursor, one or two tiles long, then a gap of [CAR_GAP_MIN_TILES] to
    [CAR_GAP_MAX_TILES] tiles; the loop stops with the cursor at or beyond
    [WIDTH + 3 * TILE]. *)
Inductive chain : Q → list Car.t → Prop :=
| chain_stop x :
    (inject_Z (WIDTH + 3 * TILE) <= x)%Q → chain x []
| chain_car x c gap cars :
    (x < inject_Z (WIDTH + 3 * TILE))%Q →
    Car.x c = x →
    Car.w c = TILE ∨ Car.w c = 2 * TILE →
    (CAR_GAP_MIN_TILES <= gap <= CAR_GAP_MAX_TILES)%Q →
    chain (x + (inject_Z (Car.w c) + gap * inject_Z TILE))%Q cars →
    chain x (c :: cars).

Lemma place_cars_chain fuel x speed direction cars g cars' g' :
  Lane.place_cars fuel x speed direction cars g = Ok (cars', g') →
  ∃ new, cars' = cars ++ new ∧ chain x new
         ∧ Forall (car_ok speed direction) new.
Proof.
  revert x cars g. induction fuel as [|fuel IH]; intros x cars g Hplace; [done|].
  cbn [Lane.place_cars] in Hplace.
  destruct (Qltb x (inject_Z (WIDTH + 3 * TILE))) eqn:Hlt.
  2:{ apply Rand_ret_Ok in Hplace as [<- _]. apply Qltb_ge in Hlt.
      exists []. rewrite app_nil_r. split_and!; [done|by constructor|constructor]. }
  apply Qltb_lt in Hlt.
  apply Rand_bind_Ok in Hplace as (n & g1 & Hn & Hplace).
  apply Rand_bind_Ok in Hplace as (gap & g2 & Hgap & Hplace).
  apply randint_Ok in Hn. apply uniform_Ok in Hgap; [|done].
  apply IH in Hplace as (new & -> & Hchain & Hok).
  assert (n * TILE = TILE ∨ n * TILE = 2 * TILE) as Hw.
  { unfold CAR_LEN_MIN, CAR_LEN_MAX, TILE in *. lia. }
  exists (Car.init x n speed direction :: new). split_and!.
  - by rewrite <- app_assoc.
  - by econstructor.
  - constructor; [|done]. by split_and!.
Qed.

Lemma chain_length_le k x cars :
  chain x cars →
  (inject_Z (WIDTH + 3 * TILE) - x <= inject_Z (Z.of_nat k) * PLACEMENT_STEP)%Q →
  (length cars ≤ k)%nat.
Proof.
  intros Hchain. revert k.
  induction Hchain as [x Hx|x c gap cars Hx Hcx Hw Hgap _ IH]; intros k Hk.
  - cbn. lia.
  - destruct k as [|k].
    { exfalso. change (inject_Z (Z.of_nat 0)) with 0%Q in Hk. lra. }
    cbn. apply le_n_S, IH.
    assert (inject_Z (Z.of_nat (S k)) == inject_Z (Z.of_nat k) + 1)%Q as Hs.
    { rewrite Nat2Z.inj_succ. unfold Z.succ. rewrite inject_Z_plus. reflexivity. }
    rewrite Hs in Hk.
    assert (48 <= inject_Z (Car.w c))%Q as Hw'.
    { destruct Hw as [-> | ->]; done. }
    unfold PLACEMENT_STEP, CAR_GAP_MIN_TILES in *.
    change (inject_Z TILE) with 48%Q. lra.
Qed.

Lemma chain_length_ge x cars :
  chain x cars → (x <= inject_Z (2 * TILE))%Q → (2 ≤ length cars)%nat.
Proof.
  change (inject_Z (2 * TILE)) with 96%Q.
  intros Hchain Hx.
  destruct Hchain as [x Hstop|x c gap cars _ _ Hw Hgap Hchain].
  { change (inject_Z (WIDTH + 3 * TILE)) with 576%Q in Hstop. lra. }
  inversion Hchain as [x' Hstop|x' c' gap' cars' _ _ _ _ _]; subst; [|cbn; lia].
  exfalso.
  assert (inject_Z (Car.w c) <= 96)%Q as Hw'.
  { destruct Hw as [-> | ->]; done. }
  change (inject_Z (WIDTH + 3 * TILE)) with 576%Q in Hstop.
  change (inject_Z TILE) with 48%Q in Hstop.
  unfold CAR_GAP_MAX_TILES in Hgap. lra.
Qed.

Lemma chain_head x cars :
  chain x cars → ∀ c, head cars = Some c → Car.x c = x.
Proof. intros [|] c' [= <-]. done. Qed.

(** From the right edge of a car to the next car: the gap drawn for it. *)
Lemma chain_spacing x cars i c c' :
  chain x cars → cars !! i = Some c → cars !! S i = Some c' →
  (CAR_GAP_MIN_TILES * inject_Z TILE
   <= Car.x c' - (Car.x c + inject_Z (Car.w c))
   <= CAR_GAP_MAX_TILES * inject_Z TILE)%Q.
Proof.
  intros Hchain. revert i.
  induction Hchain as [x Hx|x c0 gap cars Hx Hcx Hw Hgap Hchain IH]; intros i Hc Hc'.
  { done. }
  destruct i as [|i]; [|by eapply IH].
  cbn in Hc, Hc'. injection Hc as ->.
  destruct cars as [|c1 cars]; [done|]. injection Hc' as ->.
  rewrite (chain_head _ _ Hchain c') by done. rewrite Hcx.
  change (inject_Z TILE) with 48%Q. lra.
Qed.

Lemma chain_last x cars c :
  chain x cars → last cars = Some c →
  (inject_Z WIDTH <= Car.x c + inject_Z (Car.w c))%Q
  ∧ (Car.x c < inject_Z (WIDTH + 3 * TILE))%Q.
Proof.
  induction 1 as [x Hx|x c0 gap cars Hx Hcx Hw Hgap Hchain IH]; [done|].
  destruct cars as [|c1 cars].
  - intros [= <-]. inversion Hchain as [x' Hstop|]; subst.
    split; [|done].
    change (inject_Z (WIDTH + 3 * TILE)) with 576%Q in Hstop.
    change (inject_Z TILE) with 48%Q in Hstop.
    change (inject_Z WIDTH) with 432%Q.
    unfold CAR_GAP_MAX_TILES in Hgap. lra.
  - intros Hlast. by apply IH.
Qed.

(** The speed of a road lane at [row]: the base speed of the difficulty of
    the row, times the jitter. *)
Definition speed_ok (row : Z) (speed : Q) : Prop :=
  (SPEED_JITTER_LO * CAR_SPEED_MIN <= speed <= SPEED_JITTER_HI * CAR_SPEED_MAX)%Q
  ∧ (row ≤ 0 → (speed <= SPEED_JITTER_HI * CAR_SPEED_MIN)%Q)
  ∧ (60 ≤ row → (SPEED_JITTER_LO * CAR_SPEED_MAX <= speed)%Q).

(** A road lane, when [Lane.__init__] returns it. *)
Lemma init_road_inv row cols seed forced l :
  Lane.init row cols "road" seed forced = Ok l →
  ∃ x speed direction,
    (inject_Z (-2 * TILE) <= x <= inject_Z (2 * TILE))%Q
    ∧ chain x (Lane.cars l)
    ∧ speed_ok row speed ∧ (direction = 1 ∨ direction = -1)
    ∧ Forall (car_ok speed direction) (Lane.cars l).
Proof.
  unfold Lane.init. intros Hl.
  apply result_bind_Ok in Hl as ([l0 g'] & Hgen & [= ->]).
  unfold Lane.generate in Hgen.
  change (String.eqb "road" "grass") with false in Hgen.
  change (String.eqb "road" "road") with true in Hgen. cbv iota in Hgen.
  apply Rand_bind_Ok in Hgen as (d & g1 & Hd & Hgen).
  apply Rand_bind_Ok in Hgen as (j & g2 & Hj & Hgen).
  apply Rand_bind_Ok in Hgen as (x & g3 & Hx & Hgen).
  apply Rand_bind_Ok in Hgen as (cars & g4 & Hcars & Hgen).
  apply Rand_ret_Ok in Hgen as [<- _]. cbn.
  apply choice_Ok in Hd. apply uniform_Ok in Hj; [|done]. apply uniform_Ok in Hx; [|done].
  apply place_cars_chain in Hcars as (new & -> & Hchain & Hok).
  cbn [app] in *.
  set (difficulty := clampQ (inject_Z row / 60) 0 1) in *.
  exists x, (lerp CAR_SPEED_MIN CAR_SPEED_MAX difficulty * j)%Q, d.
  refine (conj Hx (conj Hchain (conj _ (conj _ Hok)))).
  2:{ rewrite !elem_of_cons, elem_of_nil in Hd. destruct Hd as [->|[->|[]]]; auto. }
  assert (0 <= difficulty <= 1)%Q as Hdiff.
  { unfold difficulty, clampQ.
    destruct (Qltb _ 0) eqn:H0; [lra|]. apply Qltb_ge in H0.
    destruct (Qltb 1 _) eqn:H1; [lra|]. apply Qltb_ge in H1. lra. }
  assert (row ≤ 0 → difficulty == 0)%Q as Hlow.
  { intros Hrow.
    assert (inject_Z row <= 0)%Q as Hq
      by (change 0%Q with (inject_Z 0); by rewrite <- Zle_Qle).
    assert (inject_Z row / 60 <= 0)%Q as Hneg.
    { unfold Qdiv. change (/ 60)%Q with (1 # 60)%Q. lra. }
    unfold difficulty, clampQ. destruct (Qltb _ 0) eqn:H0; [reflexivity|].
    apply Qltb_ge in H0.
    destruct (Qltb 1 _) eqn:H1; [apply Qltb_lt in H1; lra|]. lra. }
  assert (60 ≤ row → difficulty == 1)%Q as Hhigh.
  { intros Hrow.
    assert (60 <= inject_Z row)%Q as Hq
      by (change 60%Q with (inject_Z 60); by rewrite <- Zle_Qle).
    assert (1 <= inject_Z row / 60)%Q as Hbig.
    { unfold Qdiv. change (/ 60)%Q with (1 # 60)%Q. lra. }
    unfold difficulty, clampQ.
    destruct (Qltb _ 0) eqn:H0; [apply Qltb_lt in H0; lra|].
    destruct (Qltb 1 _) eqn:H1; [reflexivity|]. apply Qltb_ge in H1. lra. }
  unfold speed_ok, lerp, CAR_SPEED_MIN, CAR_SPEED_MAX,
    SPEED_JITTER_LO, SPEED_JITTER_HI in *.
  refine (conj (conj _ _) (conj _ _)); [nra|nra| |].
  - intros Hrow. rewrite (Hlow Hrow). lra.
  - intros Hrow. rewrite (Hhigh Hrow). lra.
Qed.

(** X3. The cars of a road lane.  [Lane.__init__] returns a road lane,
    whatever the row, the seed and the number of columns, with two to seven
    cars, laid out from left to right: the first one starts within two tiles
    of the left edge of the field, from the right edge of a car to the
    start of the next one there are [CAR_GAP_MIN_TILES] to
    [CAR_GAP_MAX_TILES] tiles (so no two cars overlap), and the last one
    starts before [WIDTH + 3 * TILE] and ends at or beyond [WIDTH]. *)
Theorem road_lane_layout row cols seed forced :
  ∃ l, Lane.init row cols "road" seed forced = Ok l
       ∧ (2 ≤ length (Lane.cars l) ≤ 7)%nat
       ∧ (∃ c, head (Lane.cars l) = Some c
               ∧ (inject_Z (-2 * TILE) <= Car.x c <= inject_Z (2 * TILE))%Q)
       ∧ (∀ i c c', Lane.cars l !! i = Some c → Lane.cars l !! S i = Some c' →
            (CAR_GAP_MIN_TILES * inject_Z TILE
             <= Car.x c' - (Car.x c + inject_Z (Car.w c))
             <= CAR_GAP_MAX_TILES * inject_Z TILE)%Q)
       ∧ (∃ c, last (Lane.cars l) = Some c
               ∧ (inject_Z WIDTH <= Car.x c + inject_Z (Car.w c))%Q
               ∧ (Car.x c < inject_Z (WIDTH + 3 * TILE))%Q).
Proof.
  destruct (init_road_spec row cols seed forced) as (l & Hl & _).
  exists l. split; [done|].
  destruct (init_road_inv _ _ _ _ _ Hl) as (x & speed & d & Hx & Hchain & _).
  pose proof (chain_length_ge _ _ Hchain (proj2 Hx)) as Hge.
  assert (length (Lane.cars l) ≤ 7)%nat as Hle.
  { apply (chain_length_le 7 x); [done|].
    change (inject_Z (-2 * TILE)) with (-96)%Q in Hx.
    change (inject_Z (WIDTH + 3 * TILE)) with 576%Q.
    change (inject_Z (Z.of_nat 7)) with 7%Q.
    unfold PLACEMENT_STEP, CAR_GAP_MIN_TILES. lra. }
  split_and!; [done..| | |].
  - destruct (Lane.cars l) as [|c cars] eqn:Hcars; [cbn in Hge; lia|].
    exists c. split; [done|]. by rewrite (chain_head _ _ Hchain c).
  - intros i c c'. by apply (chain_spacing x).
  - destruct (last (Lane.cars l)) as [c|] eqn:Hlast.
    + exists c. split; [done|]. by eapply chain_last.
    + apply last_None in Hlast. rewrite Hlast in Hge. cbn in Hge. lia.
Qed.

(** X4. The speed of a road lane.  All the cars of a road lane have one
    direction, 1 or -1, one speed, and a width of one or two tiles.  The
    speed lies between [0.85 * CAR_SPEED_MIN] and [1.15 * CAR_SPEED_MAX];
    it is at most [1.15 * CAR_SPEED_MIN] for a row at or below 0, and at
    least [0.85 * CAR_SPEED_MAX] from row 60 on. *)
Theorem road_lane_speed row cols seed forced :
  ∃ l, Lane.init row cols "road" seed forced = Ok l
       ∧ ∃ speed direction,
           speed_ok row speed ∧ (direction = 1 ∨ direction = -1)
           ∧ ∀ c, c ∈ Lane.cars l →
                  Car.speed c = speed ∧ Car.dir c = direction
                  ∧ (Car.w c = TILE ∨ Car.w c = 2 * TILE).
Proof.
  destruct (init_road_spec row cols seed forced) as (l & Hl & _).
  exists l. split; [done|].
  destruct (init_road_inv _ _ _ _ _ Hl) as (x & speed & d & _ & _ & Hspeed & Hd & Hok).
  exists speed, d. split_and!; [done..|].
  intros c Hc. rewrite Forall_forall in Hok. by apply Hok.
Qed.

End RoadLanes.

(** ** The window: what [ensure_range] adds, and what it leaves *)

Section WindowSteps.
Context `{PyRandom}.

Lemma range_nil lo hi : hi ≤ lo → range lo hi = [].
Proof. intros Hle. unfold range. apply seqZ_nil. lia. Qed.

(** The four steps of [ensure_range]. *)
Lemma ensure_range_steps row_min row_max s s' :
  World.ensure_range row_min row_max s = Ok s' →
  ∃ s0 s1 s2,
    World.maybe_reset row_min s = Ok s0
    ∧ World.for_each World.generate_row
        (range (Z.max (World.generated_max s0 + 1) row_min) (row_max + 1)) s0 = Ok s1
    ∧ World.for_each World.backfill_row
        (range row_min (Z.min row_max (World.generated_max s1) + 1)) s1 = Ok s2
    ∧ s' = World.evict (row_min - 2) (row_max + 2) s2.
Proof.
  unfold World.ensure_range. intros Hs.
  apply result_bind_Ok in Hs as (s0 & H0 & Hs).
  apply result_bind_Ok in Hs as (s1 & H1 & Hs).
  apply result_bind_Ok in Hs as (s2 & H2 & [= <-]).
  by exists s0, s1, s2.
Qed.

Lemma maybe_reset_lanes row_min s s0 :
  World.maybe_reset row_min s = Ok s0 →
  World.lanes s0 = World.lanes s ∧ World.cols s0 = World.cols s.
Proof.
  intros Hs. destruct (maybe_reset_spec row_min s) as (t & Ht & (Hc & _) & Hl & _).
  assert (t = s0) as -> by congruence. done.
Qed.

(** A pass of the first loop writes no row but its own. *)
Lemma generate_row_lanes r s s' :
  World.generate_row r s = Ok s' →
  World.cols s' = World.cols s
  ∧ ∀ r', r' ≠ r → World.lanes s' !! r' = World.lanes s !! r'.
Proof.
  unfold World.generate_row. intros Hs.
  apply result_bind_Ok in Hs as (s1 & Hs1 & [= <-]). cbn.
  destruct (World.lanes s !! r) as [l|] eqn:Hr.
  - by injection Hs1 as <-.
  - apply result_bind_Ok in Hs1 as ([l s2] & Hmk & [= <-]).
    apply make_lane_inv in Hmk as ((Hc & Hl & Hg) & _). cbn. rewrite Hl.
    split; [done|]. intros r' Hr'. by rewrite lookup_insert_ne.
Qed.

Lemma generate_loop_lanes rs s s' :
  World.for_each World.generate_row rs s = Ok s' →
  World.cols s' = World.cols s
  ∧ ∀ r', r' ∉ rs → World.lanes s' !! r' = World.lanes s !! r'.
Proof.
  revert s. induction rs as [|r rs IH]; intros s Hs.
  - by injection Hs as <-.
  - cbn [World.for_each] in Hs. apply result_bind_Ok in Hs as (s1 & Hs1 & Hs).
    apply generate_row_lanes in Hs1 as [Hc1 Hl1].
    apply IH in Hs as [Hc Hl]. split; [congruence|].
    intros r' Hr'. apply not_elem_of_cons in Hr' as [? ?].
    rewrite Hl by done. by apply Hl1.
Qed.

Lemma generate_loop_max rs s s' :
  World.for_each World.generate_row rs s = Ok s' →
  World.generated_max s ≤ World.generated_max s'
  ∧ ∀ r, r ∈ rs → r ≤ World.generated_max s'.
Proof.
  revert s. induction rs as [|r rs IH]; intros s Hs.
  - injection Hs as <-. split; [lia|]. by intros r ?%elem_of_nil.
  - cbn [World.for_each] in Hs. apply result_bind_Ok in Hs as (s1 & Hs1 & Hs).
    apply generate_row_inv in Hs1 as (_ & _ & Hgm & _).
    apply IH in Hs as [Hle Hall]. split; [lia|].
    intros r' [->|?]%elem_of_cons; [lia|auto].
Qed.

(** What the generator is made of, the lanes apart. *)
Definition same_generator (s s' : World.state) : Prop :=
  World.cols s' = World.cols s
  ∧ World.generated_max s' = World.generated_max s
  ∧ World.next_road_start s' = World.next_road_start s
  ∧ World.road_remaining s' = World.road_remaining s
  ∧ World.rng s' = World.rng s
  ∧ World.path_col s' = World.path_col s.

(** The second loop: it touches nothing but the lanes, and a lane it adds
    is the grass lane of the row with the path column as its hint. *)
Lemma backfill_loop rs s s' :
  World.for_each World.backfill_row rs s = Ok s' →
  same_generator s s'
  ∧ (∀ r l, World.lanes s !! r = Some l → World.lanes s' !! r = Some l)
  ∧ ∀ r l, World.lanes s' !! r = Some l →
      World.lanes s !! r = Some l
      ∨ (r ∈ rs
         ∧ Lane.init r (World.cols s) "grass" (World.grass_seed r)
             (Some (World.path_col s)) = Ok l).
Proof.
  revert s. induction rs as [|r rs IH]; intros s Hs.
  - injection Hs as <-. unfold same_generator. split_and!; auto.
  - cbn [World.for_each] in Hs. apply result_bind_Ok in Hs as (s1 & Hs1 & Hs).
    apply IH in Hs as ((Hc & Hg & Hn & Hr & Hrng & Hp) & Hframe & Hnew).
    unfold World.backfill_row in Hs1.
    destruct (World.lanes s !! r) as [l0|] eqn:Hl0.
    + injection Hs1 as <-. split_and!; [done|done|].
      intros r' l Hl. destruct (Hnew r' l Hl) as [?|[? ?]]; [by left|].
      right. split; [by right|done].
    + apply result_bind_Ok in Hs1 as (l0 & Hinit & [= <-]). cbn in *.
      split_and!; [done| |].
      * intros r' l Hl. apply Hframe. rewrite lookup_insert_ne; [done|congruence].
      * intros r' l Hl. destruct (Hnew r' l Hl) as [Hl1|[? ?]].
        -- rewrite lookup_insert in Hl1. case_decide as Heq; [|by left].
           injection Hl1 as <-. subst r'. right. split; [by left|done].
        -- right. split; [by right|done].
Qed.

(** The second loop has nothing to do on rows that are there. *)
Lemma backfill_present rs s :
  (∀ r, r ∈ rs → is_Some (World.lanes s !! r)) →
  World.for_each World.backfill_row rs s = Ok s.
Proof.
  induction rs as [|r rs IH]; intros Hall; [done|].
  assert (World.backfill_row r s = Ok s) as Hstep.
  { unfold World.backfill_row. by destruct (Hall r) as [l ->]; [left|]. }
  cbn [World.for_each]. rewrite Hstep. cbn.
  apply IH. intros r' ?. apply Hall. by right.
Qed.

(** Eviction has nothing to do on a window that holds every lane. *)
Lemma evict_id keep_min keep_max (s : World.state) :
  (∀ r, is_Some (World.lanes s !! r) → keep_min ≤ r ≤ keep_max) →
  World.evict keep_min keep_max s = s.
Proof.
  intros Hkeys.
  destruct (evict_fields keep_min keep_max s) as (? & ? & ? & ? & ? & ?).
  apply world_eq; try done.
  apply map_eq. intros r. rewrite lookup_evict. case_decide as Hr; [done|].
  destruct (World.lanes s !! r) as [l|] eqn:Hl; [|done].
  exfalso. apply Hr, Hkeys. by exists l.
Qed.

(** After [ensure_range(low, high)] with [low <= high], the window has been
    generated up to [high]. *)
Lemma ensure_range_gm row_min row_max s s' :
  World.ensure_range row_min row_max s = Ok s' → row_min ≤ row_max →
  row_max ≤ World.generated_max s'.
Proof.
  intros Hs Hle.
  apply ensure_range_steps in Hs as (s0 & s1 & s2 & _ & H1 & H2 & ->).
  destruct (evict_fields (row_min - 2) (row_max + 2) s2) as (_ & -> & _).
  apply backfill_loop in H2 as ((_ & -> & _) & _).
  apply generate_loop_max in H1 as [Hmono Hall].
  destruct (decide (Z.max (World.generated_max s0 + 1) row_min ≤ row_max)).
  - apply Hall, elem_of_range. lia.
  - lia.
Qed.

(** X5. Calling again.  A second [ensure_range(low, high)] right after a
    first one, with [low <= high], leaves the World as it is: nothing is
    generated, nothing is drawn from the generator, nothing is evicted. *)
Theorem ensure_range_idempotent row_min row_max s s' :
  row_min ≤ row_max →
  World.ensure_range row_min row_max s = Ok s' →
  World.ensure_range row_min row_max s' = Ok s'.
Proof.
  intros Hle Hs.
  pose proof (ensure_range_gm _ _ _ _ Hs Hle) as Hgm.
  apply ensure_range_inv in Hs as (s2 & Hs' & _ & _ & Hall).
  assert (∀ r, row_min ≤ r ≤ row_max → is_Some (World.lanes s' !! r)) as Hin.
  { intros r Hr. rewrite Hs', lookup_evict, decide_True by lia. by apply Hall. }
  assert (∀ r, is_Some (World.lanes s' !! r) → row_min - 2 ≤ r ≤ row_max + 2) as Hkeys.
  { intros r [l Hl]. rewrite Hs', lookup_evict in Hl. by case_decide. }
  clear Hs' Hall.
  unfold World.ensure_range, World.maybe_reset.
  destruct (Z.ltb_spec (World.generated_max s') (row_min - 50)); [lia|]. cbn.
  rewrite (range_nil (Z.max (World.generated_max s' + 1) row_min)) by lia. cbn.
  rewrite Z.min_l by done.
  rewrite backfill_present.
  2:{ intros r Hr%elem_of_range. apply Hin. lia. }
  cbn. by rewrite evict_id.
Qed.

(** X6. Only the window is filled.  A row that has no lane before
    [ensure_range(low, high)] and has one after it lies in [low .. high]:
    the margin of two rows on either side is kept, never generated. *)
Theorem ensure_range_adds_inside row_min row_max s s' r :
  World.ensure_range row_min row_max s = Ok s' →
  World.get_lane r s = None →
  is_Some (World.get_lane r s') →
  row_min ≤ r ≤ row_max.
Proof.
  unfold World.get_lane. intros Hs Hnone [l Hl].
  apply ensure_range_steps in Hs as (s0 & s1 & s2 & H0 & H1 & H2 & ->).
  rewrite lookup_evict in Hl. case_decide; [|done].
  apply maybe_reset_lanes in H0 as [Hl0 _].
  apply generate_loop_lanes in H1 as [_ Hl1].
  apply backfill_loop in H2 as (_ & _ & Hnew).
  destruct (Hnew r l Hl) as [Hl'|[Hr%elem_of_range _]]; [|lia].
  destruct (decide (r ∈ range (Z.max (World.generated_max s0 + 1) row_min)
                         (row_max + 1))) as [Hr%elem_of_range|Hr]; [lia|].
  rewrite (Hl1 r Hr), Hl0 in Hl'. congruence.
Qed.

(** X7. Going back.  When the World has been generated up to [high] or
    beyond and [low] is not more than 50 rows ahead of that, then
    [ensure_range(low, high)] draws nothing from the World's generator and
    leaves the scheduler, the path column and [generated_max] as they are,
    and every lane it adds is a grass lane: the one [Lane.__init__] builds
    for the row with the current path column as its hint, whatever the row
    was when it was first generated. *)
Theorem ensure_range_behind row_min row_max s s' :
  row_min - 50 ≤ World.generated_max s →
  row_max ≤ World.generated_max s →
  World.ensure_range row_min row_max s = Ok s' →
  same_generator s s'
  ∧ ∀ r l, World.get_lane r s = None → World.get_lane r s' = Some l →
           Lane.kind l = "grass"
           ∧ Lane.init r (World.cols s) "grass" (World.grass_seed r)
               (Some (World.path_col s)) = Ok l.
Proof.
  intros Hlo Hhi Hs.
  apply ensure_range_steps in Hs as (s0 & s1 & s2 & H0 & H1 & H2 & ->).
  unfold World.maybe_reset in H0.
  destruct (Z.ltb_spec (World.generated_max s) (row_min - 50)); [lia|].
  injection H0 as <-.
  rewrite range_nil in H1 by lia. injection H1 as <-.
  apply backfill_loop in H2 as (Hsame & _ & Hnew).
  split; [done|].
  unfold World.get_lane. intros r l Hnone Hl.
  rewrite lookup_evict in Hl. case_decide; [|done].
  destruct (Hnew r l Hl) as [?|[_ Hinit]]; [congruence|].
  split; [|done]. by apply init_kind in Hinit as (_ & ? & _).
Qed.

(** X8. The high-water mark.  On a World in a reachable state,
    [ensure_range(low, high)] never lowers [generated_max], leaves it at
    [high] or beyond when [low <= high], and leaves no lane beyond it. *)
Theorem generated_max_bounds row_min row_max s s' :
  reachable s →
  World.ensure_range row_min row_max s = Ok s' →
  World.generated_max s ≤ World.generated_max s'
  ∧ (row_min ≤ row_max → row_max ≤ World.generated_max s')
  ∧ ∀ r, is_Some (World.get_lane r s') → r ≤ World.generated_max s'.
Proof.
  intros Hreach Hs.
  assert (reachable s') as Hreach' by (by eapply reachable_ensure_range).
  destruct (reachable_invariant s' Hreach') as (_ & _ & Hkeys & _).
  refine (conj _ (conj _ Hkeys)).
  - apply ensure_range_inv in Hs as (s2 & -> & (_ & Hgm & _) & _).
    by destruct (evict_fields (row_min - 2) (row_max + 2) s2) as (_ & -> & _).
  - by apply (ensure_range_gm row_min row_max s).
Qed.

End WindowSteps.

(** ** What holds in every state of a World *)

Section WorldInvariants.
Context `{PyRandom}.

(** A lane of a World of [cols] columns at row [r]: its kind and its bitmap
    are those of a lane [Lane.__init__] builds for the row. *)
Definition lane_of (cols r : Z) (l : Lane.t) : Prop :=
  ∃ kind seed forced l0,
    (kind = "grass" ∨ kind = "road")
    ∧ Lane.init r cols kind seed forced = Ok l0
    ∧ Lane.kind l = kind ∧ Lane.blocked l = Lane.blocked l0.

Definition lanes_ok (s : World.state) : Prop :=
  ∀ r l, World.lanes s !! r = Some l → lane_of (World.cols s) r l.

Lemma generate_row_lanes_ok r s s' :
  lanes_ok s → World.generate_row r s = Ok s' → lanes_ok s'.
Proof.
  unfold World.generate_row. intros Hok Hs.
  apply result_bind_Ok in Hs as (s1 & Hs1 & [= <-]).
  destruct (World.lanes s !! r) as [l|] eqn:Hr.
  - by injection Hs1 as <-.
  - apply result_bind_Ok in Hs1 as ([l s2] & Hmk & [= <-]).
    apply make_lane_inv in Hmk as ((Hc & Hl & Hg) & _ & _ & _ & Hinit).
    intros r' l'. cbn. rewrite Hl, Hc, lookup_insert. case_decide; [|apply Hok].
    intros [= <-]. subst r'.
    destruct Hinit as [[Hk Hi]|(Hk & _ & Hi)].
    + exists "grass", (World.grass_seed r), (Some (World.path_col s2)), l. auto.
    + exists "road", (World.road_seed r), None, l. auto.
Qed.

Lemma generate_loop_lanes_ok rs s s' :
  lanes_ok s → World.for_each World.generate_row rs s = Ok s' → lanes_ok s'.
Proof.
  revert s. induction rs as [|r rs IH]; intros s Hok Hs.
  - by injection Hs as <-.
  - cbn [World.for_each] in Hs. apply result_bind_Ok in Hs as (s1 & Hs1 & Hs).
    eapply IH; [|done]. by eapply generate_row_lanes_ok.
Qed.

Lemma reachable_lanes_ok s : reachable s → lanes_ok s.
Proof.
  induction 1 as [cols s Hcols Hinit
                 |s row_min row_max s' _ IH Hs
                 |s dt camera_y _ IH].
  - unfold World.init in Hinit.
    match type of Hinit with
    | World._schedule_next_road_start ?r ?s1 = _ =>
        destruct (schedule_next_spec r s1) as (j & g & _ & _ & Heq)
    end.
    rewrite Heq in Hinit. injection Hinit as <-.
    intros r l Hl. cbn in Hl. by rewrite lookup_empty in Hl.
  - apply ensure_range_steps in Hs as (s0 & s1 & s2 & H0 & H1 & H2 & ->).
    apply maybe_reset_lanes in H0 as [Hl0 Hc0].
    assert (lanes_ok s0) as Hok0.
    { intros r l. rewrite Hl0, Hc0. apply IH. }
    pose proof (generate_loop_lanes_ok _ _ _ Hok0 H1) as Hok1.
    apply backfill_loop in H2 as ((Hc2 & _) & _ & Hnew).
    intros r l Hl. rewrite lookup_evict in Hl. case_decide; [|done].
    destruct (evict_fields (row_min - 2) (row_max + 2) s2) as (-> & _).
    rewrite Hc2. destruct (Hnew r l Hl) as [Hl1|[_ Hinit]]; [by apply Hok1|].
    exists "grass", (World.grass_seed r), (Some (World.path_col s1)), l.
    split_and!; auto. by apply init_kind in Hinit as (_ & ? & _).
  - intros r l Hl. cbn in Hl. rewrite lookup_fmap in Hl.
    destruct (World.lanes s !! r) as [l0|] eqn:Hl0; [|done].
    injection Hl as <-. destruct (IH r l0 Hl0) as (k & sd & f & l1 & Hk & Hi & Hkl & Hbl).
    exists k, sd, f, l1. cbn.
    destruct (World.off_screen camera_y l0); [done|].
    destruct (lane_update_kind dt l0) as (_ & -> & ->). done.
Qed.

(** X9. Every row can be stood on.  In every state a World goes through,
    a lane is a road lane, where [is_blocked] is false for every column, or
    a grass lane with one bitmap cell per column of the World, where
    [is_blocked] is false for at least one column of the field. *)
Theorem world_row_open_cell s r l :
  reachable s → World.get_lane r s = Some l →
  (Lane.kind l = "road" ∧ ∀ c, Lane.is_blocked l c = Ok false)
  ∨ (Lane.kind l = "grass"
     ∧ length (Lane.blocked l) = Z.to_nat (World.cols s)
     ∧ ∃ c, 0 ≤ c < World.cols s ∧ Lane.is_blocked l c = Ok false).
Proof.
  intros Hreach Hl.
  destruct (reachable_lanes_ok s Hreach r l Hl)
    as (kind & seed & forced & l0 & [-> | ->] & Hinit & Hkind & Hblocked).
  - right.
    pose proof (init_blocked_length _ _ _ _ _ _ Hinit) as Hlen.
    destruct (init_grass_open _ _ _ _ _ Hinit) as (c & Hc & Hopen).
    rewrite <- Hblocked in Hlen, Hopen.
    split_and!; [done..|]. exists c. split; [done|].
    apply is_blocked_grass; [done|lia|done].
  - left. split; [done|]. intros c. unfold Lane.is_blocked. by rewrite Hkind.
Qed.

(** The path column moves by one column at most. *)
Lemma maybe_wiggle_step s s' :
  path_ok s → World._maybe_wiggle_path s = Ok s' →
  -1 ≤ World.path_col s' - World.path_col s ≤ 1.
Proof.
  intros [Hp1 Hp2]. unfold World._maybe_wiggle_path.
  rewrite (with_rng_Ok (draw random) s (random (World.rng s)).1 (random (World.rng s)).2)
    by (unfold draw; by destruct (random (World.rng s))).
  cbn. destruct (Qltb _ PATH_WIGGLE_CHANCE).
  - destruct (choice_spec [-1; 0; 1] (random (World.rng s)).2) as (step & g & Hstep & Hin);
      [done|].
    rewrite (with_rng_Ok _ _ step g) by done. cbn. intros [= <-]. cbn.
    rewrite !elem_of_cons, elem_of_nil in Hin. unfold clamp.
    destruct (Z.ltb_spec (World.path_col s + step) 0); [lia|].
    destruct (Z.ltb_spec (World.cols s - 1) (World.path_col s + step)); lia.
  - intros [= <-]. cbn. lia.
Qed.

(** Below the safe start, [_make_lane] leaves the World as it is. *)
Lemma make_lane_below_safe row s l s' :
  row < SAFE_START_ROWS → World._make_lane row s = Ok (l, s') → s' = s.
Proof.
  intros Hrow. unfold World._make_lane.
  destruct (Z.ltb_spec row SAFE_START_ROWS); [|lia].
  intros Hl. by apply result_bind_Ok in Hl as (l0 & _ & [= _ <-]).
Qed.

(** X10. The path bends gently.  [_make_lane], in a state whose path column
    is a column of the field, leaves it one: it moves the path column by
    one column at most, and leaves it where it is when the row is below the
    safe start or the lane is a road lane. *)
Theorem make_lane_path_step row s l s' :
  path_ok s →
  World._make_lane row s = Ok (l, s') →
  path_ok s'
  ∧ -1 ≤ World.path_col s' - World.path_col s ≤ 1
  ∧ (row < SAFE_START_ROWS ∨ Lane.kind l = "road" →
     World.path_col s' = World.path_col s).
Proof.
  intros Hpath Hmk.
  pose proof (make_lane_inv _ _ _ _ Hmk) as (_ & _ & _ & Hp' & _).
  split; [auto|].
  unfold World._make_lane in Hmk.
  destruct (Z.ltb_spec row SAFE_START_ROWS) as [Hrow|Hrow].
  { apply result_bind_Ok in Hmk as (l0 & _ & [= -> ->]). split; [lia|done]. }
  destruct (schedule_kind_spec row s) as (kind & s1 & Hk & (Hc & _) & Hp & Hkind).
  rewrite Hk in Hmk. cbn in Hmk. destruct Hkind as [-> | ->].
  - change (String.eqb "grass" "grass") with true in Hmk. cbv iota in Hmk.
    apply result_bind_Ok in Hmk as (s2 & Hw & Hmk).
    apply result_bind_Ok in Hmk as (l0 & Hinit & [= -> ->]).
    apply maybe_wiggle_step in Hw; [|unfold path_ok in *; by rewrite Hp, Hc].
    apply init_kind in Hinit as (_ & Hkl & _).
    split; [lia|]. intros [?|?]; [lia|congruence].
  - change (String.eqb "road" "grass") with false in Hmk. cbv iota in Hmk.
    apply result_bind_Ok in Hmk as (l0 & _ & [= -> ->]). split; [lia|done].
Qed.

(** The scheduler, as it is in every state: a run in progress has at most
    two rows left, and no run is scheduled below the safe start. *)
Definition sched_ok (s : World.state) : Prop :=
  0 ≤ World.road_remaining s ≤ ROAD_SEGMENT_MAX - 1
  ∧ SAFE_START_ROWS ≤ World.next_road_start s.

Lemma schedule_next_sched_ok current_row s s' :
  0 ≤ World.road_remaining s ≤ ROAD_SEGMENT_MAX - 1 →
  World._schedule_next_road_start current_row s = Ok s' → sched_ok s'.
Proof.
  intros Hrr Hs.
  destruct (schedule_next_spec current_row s) as (j & g & _ & _ & Heq).
  rewrite Heq in Hs. injection Hs as <-. unfold sched_ok. cbn. lia.
Qed.

Lemma make_lane_sched_ok row s l s' :
  sched_ok s → World._make_lane row s = Ok (l, s') → sched_ok s'.
Proof.
  intros Hok. unfold World._make_lane.
  destruct (Z.ltb_spec row SAFE_START_ROWS) as [Hrow|Hrow].
  { intros Hl. by apply result_bind_Ok in Hl as (l0 & _ & [= _ <-]). }
  intros Hmk. apply result_bind_Ok in Hmk as ([kind s1] & Hk & Hmk).
  assert (sched_ok s1) as Hok1.
  { unfold World.schedule_kind in Hk. destruct Hok as [Hrr Hnrs].
    destruct (Z.ltb_spec 0 (World.road_remaining s)).
    { injection Hk as _ <-. unfold sched_ok. cbn. lia. }
    destruct (World.next_road_start s <=? row).
    2:{ by injection Hk as _ <-. }
    apply result_bind_Ok in Hk as ([n s2] & Hn & Hk).
    unfold World.with_rng in Hn.
    apply result_bind_Ok in Hn as ([n' g] & Hn & [= -> <-]).
    apply randint_Ok in Hn. cbn in Hk.
    apply result_bind_Ok in Hk as (s3 & Hnext & [= _ <-]).
    eapply schedule_next_sched_ok; [|done]. cbn.
    unfold ROAD_SEGMENT_MIN, ROAD_SEGMENT_MAX in *. lia. }
  destruct (String.eqb kind "grass").
  - apply result_bind_Ok in Hmk as (s2 & Hw & Hmk).
    apply result_bind_Ok in Hmk as (l0 & _ & [= _ <-]).
    destruct (maybe_wiggle_spec s1) as (s2' & Hw' & _ & Hn & Hr & _).
    assert (s2' = s2) as -> by congruence.
    unfold sched_ok in *. by rewrite Hn, Hr.
  - by apply result_bind_Ok in Hmk as (l0 & _ & [= _ <-]).
Qed.

Lemma generate_loop_sched_ok rs s s' :
  sched_ok s → World.for_each World.generate_row rs s = Ok s' → sched_ok s'.
Proof.
  revert s. induction rs as [|r rs IH]; intros s Hok Hs.
  - by injection Hs as <-.
  - cbn [World.for_each] in Hs. apply result_bind_Ok in Hs as (s1 & Hs1 & Hs).
    eapply IH; [|done]. unfold World.generate_row in Hs1.
    apply result_bind_Ok in Hs1 as (s2 & Hs2 & [= <-]).
    destruct (World.lanes s !! r).
    + by injection Hs2 as <-.
    + apply result_bind_Ok in Hs2 as ([l s3] & Hmk & [= <-]).
      by apply make_lane_sched_ok in Hmk.
Qed.

(** X11. The scheduler's bounds.  In every state a World goes through, a
    hazard run in progress has between 0 and [ROAD_SEGMENT_MAX - 1] rows
    left, and the next run is scheduled at or above the safe start. *)
Theorem scheduler_bounds s :
  reachable s →
  0 ≤ World.road_remaining s ≤ ROAD_SEGMENT_MAX - 1
  ∧ SAFE_START_ROWS ≤ World.next_road_start s.
Proof.
  induction 1 as [cols s Hcols Hinit
                 |s row_min row_max s' _ IH Hs
                 |s dt camera_y _ IH].
  - unfold World.init in Hinit.
    by apply schedule_next_sched_ok in Hinit.
  - apply ensure_range_steps in Hs as (s0 & s1 & s2 & H0 & H1 & H2 & ->).
    assert (sched_ok s0) as Hok0.
    { unfold World.maybe_reset in H0.
      destruct (World.generated_max s <? row_min - 50).
      - unfold World.reset in H0. by apply schedule_next_sched_ok in H0.
      - by injection H0 as <-. }
    pose proof (generate_loop_sched_ok _ _ _ Hok0 H1) as Hok1.
    apply backfill_loop in H2 as ((_ & _ & Hn & Hr & _) & _).
    destruct (evict_fields (row_min - 2) (row_max + 2) s2)
      as (_ & _ & _ & -> & -> & _).
    rewrite Hn, Hr. exact Hok1.
  - exact IH.
Qed.

End WorldInvariants.

(** ** A new World, and its size *)

Section NewWorld.
Context `{PyRandom}.
#[local] Existing Instance grows_preorder.

(** The lanes below the safe start are open at column [c]. *)
Definition open_below (c : Z) (s : World.state) : Prop :=
  ∀ r l, World.lanes s !! r = Some l → r < SAFE_START_ROWS →
         Lane.is_blocked l c = Ok false.

(** The first loop, over the rows from [a] on: as long as it is below the
    safe start the path column stays where it is, and every lane it builds
    there is open at it. *)
Lemma generate_loop_corridor c n a s s' :
  0 ≤ c < World.cols s →
  World.path_col s = c ∨ SAFE_START_ROWS ≤ a →
  open_below c s →
  World.for_each World.generate_row (seqZ a (Z.of_nat n)) s = Ok s' →
  open_below c s'.
Proof.
  revert a s. induction n as [|n IH]; intros a s Hc Hpath Hopen Hs.
  - by injection Hs as <-.
  - rewrite seqZ_cons in Hs by lia.
    replace (Z.pred (Z.of_nat (S n))) with (Z.of_nat n) in Hs by lia.
    cbn [World.for_each] in Hs. apply result_bind_Ok in Hs as (s1 & Hs1 & Hs).
    pose proof (generate_row_lanes _ _ _ Hs1) as [Hc1 Hframe].
    apply (IH (Z.succ a) s1); [by rewrite Hc1| | |done].
    + destruct (decide (a < SAFE_START_ROWS)) as [Ha|Ha]; [|right; lia].
      destruct Hpath as [Hpath|?]; [|lia]. left.
      unfold World.generate_row in Hs1.
      apply result_bind_Ok in Hs1 as (s2 & Hs2 & [= <-]). cbn.
      destruct (World.lanes s !! a).
      * by injection Hs2 as <-.
      * apply result_bind_Ok in Hs2 as ([l s3] & Hmk & [= <-]). cbn.
        by apply make_lane_below_safe in Hmk as ->.
    + intros r l Hl Hr. destruct (decide (r = a)) as [->|Hne].
      2:{ rewrite Hframe in Hl by done. by eapply Hopen. }
      destruct Hpath as [Hpath|?]; [|lia].
      unfold World.generate_row in Hs1.
      apply result_bind_Ok in Hs1 as (s2 & Hs2 & [= <-]). cbn in Hl.
      destruct (World.lanes s !! a) as [l0|] eqn:Hl0.
      * injection Hs2 as <-. rewrite Hl0 in Hl. injection Hl as <-.
        by eapply Hopen.
      * apply result_bind_Ok in Hs2 as ([l1 s3] & Hmk & [= <-]). cbn in Hl.
        rewrite lookup_insert_eq in Hl. injection Hl as <-.
        assert (path_ok s) as Hp by (unfold path_ok; lia).
        pose proof (make_lane_inv _ _ _ _ Hmk) as (_ & _ & Hgrass & _).
        destruct (make_lane_path_open_at _ _ _ _ Hp Hmk) as [_ Hfree]; [auto|].
        apply make_lane_below_safe in Hmk as ->; [|done]. by rewrite <- Hpath.
Qed.

Lemma generate_loop_present rs s s' :
  World.for_each World.generate_row rs s = Ok s' →
  ∀ r, r ∈ rs → is_Some (World.lanes s' !! r).
Proof.
  intros Hs.
  apply (for_each_each (λ r t, is_Some (World.lanes t !! r)) grows
           World.generate_row rs s s'); [| |done].
  - intros r' t t' _ Hstep. by apply generate_row_inv in Hstep as (? & ? & _).
  - intros r' t t' (_ & _ & Hf & _) [l Hl]. exists l. auto.
Qed.

(** X12. The start is clear.  After [World(cols)] and a first
    [ensure_range(low, high)], every lane below the safe start is open at
    the middle column [cols // 2], where the game puts the player: the rows
    around the start form a corridor. *)
Theorem new_world_start_column cols row_min row_max s0 s :
  0 < cols → World.init cols = Ok s0 → -999998 ≤ row_min →
  World.ensure_range row_min row_max s0 = Ok s →
  ∀ r l, World.get_lane r s = Some l → r < SAFE_START_ROWS →
         Lane.is_blocked l (cols `div` 2) = Ok false.
Proof.
  intros Hcols Hinit Hlow Hs.
  unfold World.init in Hinit.
  match type of Hinit with
  | World._schedule_next_road_start ?r ?s1 = _ =>
      destruct (schedule_next_spec r s1) as (j & g & _ & _ & Heq)
  end.
  rewrite Heq in Hinit. injection Hinit as <-.
  apply ensure_range_steps in Hs as (t0 & t1 & t2 & H0 & H1 & H2 & ->).
  assert (World.cols t0 = cols ∧ World.lanes t0 = ∅
          ∧ World.path_col t0 = cols `div` 2
          ∧ Z.max (World.generated_max t0 + 1) row_min = row_min)
    as (Hc0 & Hl0 & Hp0 & Hstart).
  { unfold World.maybe_reset in H0. cbn in H0.
    destruct (Z.ltb_spec (-999999) (row_min - 50)).
    - unfold World.reset in H0.
      match type of H0 with
      | World._schedule_next_road_start ?r ?s1 = _ =>
          destruct (schedule_next_spec r s1) as (j' & g' & _ & _ & Heq')
      end.
      rewrite Heq' in H0. injection H0 as <-. cbn. split_and!; auto. lia.
    - injection H0 as <-. cbn. split_and!; auto. lia. }
  rewrite Hstart in H1.
  assert (0 ≤ cols `div` 2 < cols) as Hmid.
  { split; [apply Z.div_pos; lia|apply Z.div_lt_upper_bound; lia]. }
  assert (open_below (cols `div` 2) t1) as Hopen1.
  { destruct (decide (row_max + 1 - row_min ≤ 0)) as [Hempty|Hne].
    - rewrite range_nil in H1 by lia. injection H1 as <-.
      intros r l Hl. by rewrite Hl0, lookup_empty in Hl.
    - unfold range in H1.
      rewrite <- (Z2Nat.id (row_max + 1 - row_min)) in H1 by lia.
      eapply generate_loop_corridor; [| | |done].
      + by rewrite Hc0.
      + by left.
      + intros r l Hl. by rewrite Hl0, lookup_empty in Hl. }
  pose proof (generate_loop_present _ _ _ H1) as Hall.
  rewrite backfill_present in H2.
  2:{ intros r Hr%elem_of_range. apply Hall, elem_of_range. lia. }
  injection H2 as <-.
  unfold World.get_lane. intros r l Hl Hr.
  rewrite lookup_evict in Hl. case_decide; [|done]. by eapply Hopen1.
Qed.

(** X13. The size of the window.  After [ensure_range(low, high)] the
    World holds at most [high - low + 5] lanes, and none at all when
    [high + 4 < low]. *)
Theorem ensure_range_size row_min row_max s s' :
  World.ensure_range row_min row_max s = Ok s' →
  (size (World.lanes s') ≤ Z.to_nat (row_max - row_min + 5))%nat
  ∧ (row_max + 4 < row_min → World.lanes s' = ∅).
Proof.
  intros Hs. apply ensure_range_inv in Hs as (s2 & -> & _).
  set (window := seqZ (row_min - 2) (row_max - row_min + 5)).
  assert (size (World.lanes (World.evict (row_min - 2) (row_max + 2) s2))
          ≤ Z.to_nat (row_max - row_min + 5))%nat as Hsize.
  { rewrite <- (size_dom (D:=gset Z)).
    trans (size (list_to_set (C:=gset Z) window)).
    - apply subseteq_size. intros r [l Hl]%elem_of_dom.
      rewrite lookup_evict in Hl. case_decide; [|done].
      apply elem_of_list_to_set, elem_of_seqZ. lia.
    - rewrite size_list_to_set by apply NoDup_seqZ.
      unfold window. by rewrite length_seqZ. }
  split; [done|]. intros Hempty.
  apply map_size_empty_iff.
  replace (Z.to_nat (row_max - row_min + 5)) with 0%nat in Hsize by lia. lia.
Qed.

(** X14. A World of no columns.  [World(cols)] with [cols <= 0] is
    constructed without an error, and its first [ensure_range(low, high)]
    with a row below the safe start to build raises [IndexError]. *)
Theorem world_no_columns cols row_min row_max :
  cols ≤ 0 → -999998 ≤ row_min → row_min ≤ row_max →
  row_min < SAFE_START_ROWS →
  ∃ s0, World.init cols = Ok s0
        ∧ World.ensure_range row_min row_max s0 = Raise IndexError.
Proof.
  intros Hcols Hlow Hle Hsafe.
  unfold World.init.
  match goal with
  | |- context [World._schedule_next_road_start ?r ?s1] =>
      destruct (schedule_next_spec r s1) as (j & g & _ & _ & ->)
  end.
  eexists. split; [done|].
  assert (∀ (t : World.state) start,
            World.cols t = cols → World.lanes t = ∅ → start = row_min →
            World.for_each World.generate_row (range start (row_max + 1)) t
            = Raise IndexError) as Hloop.
  { intros t start Hc Hl ->. unfold range. rewrite seqZ_cons by lia.
    cbn [World.for_each].
    assert (World.generate_row row_min t = Raise IndexError) as ->; [|done].
    unfold World.generate_row. rewrite Hl, lookup_empty.
    unfold World._make_lane.
    destruct (Z.ltb_spec row_min SAFE_START_ROWS); [|lia].
    by rewrite Hc, init_grass_no_columns. }
  unfold World.ensure_range, World.maybe_reset.
  cbn [World.generated_max World.set_next_road_start World.set_rng].
  destruct (Z.ltb_spec (-999999) (row_min - 50)).
  - unfold World.reset.
    match goal with
    | |- context [World._schedule_next_road_start ?r ?s1] =>
        destruct (schedule_next_spec r s1) as (j' & g' & _ & _ & ->)
    end.
    cbn [mbind result_bind]. rewrite Hloop; [done..|cbn; lia].
  - cbn [mbind result_bind]. rewrite Hloop; [done..|cbn; lia].
Qed.

(** *** Ticks *)

(** What a car keeps when it moves. *)
Definition car_shape (c : Car.t) : Z * Q * Z := (Car.w c, Car.speed c, Car.dir c).

(** What a lane keeps when its cars move. *)
Definition lane_terrain (l : Lane.t) : Z * string * Z * list bool * list (Z * Q * Z) :=
  (Lane.row l, Lane.kind l, Lane.cols l, Lane.blocked l, car_shape <$> Lane.cars l).

Lemma lane_update_terrain dt l : lane_terrain (Lane.update dt l) = lane_terrain l.
Proof.
  unfold Lane.update, lane_terrain. destruct (String.eqb _ _); [|done]. cbn.
  f_equal. rewrite <- list_fmap_compose. apply list_fmap_ext.
  intros i c _. unfold Car.update, car_shape. cbn.
  by destruct (_ && _); [|destruct (_ && _)].
Qed.

(** X15. A tick moves cars, and nothing else.  [World.update] leaves the
    scheduler, the generator, the path column and the set of rows as they
    are; of a lane it leaves the row, the kind, the bitmap (so the answers
    of [is_blocked]) and, of each car, the width, the speed and the
    direction: the positions of the cars are all it changes. *)
Theorem world_update_terrain dt camera_y s :
  same_generator s (World.update dt camera_y s)
  ∧ ∀ r, lane_terrain <$> World.get_lane r (World.update dt camera_y s)
         = lane_terrain <$> World.get_lane r s
         ∧ ∀ c, (λ l, Lane.is_blocked l c) <$> World.get_lane r (World.update dt camera_y s)
                = (λ l, Lane.is_blocked l c) <$> World.get_lane r s.
Proof.
  split; [done|]. intros r. unfold World.get_lane, World.update. cbn.
  rewrite lookup_fmap. destruct (World.lanes s !! r) as [l|]; [|done]. cbn.
  assert (lane_terrain (if World.off_screen camera_y l then l else Lane.update dt l)
          = lane_terrain l) as Hsame.
  { destruct (World.off_screen camera_y l); [done|apply lane_update_terrain]. }
  split; [by rewrite Hsame|].
  intros c. f_equal. unfold Lane.is_blocked.
  injection Hsame as _ -> _ -> _. done.
Qed.

End NewWorld.

(** ** Cars: the wrap *)

(** A car at [x] shows on the field. *)
Definition visible (c : Car.t) (x : Q) : Prop :=
  (x < inject_Z WIDTH)%Q ∧ (0 < x + inject_Z (Car.w c))%Q.

(** X16. The wrap is out of sight.  [Car.update] puts the car where its
    speed takes it, or wraps it; and when it wraps, the car shows on the
    field neither where its speed had taken it nor where it is put. *)
Theorem car_wrap_out_of_sight dt c :
  Car.x (Car.update dt c) = Car.advance dt c
  ∨ (¬ visible c (Car.advance dt c) ∧ ¬ visible c (Car.x (Car.update dt c))).
Proof.
  unfold Car.update, visible.
  assert (inject_Z (- Car.w c - 2 * TILE) + inject_Z (Car.w c) == -96)%Q as Hleft.
  { rewrite <- inject_Z_plus. replace (- Car.w c - 2 * TILE + Car.w c) with (-96); [done|].
    unfold TILE. lia. }
  change (inject_Z WIDTH) with 432%Q.
  destruct ((Car.dir c =? 1) && _) eqn:Hright.
  { right. apply andb_true_iff in Hright as [_ Hlt%Qltb_lt].
    change (inject_Z (WIDTH + 2 * TILE)) with 528%Q in Hlt. cbn [Car.x Car.set_x].
    split; intros [? ?]; lra. }
  destruct ((Car.dir c =? -1) && _) eqn:Hwrap; [|left; reflexivity].
  right. apply andb_true_iff in Hwrap as [_ Hlt%Qltb_lt]. cbn [Car.x Car.set_x].
  change (inject_Z (WIDTH + 2 * TILE)) with 528%Q.
  split; intros [? ?]; lra.
Qed.

(** ** The player *)

Section PlayerMoves.
Context `{PyRandom}.

Lemma is_blocked_total l c : ∃ b, Lane.is_blocked l c = Ok b.
Proof.
  unfold Lane.is_blocked. destruct (negb _); [by eexists|].
  destruct ((0 <=? c) && (c <? Z.of_nat (length (Lane.blocked l)))) eqn:Hc;
    [|by eexists].
  apply andb_true_iff in Hc as [?%Z.leb_le ?%Z.ltb_lt].
  destruct (getitem_in_range (Lane.blocked l) c) as (b & -> & _); [lia|].
  by eexists.
Qed.

(** What [try_move] does, case by case. *)
Inductive move_outcome (dcol drow : Z) (world : World.state) (p : Player.t)
  : Player.t → Prop :=
| move_ignored :
    Player.alive p = false ∨ Player.is_hopping p = true →
    move_outcome dcol drow world p p
| move_off_field :
    Player.alive p = true → Player.is_hopping p = false →
    Player.col p + dcol < 0 ∨ COLS ≤ Player.col p + dcol →
    move_outcome dcol drow world p (Player.set_alive false p)
| move_no_lane :
    Player.alive p = true → Player.is_hopping p = false →
    0 ≤ Player.col p + dcol < COLS →
    World.get_lane (Player.row p + drow) world = None →
    move_outcome dcol drow world p p
| move_blocked lane :
    Player.alive p = true → Player.is_hopping p = false →
    0 ≤ Player.col p + dcol < COLS →
    World.get_lane (Player.row p + drow) world = Some lane →
    Lane.is_blocked lane (Player.col p + dcol) = Ok true →
    move_outcome dcol drow world p p
| move_hop lane p' :
    Player.alive p = true → Player.is_hopping p = false →
    0 ≤ Player.col p + dcol < COLS →
    World.get_lane (Player.row p + drow) world = Some lane →
    Lane.is_blocked lane (Player.col p + dcol) = Ok false →
    p' = (let q := Player.start_hop (Player.col p + dcol) (Player.row p + drow) p in
          if negb (Player.row q =? Player._last_row_for_timer q)
          then Player.restart_timer q else q) →
    move_outcome dcol drow world p p'.

Lemma try_move_outcome dcol drow world p :
  ∃ p', Player.try_move dcol drow world p = Ok p'
        ∧ move_outcome dcol drow world p p'.
Proof.
  unfold Player.try_move.
  destruct (Player.alive p) eqn:Halive; cbn [negb orb].
  2:{ exists p. split; [done|]. constructor. by left. }
  destruct (Player.is_hopping p) eqn:Hhop.
  { exists p. split; [done|]. constructor. by right. }
  destruct ((Player.col p + dcol <? 0) || (COLS <=? Player.col p + dcol)) eqn:Hfield.
  { eexists. split; [done|]. apply move_off_field; [done..|].
    apply orb_true_iff in Hfield as [?%Z.ltb_lt|?%Z.leb_le]; auto. }
  apply orb_false_iff in Hfield as [?%Z.ltb_ge ?%Z.leb_gt].
  destruct (World.get_lane (Player.row p + drow) world) as [lane|] eqn:Hlane.
  2:{ exists p. split; [done|]. by apply move_no_lane. }
  destruct (is_blocked_total lane (Player.col p + dcol)) as ([|] & Hb);
    rewrite Hb; cbn [mbind result_bind].
  - exists p. split; [done|]. by eapply move_blocked.
  - eexists. split; [|by eapply move_hop].
    cbv zeta. by destruct (negb _).
Qed.

(** X17. Where a move can lead.  [try_move] raises nothing.  It leaves the
    player on its cell, or takes it to the cell at [(col + dcol, row +
    drow)]; and it does the latter only for a live player at rest, to a
    column of the field, in a lane the World holds, and a cell where
    [is_blocked] is false.  It kills the player only for a target column
    off the field. *)
Theorem try_move_cell dcol drow world p :
  ∃ p', Player.try_move dcol drow world p = Ok p'
    ∧ ((Player.col p' = Player.col p ∧ Player.row p' = Player.row p
        ∧ Player.is_hopping p' = Player.is_hopping p)
       ∨ (Player.col p' = Player.col p + dcol
          ∧ Player.row p' = Player.row p + drow
          ∧ Player.alive p = true ∧ Player.is_hopping p = false
          ∧ Player.is_hopping p' = true
          ∧ 0 ≤ Player.col p' < COLS
          ∧ ∃ lane, World.get_lane (Player.row p') world = Some lane
                    ∧ Lane.is_blocked lane (Player.col p') = Ok false))
    ∧ (Player.alive p' = Player.alive p
       ∨ (Player.alive p' = false
          ∧ (Player.col p + dcol < 0 ∨ COLS ≤ Player.col p + dcol))).
Proof.
  destruct (try_move_outcome dcol drow world p) as (p' & Hp' & Hout).
  exists p'. split; [done|].
  destruct Hout as [?|? ? ?|? ? ? ?|lane ? ? ? ? ?|lane p' ? ? ? ? ? ->];
    try (split; [left|]; auto; done).
  assert (∀ q, Player.col (if negb (Player.row q =? Player._last_row_for_timer q)
                           then Player.restart_timer q else q) = Player.col q
               ∧ Player.row (if negb (Player.row q =? Player._last_row_for_timer q)
                             then Player.restart_timer q else q) = Player.row q
               ∧ Player.is_hopping (if negb (Player.row q =? Player._last_row_for_timer q)
                                    then Player.restart_timer q else q)
                 = Player.is_hopping q
               ∧ Player.alive (if negb (Player.row q =? Player._last_row_for_timer q)
                               then Player.restart_timer q else q) = Player.alive q)
    as Hsame by (intros q; by destruct (negb _)).
  cbv zeta.
  destruct (Hsame (Player.start_hop (Player.col p + dcol) (Player.row p + drow) p))
    as (-> & -> & -> & ->).
  cbn. split; [right|by left].
  repeat (split; [done|]). by exists lane.
Qed.

(** The player as the game keeps it: in the field, never beyond its best
    row, and with the timer's row its own. *)
Definition player_ok (p : Player.t) : Prop :=
  0 ≤ Player.col p < COLS
  ∧ Player.row p ≤ Player.max_row p
  ∧ Player._last_row_for_timer p = Player.row p.

(** X18. What a move keeps.  A player in the field, with [max_row] at or
    above its row and the timer's row its own, is so after [try_move]; and
    [max_row], the score, never goes down: it is the larger of what it was
    and the new row. *)
Theorem try_move_keeps dcol drow world p p' :
  player_ok p →
  Player.try_move dcol drow world p = Ok p' →
  player_ok p'
  ∧ Player.max_row p' = Z.max (Player.max_row p) (Player.row p').
Proof.
  intros (Hcol & Hmax & Hlast) Hmove.
  destruct (try_move_outcome dcol drow world p) as (q & Hq & Hout).
  assert (q = p') as -> by congruence. unfold player_ok.
  destruct Hout as [?|? ? ?|? ? ? ?|lane ? ? ? ? ?|lane p' ? ? ? ? ? ->];
    try (cbn; split; [done|lia]).
  cbv zeta. cbn [Player.row Player._last_row_for_timer Player.start_hop].
  destruct (Z.eqb_spec (Player.row p + drow) (Player._last_row_for_timer p));
    cbn; lia.
Qed.

(** X19. The stall timer.  For a player whose timer row is its row, a move
    that changes the row sets [time_in_same_row] to 0, and [try_move]
    otherwise leaves it as it is: a step sideways, or a move that is
    refused, does not buy time. *)
Theorem try_move_timer dcol drow world p p' :
  Player._last_row_for_timer p = Player.row p →
  Player.try_move dcol drow world p = Ok p' →
  (Player.row p' ≠ Player.row p → Player.time_in_same_row p' = 0%Q)
  ∧ (Player.row p' = Player.row p →
     Player.time_in_same_row p' = Player.time_in_same_row p).
Proof.
  intros Hlast Hmove.
  destruct (try_move_outcome dcol drow world p) as (q & Hq & Hout).
  assert (q = p') as -> by congruence.
  destruct Hout as [?|? ? ?|? ? ? ?|lane ? ? ? ? ?|lane p' ? ? ? ? ? ->];
    try (cbn; split; [done|done]).
  cbv zeta. cbn [Player.row Player._last_row_for_timer Player.start_hop].
  destruct (Z.eqb_spec (Player.row p + drow) (Player._last_row_for_timer p));
    cbn; split; try done; lia.
Qed.

(** X20. In the window, every move is answered by the cell.  After
    [ensure_range(low, high)], a live player at rest that moves to a column
    of the field and a row of [low .. high] finds a lane there: it hops
    when [is_blocked] is false for the cell, and stays when it is true. *)
Theorem try_move_in_window row_min row_max s s' dcol drow p :
  World.ensure_range row_min row_max s = Ok s' →
  Player.alive p = true → Player.is_hopping p = false →
  0 ≤ Player.col p + dcol < COLS →
  row_min ≤ Player.row p + drow ≤ row_max →
  ∃ lane blocked p',
    World.get_lane (Player.row p + drow) s' = Some lane
    ∧ Lane.is_blocked lane (Player.col p + dcol) = Ok blocked
    ∧ Player.try_move dcol drow s' p = Ok p'
    ∧ if blocked then p' = p
      else Player.col p' = Player.col p + dcol
           ∧ Player.row p' = Player.row p + drow
           ∧ Player.is_hopping p' = true.
Proof.
  intros Hs Halive Hrest Hcol Hrow.
  apply ensure_range_inv in Hs as (s2 & -> & _ & _ & Hall).
  destruct (Hall ltac:(lia) (Player.row p + drow) Hrow) as [lane Hlane].
  assert (World.get_lane (Player.row p + drow)
            (World.evict (row_min - 2) (row_max + 2) s2) = Some lane) as Hget.
  { unfold World.get_lane. rewrite lookup_evict, decide_True by lia. done. }
  destruct (is_blocked_total lane (Player.col p + dcol)) as (b & Hb).
  exists lane, b.
  unfold Player.try_move. rewrite Halive, Hrest. cbn [negb orb].
  destruct (Z.ltb_spec (Player.col p + dcol) 0); [lia|].
  destruct (Z.leb_spec COLS (Player.col p + dcol)); [lia|]. cbn [orb].
  rewrite Hget, Hb. cbn [mbind result_bind].
  destruct b.
  - by exists p.
  - exists (let q := Player.start_hop (Player.col p + dcol) (Player.row p + drow) p in
            if negb (Player.row q =? Player._last_row_for_timer q)
            then Player.restart_timer q else q).
    cbv zeta. do 2 (split; [done|]). split; by destruct (negb _).
Qed.

End PlayerMoves.

(** ** Bushes *)

Section Bushes.
Context `{PyRandom}.

(** X23. The green of a bush.  The colour of the bush at column [c] of a
    row has red and blue between 60 and 66, and its green is 155 for every
    bush: the variation drawn for the green channel never shows, as
    [170 - 6] is above the upper bound of the clamp. *)
Theorem bush_color_green row c :
  ∃ r b, Lane.bush_color row c = Ok (r, 155, b) ∧ 60 ≤ r ≤ 66 ∧ 60 ≤ b ≤ 66.
Proof.
  unfold Lane.bush_color.
  destruct (randint_spec (-6) 6 (Random ((row + 1) * 1000 + c)))
    as (g & g1 & Hg & Hgr); [done|].
  destruct (randint_spec (-6) 6 g1) as (r & g2 & Hr & Hrr); [done|].
  destruct (randint_spec (-6) 6 g2) as (b & g3 & Hb & Hbr); [done|].
  unfold mbind at 2, Rand_bind at 1. rewrite Hg.
  unfold mbind at 2, Rand_bind at 1. rewrite Hr.
  unfold mbind at 2, Rand_bind at 1. rewrite Hb.
  cbn [mret Rand_ret mbind result_bind].
  assert (clamp (170 + g) 135 155 = 155) as ->.
  { unfold clamp. destruct (Z.ltb_spec (170 + g) 135); [lia|].
    destruct (Z.ltb_spec 155 (170 + g)); lia. }
  eexists _, _. split; [done|].
  unfold clamp.
  destruct (Z.ltb_spec (60 + r) 60), (Z.ltb_spec 155 (60 + r)),
    (Z.ltb_spec (60 + b) 60), (Z.ltb_spec 155 (60 + b)); lia.
Qed.

End Bushes.

(** ** Playing forward

    As long as the window moves on without a reset, without a gap and
    without a row to backfill, the World is a part of the World that one
    [ensure_range] builds from the start. *)

Section Forward.
Context `{PyRandom}.
#[local] Existing Instance grows_preorder.

Lemma range_app a b c : a ≤ b → b ≤ c → range a c = range a b ++ range b c.
Proof.
  intros Hab Hbc. unfold range.
  replace (c - a) with ((b - a) + (c - b)) by lia.
  rewrite seqZ_app by lia. by replace (a + (b - a)) with b by lia.
Qed.

Lemma for_each_app body rs1 rs2 s :
  World.for_each body (rs1 ++ rs2) s
  = World.for_each body rs1 s ≫= World.for_each body rs2.
Proof.
  revert s. induction rs1 as [|r rs1 IH]; intros s; [done|].
  cbn [app World.for_each]. destruct (body r s) as [s1|e]; [|done]. cbn. apply IH.
Qed.

Lemma generate_loop_max_le rs s s' m :
  (∀ r, r ∈ rs → r ≤ m) → World.generated_max s ≤ m →
  World.for_each World.generate_row rs s = Ok s' →
  World.generated_max s' ≤ m.
Proof.
  revert s. induction rs as [|r rs IH]; intros s Hrs Hm Hs.
  - by injection Hs as <-.
  - cbn [World.for_each] in Hs. apply result_bind_Ok in Hs as (s1 & Hs1 & Hs).
    apply generate_row_inv in Hs1 as (_ & _ & Hgm & _).
    apply (IH s1); [|rewrite Hgm|done].
    + intros r' ?. apply Hrs. by right.
    + pose proof (Hrs r ltac:(left)). lia.
Qed.

(** A World in which nothing has been generated at [lo] or above. *)
Definition fresh_at (lo : Z) (s : World.state) : Prop :=
  World.lanes s = ∅ ∧ World.generated_max s < lo.

Lemma init_fresh_at cols s0 lo s :
  World.init cols = Ok s0 → -999998 ≤ lo →
  World.maybe_reset lo s0 = Ok s → fresh_at lo s.
Proof.
  intros Hinit Hlo Hs. unfold World.init in Hinit.
  match type of Hinit with
  | World._schedule_next_road_start ?r ?s1 = _ =>
      destruct (schedule_next_spec r s1) as (j & g & _ & _ & Heq)
  end.
  rewrite Heq in Hinit. injection Hinit as <-.
  unfold World.maybe_reset in Hs. cbn in Hs.
  destruct (Z.ltb_spec (-999999) (lo - 50)).
  - unfold World.reset in Hs.
    match type of Hs with
    | World._schedule_next_road_start ?r ?s1 = _ =>
        destruct (schedule_next_spec r s1) as (j' & g' & _ & _ & Heq')
    end.
    rewrite Heq' in Hs. injection Hs as <-. unfold fresh_at. cbn. split; [done|lia].
  - injection Hs as <-. unfold fresh_at. cbn. split; [done|lia].
Qed.

(** The first loop on a fresh World: the rows of the loop, and no other. *)
Lemma generate_loop_fresh lo hi s t :
  fresh_at lo s → lo ≤ hi →
  World.for_each World.generate_row (range lo (hi + 1)) s = Ok t →
  World.generated_max t = hi
  ∧ ∀ r, is_Some (World.lanes t !! r) ↔ lo ≤ r ≤ hi.
Proof.
  intros [Hempty Hgm] Hle Ht. split.
  - apply Z.le_antisymm.
    + apply (generate_loop_max_le (range lo (hi + 1)) s t hi); [|lia|done].
      intros r Hr%elem_of_range. lia.
    + apply generate_loop_max in Ht as [_ Hall]. apply Hall, elem_of_range. lia.
  - intros r. split.
    + intros Hr. destruct (decide (r ∈ range lo (hi + 1))) as [Hin%elem_of_range|Hout];
        [lia|].
      apply generate_loop_lanes in Ht as [_ Hframe].
      rewrite (Hframe r Hout), Hempty, lookup_empty in Hr. by destruct Hr.
    + intros Hr. eapply generate_loop_present; [done|]. apply elem_of_range. lia.
Qed.

(** On a fresh World, [ensure_range] is its first loop. *)
Lemma ensure_range_fresh lo hi s0 s t :
  World.maybe_reset lo s0 = Ok s → fresh_at lo s → lo ≤ hi →
  World.ensure_range lo hi s0 = Ok t
  ↔ World.for_each World.generate_row (range lo (hi + 1)) s = Ok t.
Proof.
  intros Hreset Hfresh Hle. unfold World.ensure_range. rewrite Hreset.
  cbn [mbind result_bind].
  replace (Z.max (World.generated_max s + 1) lo) with lo
    by (destruct Hfresh; lia).
  destruct (World.for_each World.generate_row (range lo (hi + 1)) s)
    as [t1|e] eqn:Hloop; [|done].
  destruct (generate_loop_fresh _ _ _ _ Hfresh Hle Hloop) as [Hgm Hkeys].
  cbn [mbind result_bind].
  rewrite Hgm, Z.min_id, backfill_present.
  2:{ intros r Hr%elem_of_range. apply Hkeys. lia. }
  cbn [mbind result_bind]. rewrite evict_id; [done|].
  intros r Hr%Hkeys. lia.
Qed.

(** [s] is a part of [t]: the same generator, and lanes that are lanes of
    [t], but for where their cars are. *)
Definition part_of (t s : World.state) : Prop :=
  same_generator t s
  ∧ ∀ r l, World.get_lane r s = Some l →
           ∃ l', World.get_lane r t = Some l' ∧ lane_terrain l = lane_terrain l'.

(** [s] follows the first loop from the fresh World [s0]. *)
Definition follows (s0 : World.state) (lo0 : Z) (s : World.state) : Prop :=
  lo0 ≤ World.generated_max s
  ∧ ∃ t, World.for_each World.generate_row
           (range lo0 (World.generated_max s + 1)) s0 = Ok t
         ∧ part_of t s.

Lemma follows_ensure_range s0 lo0 s lo hi s' :
  fresh_at lo0 s0 → follows s0 lo0 s →
  lo ≤ hi → lo ≤ World.generated_max s + 1 →
  (∀ r, lo ≤ r ≤ Z.min hi (World.generated_max s) →
        is_Some (World.get_lane r s)) →
  World.ensure_range lo hi s = Ok s' →
  follows s0 lo0 s'.
Proof.
  intros Hfresh (Hlo0 & t & Ht & Hsame & Hpart) Hle Hgap Hthere Hs.
  destruct (generate_loop_fresh _ _ _ _ Hfresh Hlo0 Ht) as [Hgmt Hkeyst].
  assert (∀ r, World.generated_max s + 1 ≤ r → World.lanes s !! r = World.lanes t !! r)
    as Habove.
  { intros r Hr.
    destruct (World.lanes t !! r) as [l'|] eqn:Hl'.
    { assert (lo0 ≤ r ≤ World.generated_max s) by (apply Hkeyst; by exists l'). lia. }
    destruct (World.lanes s !! r) as [l|] eqn:Hl; [|done].
    destruct (Hpart r l Hl) as (l' & Hl2 & _). unfold World.get_lane in Hl2. congruence. }
  destruct Hsame as (Hc & Hg & Hn & Hrr & Hrng & Hp).
  assert (agree_from (World.generated_max s + 1) s t) as Hagree
    by (apply agree_from_intro; auto).
  apply ensure_range_steps in Hs as (s1 & s2 & s3 & H0 & H1 & H2 & ->).
  unfold World.maybe_reset in H0.
  destruct (Z.ltb_spec (World.generated_max s) (lo - 50)); [lia|].
  injection H0 as <-.
  rewrite Z.max_l in H1 by lia.
  set (rs := range (World.generated_max s + 1) (hi + 1)) in *.
  destruct (for_each_agree (World.generated_max s + 1) World.generate_row rs s t s2)
    as (t2 & Ht2 & Hagree2); [apply generate_row_agree| |done..|].
  { intros r Hr%elem_of_range. lia. }
  pose proof (agree_from_fields _ _ _ Hagree2) as (Hc2 & Hg2 & Hn2 & Hrr2 & Hrng2 & Hp2).
  destruct Hagree2 as [_ Hlanes2].
  pose proof (generate_loop_lanes _ _ _ H1) as [_ Hframe_s].
  pose proof (generate_loop_lanes _ _ _ Ht2) as [_ Hframe_t].
  pose proof (generate_loop_present _ _ _ H1) as Hnew.
  pose proof (generate_loop_max _ _ _ H1) as [Hmono Hreach].
  assert (World.generated_max s2 = Z.max (World.generated_max s) hi) as Hgm2.
  { apply Z.le_antisymm.
    - apply (generate_loop_max_le rs s s2); [|lia|done].
      intros r Hr%elem_of_range. lia.
    - destruct (decide (World.generated_max s < hi)).
      + rewrite Z.max_r by lia. apply Hreach, elem_of_range. lia.
      + rewrite Z.max_l by lia. done. }
  rewrite backfill_present in H2.
  2:{ intros r Hr%elem_of_range.
      destruct (decide (r ≤ World.generated_max s)) as [Hold|Hfar].
      - destruct (Hthere r ltac:(lia)) as [l Hl].
        exists l. rewrite Hframe_s; [done|]. intros Hin%elem_of_range. lia.
      - apply Hnew, elem_of_range. lia. }
  injection H2 as <-.
  destruct (evict_fields (lo - 2) (hi + 2) s2) as (Hce & Hge & Hpe & Hne & Hre & Hrnge).
  unfold follows. rewrite Hge, Hgm2. split; [lia|].
  exists t2. split.
  { destruct (decide (World.generated_max s < hi)).
    - rewrite Z.max_r by lia.
      rewrite (range_app lo0 (World.generated_max s + 1)) by lia.
      rewrite for_each_app, Ht. done.
    - rewrite Z.max_l by lia. unfold rs in Ht2.
      rewrite range_nil in Ht2 by lia. injection Ht2 as <-. done. }
  split.
  { unfold same_generator. rewrite Hce, Hge, Hpe, Hne, Hre, Hrnge.
    split_and!; congruence. }
  unfold World.get_lane. intros r l Hl.
  rewrite lookup_evict in Hl. case_decide; [|done].
  destruct (decide (World.generated_max s + 1 ≤ r)) as [Hhigh|Hlow].
  - exists l. split; [|done]. by rewrite <- Hlanes2.
  - assert (r ∉ rs) as Hout by (intros Hin%elem_of_range; lia).
    rewrite (Hframe_s r Hout) in Hl.
    destruct (Hpart r l Hl) as (l' & Hl' & Hterrain).
    exists l'. split; [|done]. rewrite (Hframe_t r Hout). done.
Qed.

(** The moves of a window that goes on: a first [ensure_range], then
    calls that start at most one row beyond what has been generated and
    find every row of their window that has been generated still there,
    and ticks in between. *)
Inductive forward (s0 : World.state) (lo0 : Z) : World.state → Prop :=
| forward_first hi s :
    lo0 ≤ hi → World.ensure_range lo0 hi s0 = Ok s → forward s0 lo0 s
| forward_next s lo hi s' :
    forward s0 lo0 s →
    lo ≤ hi → lo ≤ World.generated_max s + 1 →
    (∀ r, lo ≤ r ≤ Z.min hi (World.generated_max s) →
          is_Some (World.get_lane r s)) →
    World.ensure_range lo hi s = Ok s' →
    forward s0 lo0 s'
| forward_tick s dt camera_y :
    forward s0 lo0 s → forward s0 lo0 (World.update dt camera_y s).

(** X24. One world.  From a new World, let the window go forward: a first
    [ensure_range(low0, high)], then calls [ensure_range(low, high)] that
    start at most one row beyond [generated_max] and find every row of
    [low .. min(high, generated_max)] still materialised, with calls of
    [update] in between.  Then the World is a part of the one that a single
    [ensure_range(low0, generated_max)] builds from the new World: the
    scheduler, the generator and the path column are the same, and every
    lane is the lane of that World at its row, but for where its cars
    are. *)
Theorem forward_one_world cols s0 lo0 s :
  World.init cols = Ok s0 → -999998 ≤ lo0 →
  forward s0 lo0 s →
  ∃ t, World.ensure_range lo0 (World.generated_max s) s0 = Ok t ∧ part_of t s.
Proof.
  intros Hinit Hlo0 Hforward.
  destruct (maybe_reset_spec lo0 s0) as (s1 & Hreset & _).
  pose proof (init_fresh_at _ _ _ _ Hinit Hlo0 Hreset) as Hfresh.
  assert (follows s1 lo0 s) as (Hle & t & Ht & Hpart).
  { induction Hforward as [hi s Hle Hs|s lo hi s' _ IH Hle Hgap Hthere Hs
                          |s dt camera_y _ IH].
    - apply (ensure_range_fresh _ _ _ _ _ Hreset Hfresh Hle) in Hs.
      destruct (generate_loop_fresh _ _ _ _ Hfresh Hle Hs) as [Hgm _].
      unfold follows. rewrite Hgm. split; [done|]. exists s. split; [done|].
      split; [done|]. intros r l Hl. by exists l.
    - exact (follows_ensure_range _ _ _ _ _ _ Hfresh IH Hle Hgap Hthere Hs).
    - destruct IH as (Hle & t & Ht & Hsame & Hpart).
      split; [done|]. exists t. split; [done|]. split; [done|].
      unfold World.get_lane, World.update. cbn. intros r l Hl.
      rewrite lookup_fmap in Hl.
      destruct (World.lanes s !! r) as [l0|] eqn:Hl0; [|done].
      injection Hl as <-. destruct (Hpart r l0 Hl0) as (l' & Hl' & Hterrain).
      exists l'. split; [done|]. rewrite <- Hterrain.
      destruct (World.off_screen camera_y l0); [done|apply lane_update_terrain]. }
  exists t. split; [|done]. by apply (ensure_range_fresh _ _ _ s1).
Qed.

End Forward.

(** * Runs

    The theorems above at concrete inputs, with the generator CPython has
    ([MT_PyRandom]) and the width the game has ([COLS]). *)

Ltac run := vm_compute; reflexivity.

Lemma make_lane_path_open_witness :
  ∃ s0 s l s',
    World.init COLS = Ok s0
    ∧ World.maybe_reset 0 s0 = Ok s
    ∧ generating s
    ∧ World._make_lane 7 s = Ok (l, s')
    ∧ Lane.kind l = "grass"
    ∧ Lane.init 7 (World.cols s) "grass" (World.grass_seed 7)
        (Some (World.path_col s')) = Ok l
    ∧ Lane.is_blocked l (World.path_col s') = Ok false.
Proof.
  eexists _, _, _, _. split; [run|]. split; [run|].
  match goal with
  | |- generating ?s ∧ ?B ∧ ?C ∧ _ =>
      assert (generating s) as Hgen
        by (eapply (generating_start _ 0);
            [apply (reachable_init COLS); [done|run]|run]);
      assert B as Hmk by run; assert C as Hkind by done
  end.
  refine (conj Hgen (conj Hmk (conj Hkind _))).
  exact (make_lane_path_open 7 _ _ _ Hgen Hmk Hkind).
Defined.

Lemma ensure_range_window_witness :
  ∃ s,
    World.init COLS = Ok s
    ∧ reachable s ∧ 0 ≤ 1
    ∧ ∃ s', World.ensure_range 0 1 s = Ok s'
            ∧ (∀ r, 0 ≤ r ≤ 1 → is_Some (World.get_lane r s'))
            ∧ (∀ r, r < 0 - 2 ∨ 1 + 2 < r → World.get_lane r s' = None).
Proof.
  eexists. split; [run|].
  match goal with
  | |- reachable ?s ∧ _ =>
      assert (reachable s) as Hreach by (apply (reachable_init COLS); [done|run])
  end.
  assert (0 ≤ 1) as Hle by lia.
  refine (conj Hreach (conj Hle _)).
  exact (ensure_range_window 0 1 _ Hreach Hle).
Defined.

Lemma safe_start_rows_grass_witness :
  ∃ s0 s l,
    World.init COLS = Ok s0
    ∧ World.ensure_range 0 1 s0 = Ok s
    ∧ reachable s
    ∧ World.get_lane 0 s = Some l
    ∧ 0 < SAFE_START_ROWS
    ∧ Lane.kind l = "grass".
Proof.
  eexists _, _, _. split; [run|]. split; [run|].
  match goal with
  | |- reachable ?s ∧ _ =>
      assert (reachable s) as Hreach
        by (eapply (reachable_ensure_range _ 0 1);
            [apply (reachable_init COLS); [done|run]|run])
  end.
  refine (conj Hreach _).
  match goal with
  | |- ?A ∧ ?B ∧ _ => assert A as Hlane by run; assert B as Hrow by done
  end.
  refine (conj Hlane (conj Hrow _)).
  exact (safe_start_rows_grass _ 0 _ Hreach Hlane Hrow).
Defined.

Lemma ensure_range_frame_witness :
  ∃ s0 s s' l,
    World.init COLS = Ok s0
    ∧ World.ensure_range 0 1 s0 = Ok s
    ∧ World.ensure_range 1 2 s = Ok s'
    ∧ World.get_lane 0 s = Some l
    ∧ 1 - 2 ≤ 0 ≤ 2 + 2
    ∧ World.get_lane 0 s' = Some l.
Proof.
  eexists _, _, _, _. split; [run|]. split; [run|].
  match goal with
  | |- ?A ∧ ?B ∧ ?C ∧ _ =>
      assert A as Hs' by run; assert B as Hlane by run; assert C as Hr by lia
  end.
  refine (conj Hs' (conj Hlane (conj Hr _))).
  exact (ensure_range_frame 1 2 _ _ 0 _ Hs' Hlane Hr).
Defined.

Lemma make_lane_scheduler_witness :
  ∃ s,
    World.init COLS = Ok s
    ∧ 0 < World.cols s ∧ SAFE_START_ROWS ≤ 12
    ∧ ∃ l s' g,
        World._make_lane 12 s = Ok (l, s')
        ∧ scheduler_spec 12 (World.road_remaining s) (World.next_road_start s)
            (World.rng s)
          = Ok ((Lane.kind l, World.road_remaining s', World.next_road_start s'), g).
Proof.
  eexists. split; [run|].
  match goal with
  | |- ?A ∧ ?B ∧ _ => assert A as Hcols by done; assert B as Hrow by done
  end.
  refine (conj Hcols (conj Hrow _)).
  exact (make_lane_scheduler 12 _ Hcols Hrow).
Defined.

(** A car a little left of the right margin, moving right at 100 px/s. *)
(** A car in the band, and the last car of the road lane of row 34, which
    [Lane.__init__] places beyond the band. *)
Definition sample_car : Car.t := Car.mk 500 48 100 1.

Lemma car_update_wrap_witness :
  ∃ l c,
    Lane.init 34 COLS "road" (World.road_seed 34) None = Ok l
    ∧ last (Lane.cars l) = Some c
    ∧ Car.dir c = 1
    ∧ (inject_Z (WIDTH + 2 * TILE) < Car.x c)%Q
    ∧ (inject_Z (WIDTH + 2 * TILE) < Car.advance (1 # 60) c)%Q
    ∧ Car.x (Car.update (1 # 60) c) = inject_Z (- Car.w c - 2 * TILE)
    ∧ (Car.dir sample_car = 1 ∨ Car.dir sample_car = -1)
    ∧ (0 <= Car.speed sample_car)%Q ∧ (0 <= 1)%Q
    ∧ in_band sample_car (Car.x sample_car)
    ∧ (inject_Z (WIDTH + 2 * TILE) < Car.advance 1 sample_car)%Q
    ∧ Car.x (Car.update 1 sample_car) = inject_Z (- Car.w sample_car - 2 * TILE)
    ∧ in_band sample_car (Car.x (Car.update 1 sample_car)).
Proof.
  eexists _, _.
  match goal with
  | |- ?A ∧ ?B ∧ ?C ∧ ?D ∧ ?E ∧ _ =>
      assert A as Hl by run; assert B as Hlast by run;
      assert C as Hd by run; assert D as Hout by run; assert E as Hfar by run
  end.
  assert (Car.dir sample_car = 1 ∨ Car.dir sample_car = -1) as Hdir by (left; reflexivity).
  assert (0 <= Car.speed sample_car)%Q as Hspeed by (vm_compute; discriminate).
  assert (0 <= 1)%Q as Hdt by (vm_compute; discriminate).
  assert (in_band sample_car (Car.x sample_car)) as Hband
    by (vm_compute; split; discriminate).
  assert (inject_Z (WIDTH + 2 * TILE) < Car.advance 1 sample_car)%Q as Hfar' by run.
  refine (conj Hl (conj Hlast (conj Hd (conj Hout (conj Hfar (conj _ _)))))).
  { exact (proj1 (car_update_wrap (1 # 60) _) Hd Hfar). }
  refine (conj Hdir (conj Hspeed (conj Hdt (conj Hband (conj Hfar' (conj _ _)))))).
  { exact (proj1 (car_update_wrap 1 sample_car) eq_refl Hfar'). }
  exact (proj2 (proj2 (proj2 (proj2 (car_update_wrap 1 sample_car))))
           Hdir Hspeed Hdt Hband).
Defined.

Lemma is_blocked_out_of_range_witness :
  ∃ l r,
    Lane.init 0 COLS "grass" (World.grass_seed 0) (Some 4) = Ok l
    ∧ Lane.init 12 COLS "road" (World.road_seed 12) None = Ok r
    ∧ Lane.is_blocked l (-1) = Ok true
    ∧ Lane.is_blocked l COLS = Ok true
    ∧ Lane.is_blocked r 4 = Ok false
    ∧ Lane.is_blocked r (-1) = Ok false.
Proof.
  eexists _, _.
  match goal with
  | |- ?A ∧ ?B ∧ _ => assert A as Hl by run; assert B as Hr by run
  end.
  pose proof (is_blocked_out_of_range 0 COLS "grass" _ _ _ Hl) as [Hgrass _].
  pose proof (is_blocked_out_of_range 12 COLS "road" _ _ _ Hr) as [_ Hroad].
  exact (conj Hl (conj Hr
           (conj (Hgrass eq_refl (-1) (or_introl eq_refl))
              (conj (Hgrass eq_refl COLS (or_intror (Z.le_refl COLS)))
                 (conj (Hroad eq_refl 4) (Hroad eq_refl (-1))))))).
Defined.

Lemma lane_content_deterministic_witness :
  ∃ s l1 l2,
    World.init COLS = Ok s
    ∧ built s 0 l1 4
    ∧ built s 0 l2 4
    ∧ World.cols s = World.cols s
    ∧ Lane.kind l1 = Lane.kind l2
    ∧ (Lane.kind l1 = "road" ∨ 4 = 4)
    ∧ l1 = l2.
Proof.
  eexists _, _, _. split; [run|].
  match goal with
  | |- built ?s 0 ?l1 4 ∧ built ?s 0 ?l2 4 ∧ _ =>
      assert (built s 0 l1 4) as H1
        by (eapply (@built_make_lane MT_PyRandom s 0 _ s); run);
      assert (built s 0 l2 4) as H2
        by (eapply (@built_backfill MT_PyRandom s 0); [run|run|run])
  end.
  match goal with
  | |- _ ∧ _ ∧ ?C ∧ ?D ∧ ?E ∧ _ =>
      assert C as Hc by done; assert D as Hk by done;
      assert E as Hh by (right; done)
  end.
  refine (conj H1 (conj H2 (conj Hc (conj Hk (conj Hh _))))).
  exact (lane_content_deterministic 0 _ _ _ _ 4 4 H1 H2 Hc Hk Hh).
Defined.

Lemma world_update_on_screen_witness :
  ∃ s0 s l,
    World.init COLS = Ok s0
    ∧ World.ensure_range 12 13 s0 = Ok s
    ∧ World.get_lane 12 s = Some l
    ∧ Lane.kind l = "road"
    ∧ ∃ l', World.get_lane 12 (World.update (1 # 60) 0 s) = Some l'
            ∧ if World.off_screen 0 l then l' = l
              else Lane.cars l' = Car.update (1 # 60) <$> Lane.cars l
                   ∧ Lane.kind l' = "road" ∧ Lane.row l' = Lane.row l.
Proof.
  eexists _, _, _. split; [run|]. split; [run|].
  match goal with
  | |- ?A ∧ ?B ∧ _ => assert A as Hl by run; assert B as Hk by done
  end.
  refine (conj Hl (conj Hk _)).
  exact (world_update_on_screen (1 # 60) 0 _ 12 _ Hl Hk).
Defined.

Lemma ensure_range_reset_witness :
  ∃ w0 s,
    World.init COLS = Ok w0
    ∧ World.ensure_range 0 1 w0 = Ok s
    ∧ reachable s
    ∧ World.init (World.cols s) = Ok w0
    ∧ (World.generated_max s < 100 - 50 →
       World.maybe_reset 100 s
       = Ok (World.set_lanes (λ _, World.lanes s)
               (World.set_generated_max (100 - 1) w0))
       ∧ World.ensure_range 100 101 s = World.ensure_range 100 101 w0)
      ∧ (100 - 50 ≤ World.generated_max s → World.maybe_reset 100 s = Ok s).
Proof.
  eexists _, _. split; [run|]. split; [run|].
  match goal with
  | |- reachable ?s ∧ ?B ∧ _ =>
      assert (reachable s) as Hreach
        by (eapply (reachable_ensure_range _ 0 1);
            [apply (reachable_init COLS); [done|run]|run]);
      assert B as Hinit by run
  end.
  refine (conj Hreach (conj Hinit _)).
  exact (ensure_range_reset 100 101 _ _ Hreach Hinit).
Defined.

(** ** More runs

    The World of a new game, after a first [ensure_range], and after a
    second one that goes a row back. *)

Definition new_game : {s : World.t MT.t | World.init COLS = Ok s}.
Proof. eexists. run. Defined.

Definition new_world : World.t MT.t := proj1_sig new_game.

Definition first_window :
  {s : World.t MT.t | World.ensure_range 0 3 new_world = Ok s}.
Proof. eexists. run. Defined.

Definition start_world : World.t MT.t := proj1_sig first_window.

Definition step_back :
  {s : World.t MT.t | World.ensure_range (-1) 2 start_world = Ok s}.
Proof. eexists. run. Defined.

Definition back_world : World.t MT.t := proj1_sig step_back.

Lemma new_world_reachable : reachable new_world.
Proof. apply (reachable_init COLS); [done|exact (proj2_sig new_game)]. Qed.

Lemma start_world_reachable : reachable start_world.
Proof.
  eapply (reachable_ensure_range _ 0 3);
    [exact new_world_reachable|exact (proj2_sig first_window)].
Qed.

Lemma grass_lane_open_cell_witness :
  0 < COLS
  ∧ ∃ l, Lane.init 7 COLS "grass" (World.grass_seed 7) None = Ok l
         ∧ ∃ c, 0 ≤ c < COLS ∧ Lane.is_blocked l c = Ok false.
Proof.
  assert (0 < COLS) as Hcols by done.
  exact (conj Hcols (grass_lane_open_cell 7 COLS (World.grass_seed 7) None Hcols)).
Defined.

Lemma lane_init_no_columns_witness :
  0 ≤ 0
  ∧ Lane.init 3 0 "grass" (World.grass_seed 3) None = Raise IndexError
  ∧ ∃ l, Lane.init 3 0 "road" (World.grass_seed 3) None = Ok l
         ∧ Lane.blocked l = [].
Proof.
  assert (0 ≤ 0) as Hcols by lia.
  exact (conj Hcols (lane_init_no_columns 3 0 (World.grass_seed 3) None Hcols)).
Defined.

Lemma ensure_range_idempotent_witness :
  0 ≤ 3
  ∧ World.ensure_range 0 3 new_world = Ok start_world
  ∧ World.ensure_range 0 3 start_world = Ok start_world.
Proof.
  assert (0 ≤ 3) as Hle by lia.
  assert (World.ensure_range 0 3 new_world = Ok start_world) as Hs by run.
  exact (conj Hle (conj Hs (ensure_range_idempotent 0 3 _ _ Hle Hs))).
Defined.

Lemma ensure_range_adds_inside_witness :
  World.ensure_range 0 3 new_world = Ok start_world
  ∧ World.get_lane 2 new_world = None
  ∧ is_Some (World.get_lane 2 start_world)
  ∧ 0 ≤ 2 ≤ 3.
Proof.
  assert (World.ensure_range 0 3 new_world = Ok start_world) as Hs by run.
  assert (World.get_lane 2 new_world = None) as Hnone by run.
  assert (is_Some (World.get_lane 2 start_world)) as Hsome by (eexists; run).
  exact (conj Hs (conj Hnone (conj Hsome
           (ensure_range_adds_inside 0 3 _ _ 2 Hs Hnone Hsome)))).
Defined.

Lemma ensure_range_behind_witness :
  ∃ l,
    -1 - 50 ≤ World.generated_max start_world
    ∧ 2 ≤ World.generated_max start_world
    ∧ World.ensure_range (-1) 2 start_world = Ok back_world
    ∧ World.get_lane (-1) start_world = None
    ∧ World.get_lane (-1) back_world = Some l
    ∧ same_generator start_world back_world
    ∧ Lane.kind l = "grass"
    ∧ Lane.init (-1) (World.cols start_world) "grass" (World.grass_seed (-1))
        (Some (World.path_col start_world)) = Ok l.
Proof.
  eexists.
  assert (-1 - 50 ≤ World.generated_max start_world) as Hlo
    by (apply Z.leb_le; run).
  assert (2 ≤ World.generated_max start_world) as Hhi by (apply Z.leb_le; run).
  assert (World.ensure_range (-1) 2 start_world = Ok back_world) as Hs by run.
  assert (World.get_lane (-1) start_world = None) as Hnone by run.
  match goal with
  | |- _ ∧ _ ∧ _ ∧ _ ∧ ?A ∧ _ => assert A as Hl by run
  end.
  pose proof (ensure_range_behind (-1) 2 _ _ Hlo Hhi Hs) as [Hsame Hnew].
  exact (conj Hlo (conj Hhi (conj Hs (conj Hnone (conj Hl
           (conj Hsame (Hnew (-1) _ Hnone Hl))))))).
Defined.

Lemma generated_max_bounds_witness :
  reachable new_world
  ∧ World.ensure_range 0 3 new_world = Ok start_world
  ∧ World.generated_max new_world ≤ World.generated_max start_world
  ∧ (0 ≤ 3 → 3 ≤ World.generated_max start_world)
  ∧ ∀ r, is_Some (World.get_lane r start_world) →
         r ≤ World.generated_max start_world.
Proof.
  assert (World.ensure_range 0 3 new_world = Ok start_world) as Hs by run.
  exact (conj new_world_reachable
           (conj Hs (generated_max_bounds 0 3 _ _ new_world_reachable Hs))).
Defined.

Lemma world_row_open_cell_witness :
  ∃ l,
    reachable start_world
    ∧ World.get_lane 1 start_world = Some l
    ∧ ((Lane.kind l = "road" ∧ ∀ c, Lane.is_blocked l c = Ok false)
       ∨ (Lane.kind l = "grass"
          ∧ length (Lane.blocked l) = Z.to_nat (World.cols start_world)
          ∧ ∃ c, 0 ≤ c < World.cols start_world
                 ∧ Lane.is_blocked l c = Ok false)).
Proof.
  eexists.
  match goal with
  | |- _ ∧ ?A ∧ _ => assert A as Hlane by run
  end.
  exact (conj start_world_reachable
           (conj Hlane (world_row_open_cell _ 1 _ start_world_reachable Hlane))).
Defined.

Lemma make_lane_path_step_witness :
  ∃ l s',
    path_ok start_world
    ∧ World._make_lane 4 start_world = Ok (l, s')
    ∧ path_ok s'
    ∧ -1 ≤ World.path_col s' - World.path_col start_world ≤ 1
    ∧ (4 < SAFE_START_ROWS ∨ Lane.kind l = "road" →
       World.path_col s' = World.path_col start_world).
Proof.
  eexists _, _.
  assert (path_ok start_world) as Hpath
    by (split; [apply Z.leb_le; run|apply Z.ltb_lt; run]).
  match goal with
  | |- _ ∧ ?A ∧ _ => assert A as Hmk by run
  end.
  exact (conj Hpath (conj Hmk (make_lane_path_step 4 _ _ _ Hpath Hmk))).
Defined.

Lemma scheduler_bounds_witness :
  reachable start_world
  ∧ 0 ≤ World.road_remaining start_world ≤ ROAD_SEGMENT_MAX - 1
  ∧ SAFE_START_ROWS ≤ World.next_road_start start_world.
Proof.
  exact (conj start_world_reachable (scheduler_bounds _ start_world_reachable)).
Defined.

Lemma new_world_start_column_witness :
  ∃ l,
    0 < COLS
    ∧ World.init COLS = Ok new_world
    ∧ -999998 ≤ 0
    ∧ World.ensure_range 0 3 new_world = Ok start_world
    ∧ World.get_lane 1 start_world = Some l
    ∧ 1 < SAFE_START_ROWS
    ∧ Lane.is_blocked l (COLS `div` 2) = Ok false.
Proof.
  eexists.
  assert (0 < COLS) as Hcols by done.
  assert (World.init COLS = Ok new_world) as Hinit by run.
  assert (-999998 ≤ 0) as Hlow by lia.
  assert (World.ensure_range 0 3 new_world = Ok start_world) as Hs by run.
  assert (1 < SAFE_START_ROWS) as Hrow by done.
  match goal with
  | |- _ ∧ _ ∧ _ ∧ _ ∧ ?A ∧ _ => assert A as Hlane by run
  end.
  exact (conj Hcols (conj Hinit (conj Hlow (conj Hs (conj Hlane (conj Hrow
           (new_world_start_column COLS 0 3 _ _ Hcols Hinit Hlow Hs 1 _ Hlane Hrow))))))).
Defined.

Lemma ensure_range_size_witness :
  World.ensure_range 0 3 new_world = Ok start_world
  ∧ (size (World.lanes start_world) ≤ Z.to_nat (3 - 0 + 5))%nat
  ∧ (3 + 4 < 0 → World.lanes start_world = ∅).
Proof.
  assert (World.ensure_range 0 3 new_world = Ok start_world) as Hs by run.
  exact (conj Hs (ensure_range_size 0 3 _ _ Hs)).
Defined.

Lemma world_no_columns_witness :
  0 ≤ 0 ∧ -999998 ≤ 0 ∧ 0 ≤ 0 ∧ 0 < SAFE_START_ROWS
  ∧ ∃ s0, World.init 0 = Ok s0
          ∧ World.ensure_range 0 0 s0 = Raise IndexError.
Proof.
  assert (0 ≤ 0) as Hcols by lia.
  assert (-999998 ≤ 0) as Hlow by lia.
  assert (0 < SAFE_START_ROWS) as Hsafe by done.
  exact (conj Hcols (conj Hlow (conj Hcols (conj Hsafe
           (world_no_columns 0 0 0 Hcols Hlow Hcols Hsafe))))).
Defined.

(** The player of a new game, and the same after two and a half seconds on
    its row. *)
Definition sample_player : Player.t := Player.init (COLS `div` 2) 0.

Definition waiting_player : Player.t :=
  {| Player.col := Player.col sample_player;
     Player.row := Player.row sample_player;
     Player.is_hopping := false; Player.hop_t := 0;
     Player.start_pos := Player.start_pos sample_player;
     Player.end_pos := Player.end_pos sample_player;
     Player.render_col := Player.render_col sample_player;
     Player.render_row := Player.render_row sample_player;
     Player.alive := true; Player.max_row := Player.max_row sample_player;
     Player.time_in_same_row := 5 # 2;
     Player._last_row_for_timer := Player.row sample_player |}.

Lemma try_move_keeps_witness :
  ∃ p',
    player_ok sample_player
    ∧ Player.try_move 0 1 start_world sample_player = Ok p'
    ∧ player_ok p'
    ∧ Player.max_row p' = Z.max (Player.max_row sample_player) (Player.row p').
Proof.
  eexists.
  assert (player_ok sample_player) as Hok
    by (vm_compute; repeat split; (reflexivity || discriminate)).
  match goal with
  | |- _ ∧ ?A ∧ _ => assert A as Hmove by run
  end.
  exact (conj Hok (conj Hmove (try_move_keeps 0 1 _ _ _ Hok Hmove))).
Defined.

Lemma try_move_timer_witness :
  ∃ p' q',
    Player._last_row_for_timer waiting_player = Player.row waiting_player
    ∧ Player.try_move 0 1 start_world waiting_player = Ok p'
    ∧ Player.try_move 1 0 start_world waiting_player = Ok q'
    ∧ Player.row p' ≠ Player.row waiting_player
    ∧ Player.time_in_same_row p' = 0%Q
    ∧ Player.row q' = Player.row waiting_player
    ∧ Player.col q' ≠ Player.col waiting_player
    ∧ Player.time_in_same_row q' = Player.time_in_same_row waiting_player.
Proof.
  eexists _, _.
  assert (Player._last_row_for_timer waiting_player = Player.row waiting_player)
    as Hlast by reflexivity.
  match goal with
  | |- _ ∧ ?A ∧ ?B ∧ ?C ∧ _ ∧ ?D ∧ ?E ∧ _ =>
      assert A as Hup by run; assert B as Hside by run;
      assert C as Hrow by (vm_compute; discriminate);
      assert D as Hsame by run;
      assert E as Hcol by (vm_compute; discriminate)
  end.
  exact (conj Hlast (conj Hup (conj Hside (conj Hrow
           (conj (proj1 (try_move_timer 0 1 _ _ _ Hlast Hup) Hrow)
              (conj Hsame (conj Hcol
                 (proj2 (try_move_timer 1 0 _ _ _ Hlast Hside) Hsame)))))))).
Defined.

Lemma try_move_in_window_witness :
  World.ensure_range 0 3 new_world = Ok start_world
  ∧ Player.alive sample_player = true
  ∧ Player.is_hopping sample_player = false
  ∧ 0 ≤ Player.col sample_player + 0 < COLS
  ∧ 0 ≤ Player.row sample_player + 1 ≤ 3
  ∧ ∃ lane blocked p',
      World.get_lane (Player.row sample_player + 1) start_world = Some lane
      ∧ Lane.is_blocked lane (Player.col sample_player + 0) = Ok blocked
      ∧ Player.try_move 0 1 start_world sample_player = Ok p'
      ∧ if blocked then p' = sample_player
        else Player.col p' = Player.col sample_player + 0
             ∧ Player.row p' = Player.row sample_player + 1
             ∧ Player.is_hopping p' = true.
Proof.
  assert (World.ensure_range 0 3 new_world = Ok start_world) as Hs by run.
  assert (Player.alive sample_player = true) as Halive by reflexivity.
  assert (Player.is_hopping sample_player = false) as Hrest by reflexivity.
  assert (0 ≤ Player.col sample_player + 0 < COLS) as Hcol
    by (vm_compute; repeat split; (reflexivity || discriminate)).
  assert (0 ≤ Player.row sample_player + 1 ≤ 3) as Hrow
    by (vm_compute; repeat split; (reflexivity || discriminate)).
  exact (conj Hs (conj Halive (conj Hrest (conj Hcol (conj Hrow
           (try_move_in_window 0 3 _ _ 0 1 sample_player Hs Halive Hrest Hcol Hrow)))))).
Defined.

(** The window, one row on. *)
Definition second_window :
  {s : World.t MT.t | World.ensure_range 1 4 start_world = Ok s}.
Proof. eexists. run. Defined.

Definition next_world : World.t MT.t :=
  World.update (1 # 60) 0 (proj1_sig second_window).

Lemma forward_one_world_witness :
  World.init COLS = Ok new_world
  ∧ -999998 ≤ 0
  ∧ forward new_world 0 next_world
  ∧ ∃ t, World.ensure_range 0 (World.generated_max next_world) new_world = Ok t
         ∧ part_of t next_world.
Proof.
  assert (World.init COLS = Ok new_world) as Hinit by run.
  assert (-999998 ≤ 0) as Hlow by lia.
  assert (forward new_world 0 next_world) as Hforward.
  { apply (@forward_tick MT_PyRandom).
    apply (@forward_next MT_PyRandom _ _ start_world 1 4);
      [apply (@forward_first MT_PyRandom _ _ 3); [lia|run]
      |lia|apply Z.leb_le; run| |run].
    intros r Hr. change (1 ≤ r ≤ 3) in Hr.
    assert (r = 1 ∨ r = 2 ∨ r = 3) as [->|[->| ->]] by lia; eexists; run. }
  exact (conj Hinit (conj Hlow (conj Hforward
           (@forward_one_world MT_PyRandom COLS _ 0 _ Hinit Hlow Hforward)))).
Defined.

(** ** Where the specification and the code part *)

(** C3, as stated, fails.  After [ensure_range(100, 101)] the last
    generated row is 101; [ensure_range(0, 1)] then asks for a window that
    starts 101 rows behind it.  The call does not reset: the reset step
    returns the state as it is, rows 0 and 1 are made by the backfill loop,
    and the call leaves [generated_max], the scheduler and the generator
    where they were, not at the values a reset gives. *)
Lemma ensure_range_regress_counterexample :
  ∃ s0 s s' sr,
    World.init COLS = Ok s0
    ∧ World.ensure_range 100 101 s0 = Ok s
    ∧ World.generated_max s = 101
    ∧ 0 < World.generated_max s - 50
    ∧ World.maybe_reset 0 s = Ok s
    ∧ is_Some (World.get_lane 100 s)
    ∧ World.ensure_range 0 1 s = Ok s'
    ∧ World.generated_max s' = 101
    ∧ World.road_remaining s' = 1
    ∧ World.next_road_start s' = 105
    ∧ World.rng s' = World.rng s
    ∧ World.reset 0 s = Ok sr
    ∧ World.generated_max sr = -1
    ∧ World.road_remaining sr = 0
    ∧ World.next_road_start sr = 12
    ∧ World.rng sr = World.rng s0.
Proof.
  eexists _, _, _, _.
  split; [run|]. split; [run|]. split; [run|]. split; [run|]. split; [run|].
  split; [eexists; run|].
  split; [run|]. split; [run|]. split; [run|]. split; [run|]. split; [run|].
  split; [run|]. split; [run|]. split; [run|]. split; run.
Qed.

(** C4, as stated, fails.  Row 1 is built twice in one World: by
    [ensure_range(0, 10)] on a new World, with the path column at 4, and,
    after [ensure_range(5, 15)] has evicted it, by [ensure_range(0, 10)]
    again, with the path column at 6.  Both are the grass lane of row 1,
    from the same seed; the first has column 4 open, the second has a bush
    there. *)
Lemma regenerated_lane_counterexample :
  ∃ s0 s1 s2 s3 l l',
    World.init COLS = Ok s0
    ∧ World.ensure_range 0 10 s0 = Ok s1
    ∧ World.ensure_range 5 15 s1 = Ok s2
    ∧ World.ensure_range 0 10 s2 = Ok s3
    ∧ World.get_lane 1 s1 = Some l
    ∧ World.get_lane 1 s3 = Some l'
    ∧ Lane.init 1 COLS "grass" (World.grass_seed 1) (Some 4) = Ok l
    ∧ Lane.init 1 COLS "grass" (World.grass_seed 1) (Some 6) = Ok l'
    ∧ Lane.blocked l
      = [false; true; false; false; false; false; false; false; false]
    ∧ Lane.blocked l'
      = [false; true; false; false; true; false; false; false; false].
Proof.
  eexists _, _, _, _, _, _.
  split; [run|]. split; [run|]. split; [run|]. split; [run|].
  split; [run|]. split; [run|]. split; [run|]. split; [run|]. split; run.
Qed.

(** C8, as stated, fails on a road lane: [is_blocked] returns false for a
    column left of the field and for one right of it. *)
Lemma is_blocked_road_counterexample :
  ∃ l,
    Lane.init 12 COLS "road" (World.road_seed 12) None = Ok l
    ∧ Lane.kind l = "road"
    ∧ Lane.is_blocked l (-1) = Ok false
    ∧ Lane.is_blocked l COLS = Ok false.
Proof.
  eexists. split; [run|]. split; [run|]. split; run.
Qed.

(** C9, as stated, fails on the first frame of a game.  The World is new and
    holds rows -10 to 30, the camera is at 0 and a sixtieth of a second has
    passed.  Row 13 is a road lane whose first car moves right, so its
    position should grow; the lane is one row above the band [update]
    serves, and comes out of [update] as it went in. *)
Lemma update_off_screen_counterexample :
  ∃ s0 s l c,
    World.init COLS = Ok s0
    ∧ World.ensure_range (0 - LANES_BEHIND) (0 + LANES_AHEAD) s0 = Ok s
    ∧ World.get_lane 13 s = Some l
    ∧ Lane.kind l = "road"
    ∧ Lane.cars l !! 0%nat = Some c
    ∧ (Car.x c < Car.advance (1 # 60) c)%Q
    ∧ World.off_screen 0 l = true
    ∧ World.get_lane 13 (World.update (1 # 60) 0 s) = Some l.
Proof.
  eexists _, _, _, _.
  split; [run|]. split; [run|]. split; [run|]. split; [run|].
  split; [run|]. split; [run|]. split; run.
Qed.
